(** * Photo Story: authorization-gated media delivery

    A shallow embedding of the image-serving path of [backend/routes.ts]
    (tenant access check, upload path resolution, size variants, the
    [GET /image/:mediaId] handler) and of the client-side cache of
    [frontend/AuthorizedImage.tsx], of the post, comment, essay and
    report handlers of [backend/routes.ts] and of the pager of
    [frontend/PhotoStoryPageClient.tsx], followed by the properties
    proved about them.

    JavaScript strings are [string]; the character-level work of Node's
    POSIX [path] module is done on [list ascii] (on the bytes of a UTF-8
    name the separator and the dot are found exactly as on its UTF-16
    code units).  Prisma tables are finite maps or lists of records,
    [fs.existsSync] is a predicate on paths.  Failures of the store,
    which the handlers turn into status 500, are not modelled; what the
    runtime decides in the delivery step of the image route (a header
    value refused, the answer of [res.sendFile]) is a parameter of
    [serveImageVia], and so is the role guard in front of the post
    deletion.  A handler that
    writes is given the table it writes to and returns it with the
    reply; what the schema's referential actions do to other tables is
    outside the model. *)

From Stdlib Require Import ZArith Lia Bool List Ascii String Sorted.
From stdpp Require Import base tactics option list gmap strings pretty.

Local Open Scope string_scope.
Local Open Scope list_scope.
Local Open Scope Z_scope.

(** ** JavaScript string primitives *)

Module Js.

Abbreviation chars := (list ascii).

Definition to_chars (s : string) : chars := list_ascii_of_string s.
Definition of_chars (l : chars) : string := string_of_list_ascii l.

Definition ascii_eqb (a b : ascii) : bool := Ascii.eqb a b.

(** [String.prototype.startsWith] *)
Fixpoint starts_with (p l : chars) : bool :=
  match p, l with
  | [], _ => true
  | _ :: _, [] => false
  | a :: p', b :: l' => ascii_eqb a b && starts_with p' l'
  end.

Definition startsWith (s p : string) : bool :=
  starts_with (to_chars p) (to_chars s).

Definition endsWith (s p : string) : bool :=
  starts_with (rev (to_chars p)) (rev (to_chars s)).

(** [String.prototype.slice] for the index ranges the callers produce
    ([0 <= start], [0 <= stop]). *)
Definition slice (l : chars) (start stop : Z) : chars :=
  take (Z.to_nat (stop - start)) (drop (Z.to_nat start) l).

(** [String.prototype.replace] with a string pattern: only the first
    occurrence is replaced. *)
Fixpoint replace_first (pat rep l : chars) : chars :=
  if starts_with pat l then rep ++ drop (length pat) l
  else match l with
       | [] => []
       | c :: r => c :: replace_first pat rep r
       end.

Definition replace (s pat rep : string) : string :=
  of_chars (replace_first (to_chars pat) (to_chars rep) (to_chars s)).

(** Truthiness of a string value that may be absent. *)
Definition truthy (o : option string) : bool :=
  match o with
  | Some s => negb (String.eqb s "")
  | None => false
  end.

End Js.

(** ** Node's POSIX [path] module *)

Module Path.
Import Js.

Definition is_slash (c : ascii) : bool := ascii_eqb c "/".
Definition is_dot (c : ascii) : bool := ascii_eqb c ".".

Definition dot : chars := ["."%char].
Definition dotdot : chars := ["."%char; "."%char].

Definition chars_eqb (a b : chars) : bool :=
  bool_decide (a = b).

(** Splitting on the separator; [split_sep l] is never empty. *)
Fixpoint split_sep (l : chars) : list chars :=
  match l with
  | [] => [[]]
  | c :: r =>
      if is_slash c then [] :: split_sep r
      else match split_sep r with
           | [] => [[c]]
           | s :: ss => (c :: s) :: ss
           end
  end.

Fixpoint join_sep (segs : list chars) : chars :=
  match segs with
  | [] => []
  | [s] => s
  | s :: rest => s ++ "/"%char :: join_sep rest
  end.

(** The non-empty segments of a path. *)
Definition segments (l : chars) : list chars :=
  filter (fun s => s <> []) (split_sep l).

(** One step of [normalizeString]: the segments kept so far are a stack,
    most recent first.  Empty and [.] segments are skipped, [..] drops
    the last kept segment; above the top it is kept only when
    [allowAboveRoot]. *)
Definition norm_step (allowAboveRoot : bool) (stack : list chars) (seg : chars)
  : list chars :=
  if chars_eqb seg [] then stack
  else if chars_eqb seg dot then stack
  else if chars_eqb seg dotdot then
    match stack with
    | top :: rest =>
        if chars_eqb top dotdot
        then (if allowAboveRoot then seg :: stack else stack)
        else rest
    | [] => if allowAboveRoot then [seg] else []
    end
  else seg :: stack.

Definition norm_segments (allowAboveRoot : bool) (segs : list chars) : list chars :=
  rev (fold_left (norm_step allowAboveRoot) segs []).

Definition normalizeString (p : chars) (allowAboveRoot : bool) : chars :=
  join_sep (norm_segments allowAboveRoot (split_sep p)).

(** The loop of [path.resolve]: arguments are taken from the right (the
    working directory last) until an absolute one has been prepended. *)
Fixpoint resolve_loop (rev_args : list chars) (resolvedPath : chars)
  : chars * bool :=
  match rev_args with
  | [] => (resolvedPath, false)
  | p :: rest =>
      match p with
      | [] => resolve_loop rest resolvedPath
      | c :: _ =>
          let resolvedPath' := p ++ "/"%char :: resolvedPath in
          if is_slash c then (resolvedPath', true)
          else resolve_loop rest resolvedPath'
      end
  end.

Definition resolve_chars (cwd : chars) (args : list chars) : chars :=
  let '(resolvedPath, resolvedAbsolute) := resolve_loop (rev args ++ [cwd]) [] in
  let n := normalizeString resolvedPath (negb resolvedAbsolute) in
  if resolvedAbsolute then "/"%char :: n
  else match n with [] => dot | _ => n end.

(** [path.resolve(...args)] with [process.cwd()] made explicit. *)
Definition resolve (cwd : string) (args : list string) : string :=
  of_chars (resolve_chars (to_chars cwd) (map to_chars args)).

(** *** [path.extname] *)

Record ExtState := mkExt {
  startDot : Z;
  startPart : Z;
  ext_end : Z;
  ext_matchedSlash : bool;
  preDotState : Z
}.

Definition ext_init : ExtState := mkExt (-1) 0 (-1) true 0.

Definition ext_see_char (i : Z) (st : ExtState) : ExtState :=
  if ext_end st =? -1
  then mkExt (startDot st) (startPart st) (i + 1) false (preDotState st)
  else st.

Definition ext_see_dot (i : Z) (st : ExtState) : ExtState :=
  if startDot st =? -1
  then mkExt i (startPart st) (ext_end st) (ext_matchedSlash st) (preDotState st)
  else if negb (preDotState st =? 1)
  then mkExt (startDot st) (startPart st) (ext_end st) (ext_matchedSlash st) 1
  else st.

Definition ext_see_other (st : ExtState) : ExtState :=
  if negb (startDot st =? -1)
  then mkExt (startDot st) (startPart st) (ext_end st) (ext_matchedSlash st) (-1)
  else st.

(** The scan [for (i = n - 1; i >= 0; --i)]. *)
Fixpoint extname_loop (p : chars) (n : nat) (st : ExtState) : ExtState :=
  match n with
  | O => st
  | S i =>
      let code := nth i p zero in
      if is_slash code then
        if negb (ext_matchedSlash st)
        then mkExt (startDot st) (Z.of_nat i + 1) (ext_end st)
                   (ext_matchedSlash st) (preDotState st)
        else extname_loop p i st
      else
        let st1 := ext_see_char (Z.of_nat i) st in
        let st2 := if is_dot code then ext_see_dot (Z.of_nat i) st1
                   else ext_see_other st1 in
        extname_loop p i st2
  end.

Definition extname_chars (p : chars) : chars :=
  let st := extname_loop p (length p) ext_init in
  if (startDot st =? -1) || (ext_end st =? -1) || (preDotState st =? 0)
     || ((preDotState st =? 1) && (startDot st =? ext_end st - 1)
         && (startDot st =? startPart st + 1))
  then []
  else slice p (startDot st) (ext_end st).

Definition extname (p : string) : string := of_chars (extname_chars (to_chars p)).

(** *** [path.basename] *)

Record BaseState := mkBase {
  b_start : Z;
  b_end : Z;
  b_matchedSlash : bool;
  extIdx : Z;
  firstNonSlashEnd : Z
}.

Definition base_init (suffix : chars) : BaseState :=
  mkBase 0 (-1) true (Z.of_nat (length suffix) - 1) (-1).

(** The scan of the branch taken when a non-empty suffix no longer than
    the path is given. *)
Fixpoint basename_suffix_loop (p suffix : chars) (n : nat) (st : BaseState)
  : BaseState :=
  match n with
  | O => st
  | S i =>
      let code := nth i p zero in
      if is_slash code then
        if negb (b_matchedSlash st)
        then mkBase (Z.of_nat i + 1) (b_end st) (b_matchedSlash st)
                    (extIdx st) (firstNonSlashEnd st)
        else basename_suffix_loop p suffix i st
      else
        let st1 :=
          if firstNonSlashEnd st =? -1
          then mkBase (b_start st) (b_end st) false (extIdx st) (Z.of_nat i + 1)
          else st in
        let st2 :=
          if 0 <=? extIdx st1 then
            if ascii_eqb code (nth (Z.to_nat (extIdx st1)) suffix zero) then
              let e := extIdx st1 - 1 in
              if e =? -1
              then mkBase (b_start st1) (Z.of_nat i) (b_matchedSlash st1) e
                          (firstNonSlashEnd st1)
              else mkBase (b_start st1) (b_end st1) (b_matchedSlash st1) e
                          (firstNonSlashEnd st1)
            else mkBase (b_start st1) (firstNonSlashEnd st1) (b_matchedSlash st1)
                        (-1) (firstNonSlashEnd st1)
          else st1 in
        basename_suffix_loop p suffix i st2
  end.

(** The scan of the branch without a usable suffix. *)
Fixpoint basename_plain_loop (p : chars) (n : nat) (st : BaseState) : BaseState :=
  match n with
  | O => st
  | S i =>
      let code := nth i p zero in
      if is_slash code then
        if negb (b_matchedSlash st)
        then mkBase (Z.of_nat i + 1) (b_end st) (b_matchedSlash st)
                    (extIdx st) (firstNonSlashEnd st)
        else basename_plain_loop p i st
      else if b_end st =? -1
      then basename_plain_loop p i
             (mkBase (b_start st) (Z.of_nat i + 1) false (extIdx st)
                     (firstNonSlashEnd st))
      else basename_plain_loop p i st
  end.

Definition basename_chars (p : chars) (suffix : option chars) : chars :=
  let plain :=
    let st := basename_plain_loop p (length p) (base_init []) in
    if b_end st =? -1 then [] else slice p (b_start st) (b_end st) in
  match suffix with
  | Some sfx =>
      if (0 <? Z.of_nat (length sfx)) && (Z.of_nat (length sfx) <=? Z.of_nat (length p))
      then
        if chars_eqb sfx p then []
        else
          let st := basename_suffix_loop p sfx (length p) (base_init sfx) in
          let stop :=
            if b_start st =? b_end st then firstNonSlashEnd st
            else if b_end st =? -1 then Z.of_nat (length p)
            else b_end st in
          slice p (b_start st) stop
      else plain
  | None => plain
  end.

Definition basename (p : string) (suffix : option string) : string :=
  of_chars (basename_chars (to_chars p) (to_chars <$> suffix)).

(** *** [path.normalize] and [path.join] *)

Definition normalize_chars (p : chars) : chars :=
  match p with
  | [] => dot
  | c :: _ =>
      let isAbsolute := is_slash c in
      let trailingSeparator := is_slash (List.last p zero) in
      let n := normalizeString p (negb isAbsolute) in
      match n with
      | [] => if isAbsolute then ["/"%char]
              else if trailingSeparator then "."%char :: ["/"%char] else dot
      | _ =>
          let n' := if trailingSeparator then n ++ ["/"%char] else n in
          if isAbsolute then "/"%char :: n' else n'
      end
  end.

Definition join_chars (args : list chars) : chars :=
  match filter (fun a => a <> []) args with
  | [] => dot
  | parts => normalize_chars (join_sep parts)
  end.

Definition join (args : list string) : string :=
  of_chars (join_chars (map to_chars args)).

End Path.


(** ** The backend: [backend/routes.ts] *)

Module Backend.
Import Js.

(** *** Stored data *)

(** A Prisma [Json] column. *)
#[local] Unset Elimination Schemes.
Inductive Json :=
  | JNull
  | JBool (b : bool)
  | JNum (n : Z)
  | JStr (s : string)
  | JArr (items : list Json)
  | JObj (fields : gmap string Json).
#[local] Set Elimination Schemes.

Record AppInstance := mkApp {
  app_id : string;
  app_type : string;
  app_slug : string;
  isActive : bool;
  config : option Json
}.

Record UserGroup := mkUserGroup {
  userId : string;
  groupId : string
}.

Record Media := mkMedia {
  filename : option string;
  url : string
}.

(** A [PhotoPost] row with its [media] relation included. *)
Record PhotoPost := mkPost {
  appInstanceId : string;
  mediaId : string;
  media : Media
}.

(** [AppInstance.slug] is unique, so the table is a map from slugs. *)
Record Db := mkDb {
  appInstance : gmap string AppInstance;
  userGroup : list UserGroup;
  photoPost : list PhotoPost
}.

(** [AuthRequest["user"]] as set by the authentication middleware. *)
Record AuthUser := mkUser {
  user_id : string;
  role : string
}.

(** The process environment: [env], [process.cwd()] and the file system
    as seen by [fs.existsSync]. *)
Record Host := mkHost {
  UPLOADS_DIR : option string;
  UPLOADS_SERVE_STRATEGY : string;
  UPLOADS_ACCEL_REDIRECT_PREFIX : string;
  cwd : string;
  existsSync : string -> bool
}.

(** *** Helper: file serving *)

Definition getUploadsRootDir (h : Host) : string :=
  match UPLOADS_DIR h with
  | Some d => d
  | None => Path.join [cwd h; "uploads"]
  end.

Definition resolveUploadsFilePath (h : Host) (uploadsPath : string)
  : option string :=
  let root := getUploadsRootDir h in
  let abs := Path.resolve (cwd h) [root; uploadsPath] in
  let rootResolved := Path.resolve (cwd h) [root] in
  if negb (startsWith abs (rootResolved +:+ "/")) && negb (String.eqb abs rootResolved)
  then None
  else Some abs.

Definition resolveSizedFilename (filename : string) (size : option string)
  : string :=
  let ext := Path.extname filename in
  let name := Path.basename filename (Some ext) in
  match size with
  | None => filename
  | Some sz =>
      if negb (truthy size) || String.eqb sz "large" then filename
      else if String.eqb sz "thumbnail" then name +:+ "-thumb" +:+ ext
      else if String.eqb sz "medium" then name +:+ "-medium" +:+ ext
      else filename
  end.

(** *** Helper: app access check *)

Record Access := mkAccess {
  app : option AppInstance;
  allowed : bool;
  allowedGroupIds : option (list Json)
}.

Definition isPrivileged (authUser : option AuthUser) : bool :=
  match authUser with
  | Some u => String.eqb (role u) "ADMIN" || String.eqb (role u) "EDITOR"
  | None => false
  end.

(** [Array.isArray(config?.allowedGroupIds) ? config.allowedGroupIds : []] *)
Definition configAllowedGroupIds (cfg : option Json) : list Json :=
  match cfg with
  | Some (JObj fields) =>
      match fields !! "allowedGroupIds" with
      | Some (JArr items) => items
      | _ => []
      end
  | _ => []
  end.

(** [prisma.userGroup.findMany({ where: { userId } })] mapped to group ids. *)
Definition userGroupIds (db : Db) (uid : string) : list string :=
  map groupId (filter (fun g => userId g = uid) (userGroup db)).

(** [userGroupIds.includes(id)]: only a string can equal a group id. *)
Definition includes (ids : list string) (id : Json) : bool :=
  match id with
  | JStr s => existsb (String.eqb s) ids
  | _ => false
  end.

Definition pickAccessibleAppInstance (db : Db) (slug : string)
    (authUser : option AuthUser) : Access :=
  match appInstance db !! slug with
  | None => mkAccess None false None
  | Some a =>
      if negb (String.eqb (app_type a) "PHOTO_STORY")
      then mkAccess None false None
      else
        let privileged := isPrivileged authUser in
        if negb privileged && negb (isActive a)
        then mkAccess None false None
        else
          let groupIds := configAllowedGroupIds (config a) in
          if (length groupIds =? 0)%nat || privileged
          then mkAccess (Some a) true (Some groupIds)
          else
            match authUser with
            | None => mkAccess (Some a) false (Some groupIds)
            | Some u =>
                let mine := userGroupIds db (user_id u) in
                let hasAccess := existsb (includes mine) groupIds in
                mkAccess (Some a) hasAccess (Some groupIds)
            end
  end.

(** *** Route: serve image *)

Inductive Body :=
  | BodyJson (message : string)
  | BodyFile (absPath : string)
  | BodyEmpty.

Record Response := mkResponse {
  status : nat;
  headers : list (string * string);
  body : Body
}.

Definition jsonError (code : nat) (message : string) : Response :=
  mkResponse code [] (BodyJson message).

(** A parsed query-string value: a string, or an array or nested object. *)
Inductive QueryValue :=
  | QString (s : string)
  | QOther.

Record ImageRequest := mkReq {
  req_slug : string;
  req_mediaId : string;
  req_size : option QueryValue;
  req_user : option AuthUser
}.

Definition accelPrefix (rawPrefix : string) : string :=
  let withLeadingSlash :=
    if startsWith rawPrefix "/" then rawPrefix else "/" +:+ rawPrefix in
  if endsWith withLeadingSlash "/" then withLeadingSlash
  else withLeadingSlash +:+ "/".

(** [prisma.photoPost.findFirst({ where: { appInstanceId, mediaId } })] *)
Definition findPost (db : Db) (appId mid : string) : option PhotoPost :=
  find (fun p => String.eqb (appInstanceId p) appId && String.eqb (mediaId p) mid)
       (photoPost db).

(** [post.media.filename || post.media.url.replace("/uploads/", "")] *)
Definition rawFilename (post : PhotoPost) : string :=
  if truthy (filename (media post))
  then default "" (filename (media post))
  else replace (url (media post)) "/uploads/" "".

Definition querySize (req : ImageRequest) : option string :=
  match req_size req with
  | Some (QString s) => Some s
  | _ => None
  end.

Definition cacheControl : string * string :=
  ("Cache-Control", "private, max-age=300").

Section Route.
(** [normalizeUploadsPath] is imported from the shared
    [utils/uploadsSigning] module of the surrounding application; it
    returns a string or [null]. *)
Variable normalizeUploadsPath : string -> option string.

Definition serveImage (db : Db) (h : Host) (req : ImageRequest) : Response :=
  let authUser := req_user req in
  let size := querySize req in
  let acc := pickAccessibleAppInstance db (req_slug req) authUser in
  match app acc with
  | None => jsonError 404 "App not found"
  | Some a =>
      if negb (allowed acc) then jsonError 404 "App not found"
      else
        match findPost db (app_id a) (req_mediaId req) with
        | None => jsonError 404 "Image not found"
        | Some post =>
            let safe := normalizeUploadsPath (rawFilename post) in
            if negb (truthy safe) then jsonError 400 "Invalid media filename"
            else
              let safeFilename := default "" safe in
              let requestedFilename := resolveSizedFilename safeFilename size in
              let uploadRoot := getUploadsRootDir h in
              let requestedPath := resolveUploadsFilePath h requestedFilename in
              let fallbackPath := resolveUploadsFilePath h safeFilename in
              if negb (truthy requestedPath) || negb (truthy fallbackPath)
              then jsonError 400 "Invalid resolved file path"
              else
                let requestedAbs := default "" requestedPath in
                let fileToServe :=
                  if existsSync h requestedAbs then requestedFilename
                  else safeFilename in
                let absPath :=
                  if existsSync h requestedAbs then requestedAbs
                  else default "" fallbackPath in
                if negb (existsSync h absPath)
                then jsonError 404 "File not found"
                else if String.eqb (UPLOADS_SERVE_STRATEGY h) "accel"
                then
                  let prefix := accelPrefix (UPLOADS_ACCEL_REDIRECT_PREFIX h) in
                  mkResponse 200
                    [cacheControl; ("X-Accel-Redirect", prefix +:+ fileToServe)]
                    BodyEmpty
                else
                  mkResponse 200 [cacheControl]
                    (BodyFile (Path.resolve (cwd h) [uploadRoot; fileToServe]))
        end
  end.

(** [serveImage] above is the handler behind a transport that accepts
    every header value and streams every file it is handed.  The handler
    as the runtime completes it: [res.setHeader] refuses some values by
    throwing, which the handler's [catch] turns into status 500 with the
    [Cache-Control] header already set; and what [res.sendFile] answers
    is decided by express (it refuses, for one, a dotfile that exists).
    Both belong to the runtime and are parameters: [acceptsHeader value]
    says whether [res.setHeader] takes [value], and [sendFile headers
    abs] is the response that comes of calling [res.sendFile(abs)] with
    [headers] set, a throw into the [catch] included. *)
Variable acceptsHeader : string -> bool.
Variable sendFile : list (string * string) -> string -> Response.

Definition serveImageVia (db : Db) (h : Host) (req : ImageRequest) : Response :=
  let authUser := req_user req in
  let size := querySize req in
  let acc := pickAccessibleAppInstance db (req_slug req) authUser in
  match app acc with
  | None => jsonError 404 "App not found"
  | Some a =>
      if negb (allowed acc) then jsonError 404 "App not found"
      else
        match findPost db (app_id a) (req_mediaId req) with
        | None => jsonError 404 "Image not found"
        | Some post =>
            let safe := normalizeUploadsPath (rawFilename post) in
            if negb (truthy safe) then jsonError 400 "Invalid media filename"
            else
              let safeFilename := default "" safe in
              let requestedFilename := resolveSizedFilename safeFilename size in
              let uploadRoot := getUploadsRootDir h in
              let requestedPath := resolveUploadsFilePath h requestedFilename in
              let fallbackPath := resolveUploadsFilePath h safeFilename in
              if negb (truthy requestedPath) || negb (truthy fallbackPath)
              then jsonError 400 "Invalid resolved file path"
              else
                let requestedAbs := default "" requestedPath in
                let fileToServe :=
                  if existsSync h requestedAbs then requestedFilename
                  else safeFilename in
                let absPath :=
                  if existsSync h requestedAbs then requestedAbs
                  else default "" fallbackPath in
                if negb (existsSync h absPath)
                then jsonError 404 "File not found"
                else if String.eqb (UPLOADS_SERVE_STRATEGY h) "accel"
                then
                  let prefix := accelPrefix (UPLOADS_ACCEL_REDIRECT_PREFIX h) in
                  if acceptsHeader (prefix +:+ fileToServe)
                  then
                    mkResponse 200
                      [cacheControl; ("X-Accel-Redirect", prefix +:+ fileToServe)]
                      BodyEmpty
                  else
                    mkResponse 500 [cacheControl] (BodyJson "Failed to serve image")
                else
                  sendFile [cacheControl] (Path.resolve (cwd h) [uploadRoot; fileToServe])
        end
  end.
End Route.

End Backend.

(** ** The client: [frontend/AuthorizedImage.tsx] *)

Module Frontend.
Import Js.

Definition Blob := list Byte.byte.

(** What [fetch] does with one request: the promise rejects, or a
    response arrives whose body may or may not be readable. *)
Inductive FetchResult :=
  | Rejected
  | Responded (ok : bool) (blob : option Blob).

(** The network answers a request from its position in the sequence of
    requests made so far, its URL and its [Authorization] header. *)
Definition Network := nat -> string -> string -> FetchResult.

(** The state shared by every mounted [AuthorizedImage]: the module-level
    [imageCache], the requests sent, and the browser's object-URL store. *)
Record Browser := mkBrowser {
  imageCache : gmap string string;
  requests : list (string * string);
  objectUrls : list Blob
}.

Definition placeholder : string :=
  "data:image/gif;base64,R0lGODlhAQABAIAAAAAAAP///yH5BAEAAAAALAAAAAABAAEAAAIBRAA7".

Definition cacheKey (src : string) (token : option string) : option string :=
  if negb (truthy token) then None
  else Some (src +:+ "|" +:+ default "" token).

(** [URL.createObjectURL]: registers the blob and returns a fresh URL. *)
Definition createObjectURL (blob : Blob) (b : Browser) : Browser * string :=
  (mkBrowser (imageCache b) (requests b) (objectUrls b ++ [blob]),
   "blob:" +:+ pretty (length (objectUrls b))).

Definition fetch (net : Network) (src authorization : string) (b : Browser)
  : Browser * FetchResult :=
  (mkBrowser (imageCache b) (requests b ++ [(src, authorization)]) (objectUrls b),
   net (length (requests b)) src authorization).

(** The main effect, run to completion without being cancelled; the
    second component is [resolvedSrc] afterwards. *)
Definition loadEffect (net : Network) (src : string) (token : option string)
    (b : Browser) (resolvedSrc : string) : Browser * string :=
  if negb (truthy token) then (b, src)
  else
    let key := cacheKey src token in
    let hit := match key with
               | Some k => truthy key && bool_decide (is_Some (imageCache b !! k))
               | None => false
               end in
    if hit then
      let cached := key ≫= fun k => imageCache b !! k in
      (b, if truthy cached then default "" cached else resolvedSrc)
    else
      let '(b1, r) := fetch net src ("Bearer " +:+ default "" token) b in
      match r with
      | Responded true (Some blob) =>
          let '(b2, objectUrl) := createObjectURL blob b1 in
          let b3 := match key with
                    | Some k =>
                        if truthy key
                        then mkBrowser (<[k := objectUrl]> (imageCache b2))
                                       (requests b2) (objectUrls b2)
                        else b2
                    | None => b2
                    end in
          (b3, objectUrl)
      | _ => (b1, src)
      end.

(** Mounting the component: initial state, then both effects. *)
Definition mount (net : Network) (src : string) (token : option string)
    (b : Browser) : Browser * string :=
  let initial := if truthy token then placeholder else src in
  let afterFirst := if negb (truthy token) then src else initial in
  loadEffect net src token b afterFirst.

End Frontend.

(** ** Vocabulary of the statements *)

Module Props.
Import Js Backend.

Definition noSlash (s : chars) : Prop := "/"%char ∉ s.

(** A segment of a normalized absolute path: a name, not [.] or [..]. *)
Definition properSeg (s : chars) : Prop :=
  s <> [] /\ noSlash s /\ s <> Path.dot /\ s <> Path.dotdot.

Definition pathSegments (p : string) : list chars := Path.segments (to_chars p).

(** [abs] is [root] or lies below it, segment by segment. *)
Definition liesUnder (root abs : string) : Prop :=
  pathSegments root `prefix_of` pathSegments abs.

(** The path has a parent-directory segment. *)
Definition hasParentSegment (p : string) : Prop :=
  Path.dotdot ∈ Path.split_sep (to_chars p).

(** [/] does not occur in the string. *)
Definition separatorFree (p : string) : Prop := noSlash (to_chars p).

(** Positions [s] to [e - 1] of [p] hold its last component: no
    separator inside, only separators after it, and a separator (or the
    start of the path) before it. *)
Definition lastComponent (p : chars) (s e : nat) : Prop :=
  (s < e <= length p)%nat
  /\ (forall j, (s <= j < e)%nat -> Path.is_slash (nth j p zero) = false)
  /\ (forall j, (e <= j < length p)%nat -> Path.is_slash (nth j p zero) = true)
  /\ (s = 0%nat \/ Path.is_slash (nth (s - 1) p zero) = true).

Definition allSlashes (p : chars) : Prop :=
  forall j, (j < length p)%nat -> Path.is_slash (nth j p zero) = true.

(** An index of the scans moved [k] places to the right; [-1] stands for
    "not set" and stays. *)
Definition shiftIndex (k z : Z) : Z := if z =? -1 then -1 else z + k.

(** [path.resolve(root)] for the configured upload root. *)
Definition rootResolved (h : Host) : string :=
  Path.resolve (cwd h) [getUploadsRootDir h].

(** The caller holds an elevated role. *)
Definition elevated (authUser : option AuthUser) : Prop :=
  exists u, authUser = Some u /\ (role u = "ADMIN" \/ role u = "EDITOR").

(** The caller is a member of group [g] according to the membership table. *)
Definition memberOf (db : Db) (u : AuthUser) (g : string) : Prop :=
  exists row, row ∈ userGroup db /\ userId row = user_id u /\ groupId row = g.

(** The tenant's permitted-group set. *)
Definition permittedGroups (a : AppInstance) : list Json :=
  configAllowedGroupIds (config a).

(** The successful response that hands [file] to the transport, by
    internal redirect or by streaming. *)
Definition served (h : Host) (file : string) : Response :=
  if String.eqb (UPLOADS_SERVE_STRATEGY h) "accel"
  then mkResponse 200
         [cacheControl;
          ("X-Accel-Redirect", accelPrefix (UPLOADS_ACCEL_REDIRECT_PREFIX h) +:+ file)]
         BodyEmpty
  else mkResponse 200 [cacheControl]
         (BodyFile (Path.resolve (cwd h) [getUploadsRootDir h; file])).

Section Outcomes.
Variable normalizeUploadsPath : string -> option string.
Variables (db : Db) (h : Host) (req : ImageRequest).

Definition access : Access :=
  pickAccessibleAppInstance db (req_slug req) (req_user req).

(** The access check lets the request through, for tenant [a]. *)
Definition granted (a : AppInstance) : Prop :=
  app access = Some a /\ allowed access = true.

(** The handler's first guard, [!app || !allowed]. *)
Definition denied : Prop :=
  app access = None \/ allowed access = false.

(** Tenant [a] owns a post for the requested media id and its stored
    name normalizes to the non-empty [safe]. *)
Definition located (a : AppInstance) (post : PhotoPost) (safe : string) : Prop :=
  granted a
  /\ findPost db (app_id a) (req_mediaId req) = Some post
  /\ normalizeUploadsPath (rawFilename post) = Some safe
  /\ safe <> "".

Definition requestedName (safe : string) : string :=
  resolveSizedFilename safe (querySize req).

(** The stages at which the handler answers, each with its response. *)
Inductive ImageOutcome : Response -> Prop :=
  | OutDenied :
      denied ->
      ImageOutcome (jsonError 404 "App not found")
  | OutNoPost a :
      granted a ->
      findPost db (app_id a) (req_mediaId req) = None ->
      ImageOutcome (jsonError 404 "Image not found")
  | OutBadName a post :
      granted a ->
      findPost db (app_id a) (req_mediaId req) = Some post ->
      (normalizeUploadsPath (rawFilename post) = None
       \/ normalizeUploadsPath (rawFilename post) = Some "") ->
      ImageOutcome (jsonError 400 "Invalid media filename")
  | OutBadPath a post safe :
      located a post safe ->
      (resolveUploadsFilePath h (requestedName safe) = None
       \/ resolveUploadsFilePath h safe = None) ->
      ImageOutcome (jsonError 400 "Invalid resolved file path")
  | OutVariant a post safe rp fp :
      located a post safe ->
      resolveUploadsFilePath h (requestedName safe) = Some rp ->
      resolveUploadsFilePath h safe = Some fp ->
      existsSync h rp = true ->
      ImageOutcome (served h (requestedName safe))
  | OutFallback a post safe rp fp :
      located a post safe ->
      resolveUploadsFilePath h (requestedName safe) = Some rp ->
      resolveUploadsFilePath h safe = Some fp ->
      existsSync h rp = false ->
      existsSync h fp = true ->
      ImageOutcome (served h safe)
  | OutNoFile a post safe rp fp :
      located a post safe ->
      resolveUploadsFilePath h (requestedName safe) = Some rp ->
      resolveUploadsFilePath h safe = Some fp ->
      existsSync h rp = false ->
      existsSync h fp = false ->
      ImageOutcome (jsonError 404 "File not found").
End Outcomes.

Section Delivery.
Variable normalizeUploadsPath : string -> option string.
Variable acceptsHeader : string -> bool.
Variable sendFile : list (string * string) -> string -> Response.
Variables (db : Db) (h : Host) (req : ImageRequest).

(** The request passes every check of the handler, which hands [file],
    found at [abs], to the delivery step: the variant when it is on disk,
    else the canonical file when that is. *)
Definition handsOver (file abs : string) : Prop :=
  exists a post safe rp fp,
    located normalizeUploadsPath db req a post safe
    /\ resolveUploadsFilePath h (requestedName req safe) = Some rp
    /\ resolveUploadsFilePath h safe = Some fp
    /\ ((existsSync h rp = true /\ file = requestedName req safe /\ abs = rp)
        \/ (existsSync h rp = false /\ existsSync h fp = true
            /\ file = safe /\ abs = fp)).

(** What the delivery step answers for [file]: the internal redirect, or
    status 500 when its header value is refused, or what [res.sendFile]
    answers. *)
Definition delivery (file : string) : Response :=
  if String.eqb (UPLOADS_SERVE_STRATEGY h) "accel"
  then
    if acceptsHeader (accelPrefix (UPLOADS_ACCEL_REDIRECT_PREFIX h) +:+ file)
    then mkResponse 200
           [cacheControl;
            ("X-Accel-Redirect", accelPrefix (UPLOADS_ACCEL_REDIRECT_PREFIX h) +:+ file)]
           BodyEmpty
    else mkResponse 500 [cacheControl] (BodyJson "Failed to serve image")
  else sendFile [cacheControl] (Path.resolve (cwd h) [getUploadsRootDir h; file]).
End Delivery.


End Props.

(** ** Sample data *)

Module Sample.
Import Backend Frontend.

Definition travel : AppInstance :=
  mkApp "app-travel" "PHOTO_STORY" "travel" true None.

Definition family : AppInstance :=
  mkApp "app-family" "PHOTO_STORY" "family" true
        (Some (JObj {[ "allowedGroupIds" := JArr [JStr "G1"] ]})).

Definition archive : AppInstance :=
  mkApp "app-archive" "PHOTO_STORY" "archive" false None.

Definition board : AppInstance :=
  mkApp "app-board" "BOARD" "board" true None.

Definition sunset : PhotoPost :=
  mkPost "app-travel" "m1" (mkMedia (Some "sunset.jpg") "/uploads/sunset.jpg").

Definition kids : PhotoPost :=
  mkPost "app-family" "m2" (mkMedia None "/uploads/2024/kids.jpg").

Definition db : Db :=
  mkDb (<["travel" := travel]> (<["family" := family]>
          (<["archive" := archive]> (<["board" := board]> ∅))))
       [mkUserGroup "u1" "G1"; mkUserGroup "u2" "G2"]
       [sunset; kids].

Definition alice : AuthUser := mkUser "u1" "USER".
Definition bob : AuthUser := mkUser "u2" "USER".
Definition root : AuthUser := mkUser "u0" "ADMIN".

(** Only the two canonical files are on disk. *)
Definition host : Host :=
  mkHost (Some "/srv/uploads") "direct" "/protected" "/app"
         (fun p => String.eqb p "/srv/uploads/sunset.jpg"
                   || String.eqb p "/srv/uploads/2024/kids.jpg").

(** A normalizer that accepts every name as it is. *)
Definition keep (name : string) : option string := Some name.

(** An anonymous request on the group-restricted tenant. *)
Definition anonymousFamily : ImageRequest := mkReq "family" "m2" None None.

(** An anonymous request for the thumbnail of [sunset.jpg]. *)
Definition thumbOfSunset : ImageRequest :=
  mkReq "travel" "m1" (Some (QString "thumbnail")) None.

Definition emptyBrowser : Browser := mkBrowser ∅ [] [].

(** A network that answers every request with a one-byte image. *)
Definition online : Network := fun _ _ _ => Responded true (Some [Byte.x01]).

End Sample.

(** ** Backend: posts, comments and essays *)

Module Handlers.
Import Js Backend.

(** *** Stored data *)

(** A [PhotoPost] row as the post handlers read it: its id, its creation
    time, the names of the tags assigned to it, and the columns of
    [Backend.PhotoPost]. *)
Record PostRow := mkPostRow {
  post_id : string;
  post_createdAt : Z;
  post_tags : list string;
  post_columns : PhotoPost
}.

Definition post_app (p : PostRow) : string := appInstanceId (post_columns p).

(** [PhotoComment.id] and [PhotoEssay.id] are unique, so these tables are
    maps from ids. *)
Record PhotoComment := mkComment {
  comment_postId : string;
  comment_userId : string;
  comment_content : string;
  comment_createdAt : Z
}.

Record PhotoEssay := mkEssay {
  essay_postId : string;
  essay_userId : string;
  essay_title : option string;
  essay_content : string;
  essay_createdAt : Z
}.

(** *** Replies *)

(** [res.status(code).json({ message })], or a reply with a payload.
    The payload of [res.status(204).send()] is [tt]. *)
Inductive Reply (A : Type) :=
  | Fail (code : nat) (message : string)
  | Done (code : nat) (payload : A).
Arguments Fail {A} code message.
Arguments Done {A} code payload.

(** *** Queries *)

(** [orderBy: { createdAt: "desc" }], as a stable insertion sort.  The
    store puts rows of equal time in an order of its choosing, which may
    change from one query to the next; the sort keeps them in the order
    of the table, so a statement about the order of rows is meant for
    rows of distinct times only, where the order is forced. *)
Fixpoint insertDesc {A : Type} (key : A -> Z) (x : A) (l : list A) : list A :=
  match l with
  | [] => [x]
  | y :: r => if key y <=? key x then x :: l else y :: insertDesc key x r
  end.

Definition orderByDesc {A : Type} (key : A -> Z) (l : list A) : list A :=
  foldr (insertDesc key) [] l.

(** Rows in an order [orderBy: { createdAt: "desc" }] may give. *)
Definition newestFirst (rows : list PostRow) : Prop :=
  StronglySorted (fun x y => post_createdAt y <= post_createdAt x) rows.

(** [prisma.photoPost.findFirst({ where: { id, appInstanceId } })] *)
Definition findPostById (posts : list PostRow) (id appId : string) : option PostRow :=
  find (fun p => String.eqb (post_id p) id && String.eqb (post_app p) appId) posts.

(** [prisma.photoComment.findMany({ where: { postId }, orderBy })] *)
Definition commentsOf (comments : gmap string PhotoComment) (id : string)
    : list (string * PhotoComment) :=
  orderByDesc (fun r => comment_createdAt r.2)
    (filter (fun r => comment_postId r.2 = id) (map_to_list comments)).

(** [prisma.photoEssay.findMany({ where: { postId }, orderBy })] *)
Definition essaysOf (essays : gmap string PhotoEssay) (id : string)
    : list (string * PhotoEssay) :=
  orderByDesc (fun r => essay_createdAt r.2)
    (filter (fun r => essay_postId r.2 = id) (map_to_list essays)).

(** The handlers' first guard lets the caller through, for tenant [a]. *)
Definition admits (db : Db) (slug : string) (authUser : option AuthUser)
    (a : AppInstance) : Prop :=
  app (pickAccessibleAppInstance db slug authUser) = Some a
  /\ allowed (pickAccessibleAppInstance db slug authUser) = true.

(** *** Route: list posts *)

Record Pagination := mkPagination {
  page : Z;
  limit : Z
}.

(** [PaginationSchema] on query values that coerce to integers; [None]
    is an absent parameter.  A value that does not coerce to an integer
    is refused by [.int()]: the handler then sees a failed parse. *)
Definition PaginationSchema (page limit : option Z) : option Pagination :=
  let p := default 1 page in
  let l := default 20 limit in
  if (1 <=? p) && ((1 <=? l) && (l <=? 100))
  then Some (mkPagination p l)
  else None.

Record Meta := mkMeta {
  meta_total : Z;
  meta_page : Z;
  meta_limit : Z;
  totalPages : Z
}.

Record PostList := mkPostList {
  data : list PostRow;
  meta : Meta
}.

(** [typeof req.query.tag === "string" ? req.query.tag : undefined] *)
Definition queryTag (q : option QueryValue) : option string :=
  match q with
  | Some (QString s) => Some s
  | _ => None
  end.

(** The [where] clause: the tenant's posts, and when a tag is given
    those that carry it. *)
Definition matchesWhere (appId : string) (tag : option string) (p : PostRow) : bool :=
  String.eqb (post_app p) appId
  && (if truthy tag then existsb (String.eqb (default "" tag)) (post_tags p)
      else true).

(** [Math.ceil(total / limit)] for a count and a positive limit. *)
Definition ceilDiv (total limit : Z) : Z := - ((- total) / limit).

Definition listPosts (db : Db) (posts : list PostRow) (slug : string)
    (authUser : option AuthUser) (tagQuery : option QueryValue)
    (parsed : option Pagination) : Reply PostList :=
  let tag := queryTag tagQuery in
  match parsed with
  | None => Fail 400 "Invalid pagination"
  | Some pg =>
      let acc := pickAccessibleAppInstance db slug authUser in
      match app acc with
      | None => Fail 404 "App not found"
      | Some a =>
          if negb (allowed acc) then Fail 404 "App not found"
          else
            let matching := filter (fun p => matchesWhere (app_id a) tag p = true) posts in
            let skip := (page pg - 1) * limit pg in
            let rows := take (Z.to_nat (limit pg))
                          (drop (Z.to_nat skip) (orderByDesc post_createdAt matching)) in
            let total := Z.of_nat (length matching) in
            Done 200 (mkPostList rows
                        (mkMeta total (page pg) (limit pg) (ceilDiv total (limit pg))))
      end
  end.

(** The rows of a reply; none when the request was refused. *)
Definition rowsOf (r : Reply PostList) : list PostRow :=
  match r with
  | Done _ l => data l
  | Fail _ _ => []
  end.

(** *** Route: get one post *)

Definition getPost (db : Db) (posts : list PostRow) (slug id : string)
    (authUser : option AuthUser) : Reply PostRow :=
  let acc := pickAccessibleAppInstance db slug authUser in
  match app acc with
  | None => Fail 404 "App not found"
  | Some a =>
      if negb (allowed acc) then Fail 404 "App not found"
      else
        match findPostById posts id (app_id a) with
        | None => Fail 404 "Post not found"
        | Some post => Done 200 post
        end
  end.

(** *** Routes: create and update a post, the tag list *)

Section Tags.
(** [String.prototype.trim], a built-in of the runtime. *)
Variable trim : string -> string.

(** [Array.from(new Set(xs))]: the first occurrence of every value, in
    the order of insertion. *)
Fixpoint insertionOrder (seen xs : list string) : list string :=
  match xs with
  | [] => []
  | x :: r =>
      if bool_decide (x ∈ seen) then insertionOrder seen r
      else x :: insertionOrder (x :: seen) r
  end.

Definition arrayFromSet (xs : list string) : list string := insertionOrder [] xs.

(** [tags.map((t) => t.trim()).filter(Boolean)], then the set. *)
Definition cleanTags (tags : list string) : list string :=
  arrayFromSet (filter (fun t => truthy (Some t) = true) (map trim tags)).

(** Create: [data.tags ?? []]. *)
Definition createTags (tags : option (list string)) : list string :=
  cleanTags (default [] tags).

(** Update: [data.tags ? ... : undefined]; an array is truthy. *)
Definition updateTags (tags : option (list string)) : option (list string) :=
  match tags with
  | Some t => Some (cleanTags t)
  | None => None
  end.
End Tags.

(** *** Route: delete a post *)

Section Guarded.
(** [authorizeRole], from the authentication middleware of the
    surrounding application, stands before the handler: set up with a
    list of roles, it either answers the request itself or passes the
    caller on ([None]). *)
Variable authorizeRole : list string -> AuthUser -> option (Reply unit).

(** The effect on the [PhotoPost] table and the reply.  The caller has
    passed [authenticateToken], so the user is present. *)
Definition deletePost (db : Db) (posts : list PostRow) (slug id : string)
    (authUser : AuthUser) : list PostRow * Reply unit :=
  match authorizeRole ["ADMIN"; "EDITOR"] authUser with
  | Some refusal => (posts, refusal)
  | None =>
      let acc := pickAccessibleAppInstance db slug (Some authUser) in
      match app acc with
      | None => (posts, Fail 404 "App not found")
      | Some a =>
          (filter (fun p => ~ (post_id p = id /\ post_app p = app_id a)) posts,
           Done 204 tt)
      end
  end.
End Guarded.

(** *** Routes: comments *)

Definition listComments (db : Db) (posts : list PostRow)
    (comments : gmap string PhotoComment) (slug id : string)
    (authUser : option AuthUser) : Reply (list (string * PhotoComment)) :=
  let acc := pickAccessibleAppInstance db slug authUser in
  match app acc with
  | None => Fail 404 "App not found"
  | Some a =>
      if negb (allowed acc) then Fail 404 "App not found"
      else
        match findPostById posts id (app_id a) with
        | None => Fail 404 "Post not found"
        | Some _ => Done 200 (commentsOf comments id)
        end
  end.

(** [data] is the result of [CommentCreateSchema.parse]; [newId] and
    [now] are the id and the time the database gives the new row. *)
Definition createComment (db : Db) (posts : list PostRow)
    (comments : gmap string PhotoComment) (slug id : string)
    (authUser : AuthUser) (data : option string) (newId : string) (now : Z)
    : gmap string PhotoComment * Reply (string * PhotoComment) :=
  match data with
  | None => (comments, Fail 400 "Validation error")
  | Some content =>
      let acc := pickAccessibleAppInstance db slug (Some authUser) in
      match app acc with
      | None => (comments, Fail 404 "App not found")
      | Some a =>
          if negb (allowed acc) then (comments, Fail 404 "App not found")
          else
            match findPostById posts id (app_id a) with
            | None => (comments, Fail 404 "Post not found")
            | Some _ =>
                let comment := mkComment id (user_id authUser) content now in
                (<[newId := comment]> comments, Done 201 (newId, comment))
            end
      end
  end.

Definition deleteComment (db : Db) (comments : gmap string PhotoComment)
    (slug postId commentId : string) (authUser : AuthUser)
    : gmap string PhotoComment * Reply unit :=
  let acc := pickAccessibleAppInstance db slug (Some authUser) in
  match app acc with
  | None => (comments, Fail 404 "App not found")
  | Some a =>
      if negb (allowed acc) then (comments, Fail 404 "App not found")
      else
        match comments !! commentId with
        | None => (comments, Fail 404 "Comment not found")
        | Some comment =>
            if negb (String.eqb (comment_postId comment) postId)
            then (comments, Fail 404 "Comment not found")
            else
              let isAuthor := String.eqb (comment_userId comment) (user_id authUser) in
              let isAdmin := String.eqb (role authUser) "ADMIN"
                             || String.eqb (role authUser) "EDITOR" in
              if negb isAuthor && negb isAdmin
              then (comments, Fail 403 "Forbidden")
              else (delete commentId comments, Done 204 tt)
        end
  end.

(** *** Routes: essays *)

Definition listEssays (db : Db) (essays : gmap string PhotoEssay)
    (slug id : string) (authUser : option AuthUser)
    : Reply (list (string * PhotoEssay)) :=
  let acc := pickAccessibleAppInstance db slug authUser in
  match app acc with
  | None => Fail 404 "App not found"
  | Some a =>
      if negb (allowed acc) then Fail 404 "App not found"
      else Done 200 (essaysOf essays id)
  end.

(** [data] is the result of [EssayCreateSchema.parse]: a title that may
    be absent, and the content. *)
Definition createEssay (db : Db) (posts : list PostRow)
    (essays : gmap string PhotoEssay) (slug id : string)
    (authUser : AuthUser) (data : option (option string * string))
    (newId : string) (now : Z)
    : gmap string PhotoEssay * Reply (string * PhotoEssay) :=
  match data with
  | None => (essays, Fail 400 "Validation error")
  | Some (title, content) =>
      let acc := pickAccessibleAppInstance db slug (Some authUser) in
      match app acc with
      | None => (essays, Fail 404 "App not found")
      | Some a =>
          if negb (allowed acc) then (essays, Fail 404 "App not found")
          else
            match findPostById posts id (app_id a) with
            | None => (essays, Fail 404 "Post not found")
            | Some _ =>
                let essay := mkEssay id (user_id authUser) title content now in
                (<[newId := essay]> essays, Done 201 (newId, essay))
            end
      end
  end.

Definition deleteEssay (db : Db) (essays : gmap string PhotoEssay)
    (slug postId essayId : string) (authUser : AuthUser)
    : gmap string PhotoEssay * Reply unit :=
  let acc := pickAccessibleAppInstance db slug (Some authUser) in
  match app acc with
  | None => (essays, Fail 404 "App not found")
  | Some a =>
      if negb (allowed acc) then (essays, Fail 404 "App not found")
      else
        match essays !! essayId with
        | None => (essays, Fail 404 "Essay not found")
        | Some essay =>
            if negb (String.eqb (essay_postId essay) postId)
            then (essays, Fail 404 "Essay not found")
            else
              let isAuthor := String.eqb (essay_userId essay) (user_id authUser) in
              let isAdmin := String.eqb (role authUser) "ADMIN"
                             || String.eqb (role authUser) "EDITOR" in
              if negb isAuthor && negb isAdmin
              then (essays, Fail 403 "Forbidden")
              else (delete essayId essays, Done 204 tt)
        end
  end.

(** *** Routes: short texts *)

Definition listShortTexts (db : Db) (essays : gmap string PhotoEssay)
    (slug id : string) (authUser : option AuthUser)
    : Reply (list (string * PhotoEssay)) :=
  let acc := pickAccessibleAppInstance db slug authUser in
  match app acc with
  | None => Fail 404 "App not found"
  | Some a =>
      if negb (allowed acc) then Fail 404 "App not found"
      else Done 200 (essaysOf essays id)
  end.

Definition createShortText (db : Db) (posts : list PostRow)
    (essays : gmap string PhotoEssay) (slug id : string)
    (authUser : AuthUser) (data : option (option string * string))
    (newId : string) (now : Z)
    : gmap string PhotoEssay * Reply (string * PhotoEssay) :=
  match data with
  | None => (essays, Fail 400 "Validation error")
  | Some (title, content) =>
      let acc := pickAccessibleAppInstance db slug (Some authUser) in
      match app acc with
      | None => (essays, Fail 404 "App not found")
      | Some a =>
          if negb (allowed acc) then (essays, Fail 404 "App not found")
          else
            match findPostById posts id (app_id a) with
            | None => (essays, Fail 404 "Post not found")
            | Some _ =>
                let essay := mkEssay id (user_id authUser) title content now in
                (<[newId := essay]> essays, Done 201 (newId, essay))
            end
      end
  end.

Definition deleteShortText (db : Db) (essays : gmap string PhotoEssay)
    (slug postId essayId : string) (authUser : AuthUser)
    : gmap string PhotoEssay * Reply unit :=
  let acc := pickAccessibleAppInstance db slug (Some authUser) in
  match app acc with
  | None => (essays, Fail 404 "App not found")
  | Some a =>
      if negb (allowed acc) then (essays, Fail 404 "App not found")
      else
        match essays !! essayId with
        | None => (essays, Fail 404 "Essay not found")
        | Some essay =>
            if negb (String.eqb (essay_postId essay) postId)
            then (essays, Fail 404 "Essay not found")
            else
              let isAuthor := String.eqb (essay_userId essay) (user_id authUser) in
              let isAdmin := String.eqb (role authUser) "ADMIN"
                             || String.eqb (role authUser) "EDITOR" in
              if negb isAuthor && negb isAdmin
              then (essays, Fail 403 "Forbidden")
              else (delete essayId essays, Done 204 tt)
        end
  end.

(** *** Routes: reports *)

(** A report row; [(commentId, reporterId)], or [(essayId, reporterId)],
    is unique, so the tables are maps from these pairs. *)
Record Report := mkReport {
  report_id : string;
  report_reason : option string
}.

(** [upsert] with [update: { reason: data.reason ?? undefined }]: an
    absent reason leaves the stored one, and [newId] is the id the
    database gives a new row. *)
Definition upsertReport (reports : gmap (string * string) Report)
    (key : string * string) (reason : option string) (newId : string)
    : gmap (string * string) Report * Report :=
  match reports !! key with
  | Some old =>
      let row := match reason with
                 | Some r => mkReport (report_id old) (Some r)
                 | None => old
                 end in
      (<[key := row]> reports, row)
  | None =>
      let row := mkReport newId reason in
      (<[key := row]> reports, row)
  end.

(** [prisma.photoComment.findFirst({ where: { id: commentId, postId } })] *)
Definition findCommentOnPost (comments : gmap string PhotoComment)
    (commentId postId : string) : option PhotoComment :=
  match comments !! commentId with
  | Some c => if String.eqb (comment_postId c) postId then Some c else None
  | None => None
  end.

(** [prisma.photoEssay.findFirst({ where: { id: essayId, postId } })] *)
Definition findEssayOnPost (essays : gmap string PhotoEssay)
    (essayId postId : string) : option PhotoEssay :=
  match essays !! essayId with
  | Some e => if String.eqb (essay_postId e) postId then Some e else None
  | None => None
  end.

(** [data] is the result of [ReportSchema.parse]: the reason, which may
    be absent. *)
Definition reportComment (db : Db) (comments : gmap string PhotoComment)
    (reports : gmap (string * string) Report)
    (slug postId commentId : string) (authUser : AuthUser)
    (data : option (option string)) (newId : string)
    : gmap (string * string) Report * Reply string :=
  match data with
  | None => (reports, Fail 400 "Validation error")
  | Some reason =>
      let acc := pickAccessibleAppInstance db slug (Some authUser) in
      match app acc with
      | None => (reports, Fail 404 "App not found")
      | Some a =>
          if negb (allowed acc) then (reports, Fail 404 "App not found")
          else
            match findCommentOnPost comments commentId postId with
            | None => (reports, Fail 404 "Comment not found")
            | Some _ =>
                let '(reports', created) :=
                  upsertReport reports (commentId, user_id authUser) reason newId in
                (reports', Done 201 (report_id created))
            end
      end
  end.

Definition reportShortText (db : Db) (essays : gmap string PhotoEssay)
    (reports : gmap (string * string) Report)
    (slug postId essayId : string) (authUser : AuthUser)
    (data : option (option string)) (newId : string)
    : gmap (string * string) Report * Reply string :=
  match data with
  | None => (reports, Fail 400 "Validation error")
  | Some reason =>
      let acc := pickAccessibleAppInstance db slug (Some authUser) in
      match app acc with
      | None => (reports, Fail 404 "App not found")
      | Some a =>
          if negb (allowed acc) then (reports, Fail 404 "App not found")
          else
            match findEssayOnPost essays essayId postId with
            | None => (reports, Fail 404 "Essay not found")
            | Some _ =>
                let '(reports', created) :=
                  upsertReport reports (essayId, user_id authUser) reason newId in
                (reports', Done 201 (report_id created))
            end
      end
  end.

End Handlers.

(** ** Frontend: the pager of the post list *)

Module Client.
Import Handlers.

(** The page size the client asks for. *)
Definition pageSize : Z := 20.

(** [meta && meta.totalPages > 1]: the pager is rendered. *)
Definition pagerShown (meta : option Meta) : bool :=
  match meta with
  | Some m => 1 <? totalPages m
  | None => false
  end.

Inductive Button := Previous | Next.

(** The [disabled] attribute of a button. *)
Definition disabled (page : Z) (m : Meta) (b : Button) : bool :=
  match b with
  | Previous => page <=? 1
  | Next => totalPages m <=? page
  end.

(** The state update of a button's [onClick]. *)
Definition onClick (m : Meta) (b : Button) (prev : Z) : Z :=
  match b with
  | Previous => Z.max 1 (prev - 1)
  | Next => Z.min (totalPages m) (prev + 1)
  end.

(** A click in the rendered page: it has an effect only when the pager is
    rendered and the button is enabled. *)
Definition click (meta : option Meta) (page : Z) (b : Button) : Z :=
  match meta with
  | Some m =>
      if pagerShown meta && negb (disabled page m b) then onClick m b page
      else page
  | None => page
  end.

(** A session: clicks, each made with the [meta] on screen at that
    time, starting from the initial page. *)
Definition session (steps : list (option Meta * Button)) : Z :=
  foldl (fun page step => click step.1 page step.2) 1 steps.

(** The query of [fetchPosts] as the server's schema parses it. *)
Definition fetchPostsQuery (pageNumber : Z) : option Pagination :=
  PaginationSchema (Some pageNumber) (Some pageSize).

End Client.

(** ** Sample data for the handlers *)

Module Cases.
Import Backend Handlers Client.

Definition beach : PostRow :=
  mkPostRow "p1" 100 ["sea"; "summer"] Sample.sunset.

Definition picnic : PostRow :=
  mkPostRow "p2" 200 ["summer"] Sample.kids.

Definition harbour : PostRow :=
  mkPostRow "p3" 300 ["sea"]
            (mkPost "app-travel" "m3" (mkMedia (Some "harbour.jpg") "/uploads/harbour.jpg")).

Definition posts : list PostRow := [beach; picnic; harbour].

(** A comment by [u1] on the family tenant's post, and one by [u2] on
    the travel tenant's post. *)
Definition comments : gmap string PhotoComment :=
  <["c1" := mkComment "p2" "u1" "lovely" 210]>
    (<["c2" := mkComment "p1" "u2" "nice" 110]> ∅).

Definition essays : gmap string PhotoEssay :=
  <["e1" := mkEssay "p2" "u1" None "a day out" 220]> ∅.

(** A guard that passes the listed roles and answers every other caller
    itself. *)
Definition rolesOnly (roles : list string) (u : AuthUser) : option (Reply unit) :=
  if existsb (String.eqb (role u)) roles then None
  else Some (Fail 403 "Forbidden").

(** A trim that removes spaces at both ends. *)
Fixpoint dropSpaces (l : list ascii) : list ascii :=
  match l with
  | " "%char :: r => dropSpaces r
  | _ => l
  end.

Definition trimSpaces (s : string) : string :=
  Js.of_chars (rev (dropSpaces (rev (dropSpaces (Js.to_chars s))))).

End Cases.

(** ** More sample data *)

Module More.
Import Backend Frontend.

(** A host whose upload root is the file-system root. *)
Definition rootHost : Host :=
  mkHost (Some "/") "direct" "/protected" "/app" (fun _ => true).

(** A host that delegates the transfer to the proxy. *)
Definition accelHost : Host :=
  mkHost (Some "/srv/uploads") "accel" "protected" "/app"
         (fun p => String.eqb p "/srv/uploads/sunset.jpg").

(** A tenant whose configuration has no usable group list. *)
Definition looseConfig : AppInstance :=
  mkApp "app-loose" "PHOTO_STORY" "loose" true
        (Some (JObj {[ "allowedGroupIds" := JStr "G1" ]})).

(** A tenant whose group list holds no string. *)
Definition numericGroups : AppInstance :=
  mkApp "app-numeric" "PHOTO_STORY" "numeric" true
        (Some (JObj {[ "allowedGroupIds" := JArr [JNum 1; JNull] ]})).

Definition accessDb : Db :=
  mkDb (<["loose" := looseConfig]> (<["numeric" := numericGroups]>
          (<["family" := Sample.family]> ∅)))
       [mkUserGroup "u2" "G2"]
       [].

(** The same data after user [u2] has joined group [G1]. *)
Definition accessDbJoined : Db :=
  mkDb (appInstance accessDb)
       (mkUserGroup "u2" "G1" :: userGroup accessDb)
       [].

(** The same data after user [u2] has also joined group [G3]. *)
Definition accessDbMore : Db :=
  mkDb (appInstance accessDb)
       (mkUserGroup "u2" "G3" :: userGroup accessDbJoined)
       [].

(** A network that is down. *)
Definition offline : Network := fun _ _ _ => Rejected.

(** A header check that refuses a value with a line break in it. *)
Definition noLineBreak (value : string) : bool :=
  forallb (fun c => negb (Ascii.eqb c "010"%char) && negb (Ascii.eqb c "013"%char))
          (Js.to_chars value).

(** A transport that streams the file it is handed. *)
Definition streams (headers : list (string * string)) (abs : string) : Response :=
  mkResponse 200 headers (BodyFile abs).

(** A transport that answers 404 for a hidden file and streams every
    other one. *)
Definition hidesDotfiles (headers : list (string * string)) (abs : string)
    : Response :=
  if Js.startsWith (Path.basename abs None) "."
  then mkResponse 404 [] (BodyJson "Not Found")
  else streams headers abs.



End More.

Example extname_photo : Path.extname "photo.jpg" = ".jpg".
Proof. reflexivity. Qed.
Example extname_dots : map Path.extname ["a.b.c"; ".bashrc"; ".."; "..."; "x/y.d/z"; "dir.d/"; "a."; ""; ".b.c"]
  = [".c"; ""; ""; "."; ""; ".d"; "."; ""; ".c"].
Proof. reflexivity. Qed.
Example basename_ex : map (fun p => Path.basename p (Some (Path.extname p)))
   ["photo.jpg"; "2024/photo.jpg"; "a/b/"; "///"; ".bashrc"; "a/.x.y"; "a.b/c"]
  = ["photo"; "photo"; "b"; ""; ".bashrc"; ".x"; "c"].
Proof. reflexivity. Qed.
Example resolve_ex : map (fun p => Path.resolve "/home/app" ["/srv/uploads"; p])
   ["a.jpg"; "../../etc/passwd"; "a/../b.jpg"; "/etc/passwd"; ""; "./x//y/"; "../uploads/z"]
  = ["/srv/uploads/a.jpg"; "/etc/passwd"; "/srv/uploads/b.jpg"; "/etc/passwd"; "/srv/uploads"; "/srv/uploads/x/y"; "/srv/uploads/z"].
Proof. reflexivity. Qed.

(** The examples of Node's documentation for the functions used. *)
Example node_basename :
  Path.basename "/foo/bar/baz/asdf/quux.html" None = "quux.html"
  /\ Path.basename "/foo/bar/baz/asdf/quux.html" (Some ".html") = "quux".
Proof. split; reflexivity. Qed.
Example node_extname :
  map Path.extname ["index.html"; "index.coffee.md"; "index."; "index"; ".index"; ".index.md"]
  = [".html"; ".md"; "."; ""; ""; ".md"].
Proof. reflexivity. Qed.
Example node_resolve :
  Path.resolve "/home/app" ["/foo/bar"; "./baz"] = "/foo/bar/baz"
  /\ Path.resolve "/home/app" ["/foo/bar"; "/tmp/file/"] = "/tmp/file"
  /\ Path.resolve "/home/myself/node" ["wwwroot"; "static_files/png/"; "../gif/image.gif"]
     = "/home/myself/node/wwwroot/static_files/gif/image.gif".
Proof. repeat split; reflexivity. Qed.
Example node_join :
  Path.join ["/foo"; "bar"; "baz/asdf"; "quux"; ".."] = "/foo/bar/baz/asdf"
  /\ Path.join ["/home/app"; "uploads"] = "/home/app/uploads".
Proof. split; reflexivity. Qed.
Example resolve_rel : map (fun p => Path.resolve "/home/app" ["uploads"; p])
   ["a.jpg"; "../../../../x"]
  = ["/home/app/uploads/a.jpg"; "/x"].
Proof. reflexivity. Qed.

(** ** Access policy *)

Section AccessPolicy.
Import Backend Props.

Lemma isPrivileged_elevated authUser :
  isPrivileged authUser = true <-> elevated authUser.
Proof.
  unfold isPrivileged, elevated. split.
  - destruct authUser as [u|]; [|discriminate].
    intros H. exists u. split; [reflexivity|].
    apply orb_true_iff in H as [H|H]; apply String.eqb_eq in H; auto.
  - intros (u & -> & [H|H]); rewrite H; reflexivity.
Qed.

Lemma isPrivileged_not_elevated authUser :
  isPrivileged authUser = false <-> ~ elevated authUser.
Proof.
  rewrite <- isPrivileged_elevated. destruct (isPrivileged authUser).
  - split; [discriminate | intros H; exfalso; apply H; reflexivity].
  - split; [intros _; discriminate | reflexivity].
Qed.

Lemma includes_true ids id :
  includes ids id = true <-> exists g, id = JStr g /\ g ∈ ids.
Proof.
  unfold includes. split.
  - destruct id; try discriminate. intros H.
    apply existsb_exists in H as (x & Hin & Heq).
    apply String.eqb_eq in Heq. subst x.
    exists s. split; [reflexivity|]. by apply list_elem_of_In.
  - intros (g & -> & Hin). apply existsb_exists. exists g.
    split; [by apply list_elem_of_In | apply String.eqb_refl].
Qed.

Lemma userGroupIds_memberOf db u g :
  g ∈ userGroupIds db (user_id u) <-> memberOf db u g.
Proof.
  unfold userGroupIds, memberOf. rewrite list_elem_of_fmap. split.
  - intros (row & -> & Hrow). apply list_elem_of_filter in Hrow as [Hu Hin].
    exists row. auto.
  - intros (row & Hin & Hu & Hg). exists row. split; [auto|].
    apply list_elem_of_filter. auto.
Qed.

Lemma hasAccess_intersects db u groups :
  existsb (includes (userGroupIds db (user_id u))) groups = true
  <-> exists g, JStr g ∈ groups /\ memberOf db u g.
Proof.
  rewrite existsb_exists. split.
  - intros (id & Hin & Hinc). apply includes_true in Hinc as (g & -> & Hg).
    exists g. split; [by apply list_elem_of_In | by apply userGroupIds_memberOf].
  - intros (g & Hin & Hm). exists (JStr g). split; [by apply list_elem_of_In|].
    apply includes_true. exists g. split; [reflexivity | by apply userGroupIds_memberOf].
Qed.

Lemma length_zero_nil {A} (l : list A) : (length l =? 0)%nat = true <-> l = [].
Proof. destruct l; simpl; split; intros; try reflexivity; discriminate. Qed.

(** C6. A slug that is not in the store, or that names a tenant of another
    kind than [PHOTO_STORY], resolves to [{ app: null, allowed: false }]
    for every caller, elevated or not. *)
Theorem C6_unknown_or_foreign_slug db slug authUser :
  (appInstance db !! slug = None
   \/ exists a, appInstance db !! slug = Some a /\ app_type a <> "PHOTO_STORY") ->
  pickAccessibleAppInstance db slug authUser = mkAccess None false None.
Proof.
  unfold pickAccessibleAppInstance. intros [-> | (a & -> & Hty)]; [reflexivity|].
  apply String.eqb_neq in Hty. rewrite Hty. reflexivity.
Qed.

(** C5. An inactive tenant is closed to every caller without an elevated
    role (anonymous included), whatever its groups; for a caller with the
    ADMIN or EDITOR role the activation gate does not deny, and the
    inactive photo-story tenant is returned with [allowed = true]. *)
Theorem C5_activation_gate db slug a authUser :
  appInstance db !! slug = Some a ->
  isActive a = false ->
  (~ elevated authUser ->
     pickAccessibleAppInstance db slug authUser = mkAccess None false None)
  /\ (elevated authUser -> app_type a = "PHOTO_STORY" ->
        pickAccessibleAppInstance db slug authUser
        = mkAccess (Some a) true (Some (permittedGroups a))).
Proof.
  intros Hlk Hin. unfold pickAccessibleAppInstance. rewrite Hlk, Hin. split.
  - intros Hne. apply isPrivileged_not_elevated in Hne. rewrite Hne.
    destruct (negb _); reflexivity.
  - intros He Hty. apply isPrivileged_elevated in He. rewrite He, Hty. simpl.
    rewrite orb_true_r. reflexivity.
Qed.

(** C4. For a stored photo-story tenant that passes the activation gate:
    access is allowed when the permitted-group set is empty or the caller
    is elevated; it is denied when the set is non-empty and there is no
    caller; otherwise it is allowed exactly when one of the caller's
    groups is in the set. *)
Theorem C4_group_gate db slug a authUser :
  appInstance db !! slug = Some a ->
  app_type a = "PHOTO_STORY" ->
  (isActive a = true \/ elevated authUser) ->
  let r := pickAccessibleAppInstance db slug authUser in
  app r = Some a
  /\ ((permittedGroups a = [] \/ elevated authUser) -> allowed r = true)
  /\ (permittedGroups a <> [] -> authUser = None -> allowed r = false)
  /\ (forall u, permittedGroups a <> [] -> authUser = Some u -> ~ elevated authUser ->
        (allowed r = true <-> exists g, JStr g ∈ permittedGroups a /\ memberOf db u g)).
Proof.
  intros Hlk Hty Hgate. unfold pickAccessibleAppInstance, permittedGroups.
  rewrite Hlk, Hty. simpl.
  assert (Hg : negb (isPrivileged authUser) && negb (isActive a) = false).
  { destruct Hgate as [-> | He]; [apply andb_false_r|].
    apply isPrivileged_elevated in He. rewrite He. reflexivity. }
  rewrite Hg. clear Hg.
  destruct (length (configAllowedGroupIds (config a)) =? 0)%nat eqn:Hlen; simpl.
  - apply length_zero_nil in Hlen.
    split; [reflexivity|]. split; [reflexivity|].
    split; [intros Hne; contradiction|]. intros u Hne; contradiction.
  - assert (Hne : configAllowedGroupIds (config a) <> []).
    { intros E. apply length_zero_nil in E. congruence. }
    destruct (isPrivileged authUser) eqn:Hp.
    + split; [reflexivity|]. split; [reflexivity|]. split.
      * intros _ E. subst authUser. discriminate Hp.
      * intros u _ _ Hnot. apply isPrivileged_elevated in Hp. contradiction.
    + destruct authUser as [u|]; simpl.
      * split; [reflexivity|]. split.
        { intros [E | He]; [contradiction|].
          apply isPrivileged_elevated in He. congruence. }
        split; [intros _ E; discriminate E|].
        intros u' _ E _. injection E as <-. apply hasAccess_intersects.
      * split; [reflexivity|]. split.
        { intros [E | He]; [contradiction|].
          apply isPrivileged_elevated in He. congruence. }
        split; [reflexivity|]. intros u' _ E. discriminate E.
Qed.

(** C10. Whenever [allowed] is true the returned app is the stored record
    of that slug, its type is [PHOTO_STORY], and it is active or the caller
    holds the ADMIN or EDITOR role; [allowed = true] never comes with a
    null app. *)
Theorem C10_allowed_invariant db slug authUser :
  allowed (pickAccessibleAppInstance db slug authUser) = true ->
  exists a,
    app (pickAccessibleAppInstance db slug authUser) = Some a
    /\ appInstance db !! slug = Some a
    /\ app_type a = "PHOTO_STORY"
    /\ (isActive a = true \/ elevated authUser).
Proof.
  unfold pickAccessibleAppInstance.
  destruct (appInstance db !! slug) as [a|] eqn:Hlk; [|discriminate].
  destruct (String.eqb (app_type a) "PHOTO_STORY") eqn:Hty; [|discriminate].
  apply String.eqb_eq in Hty. simpl.
  destruct (isPrivileged authUser) eqn:Hp; simpl.
  - apply isPrivileged_elevated in Hp. rewrite orb_true_r. simpl.
    intros _. exists a. auto.
  - destruct (isActive a) eqn:Hact; simpl; [|discriminate].
    intros H. exists a. repeat split; auto.
    destruct (_ || _); [reflexivity|]. destruct authUser; reflexivity.
Qed.

End AccessPolicy.

(** ** The image route *)

Section ImageRoute.
Import Js Backend Props.

Lemma of_chars_empty l : of_chars l = "" -> l = [].
Proof. destruct l; [reflexivity | discriminate]. Qed.

Lemma resolve_chars_nonempty cwd args : Path.resolve_chars cwd args <> [].
Proof.
  unfold Path.resolve_chars.
  destruct (Path.resolve_loop _ _) as [rp [|]]; [discriminate|].
  destruct (Path.normalizeString _ _); discriminate.
Qed.

Lemma resolve_nonempty cwd args : Path.resolve cwd args <> "".
Proof.
  unfold Path.resolve. intros E. apply of_chars_empty in E.
  by apply resolve_chars_nonempty in E.
Qed.

Lemma resolveUploadsFilePath_truthy h p :
  truthy (resolveUploadsFilePath h p) = bool_decide (is_Some (resolveUploadsFilePath h p)).
Proof.
  unfold resolveUploadsFilePath.
  destruct (_ && _); simpl; [reflexivity|].
  destruct (String.eqb _ "") eqn:E; [|reflexivity].
  apply String.eqb_eq in E. by apply resolve_nonempty in E.
Qed.

Lemma truthy_Some s : truthy (Some s) = true <-> s <> "".
Proof.
  simpl. destruct (String.eqb s "") eqn:E.
  - apply String.eqb_eq in E. split; [discriminate | congruence].
  - apply String.eqb_neq in E. split; auto.
Qed.

Variable normalizeUploadsPath : string -> option string.
Variables (db : Db) (h : Host) (req : ImageRequest).

Lemma serveImage_outcome :
  ImageOutcome normalizeUploadsPath db h req (serveImage normalizeUploadsPath db h req).
Proof.
  unfold serveImage.
  destruct (app (pickAccessibleAppInstance db (req_slug req) (req_user req)))
    as [a|] eqn:Happ; [|apply OutDenied; left; exact Happ].
  destruct (allowed (pickAccessibleAppInstance db (req_slug req) (req_user req)))
    eqn:Hal; simpl; [|apply OutDenied; right; exact Hal].
  assert (Hg : granted db req a) by (split; assumption).
  destruct (findPost db (app_id a) (req_mediaId req)) as [post|] eqn:Hpost;
    [|by eapply OutNoPost].
  destruct (normalizeUploadsPath (rawFilename post)) as [safe|] eqn:Hsafe;
    [|simpl; eapply OutBadName; eauto].
  destruct (truthy (Some safe)) eqn:Ht; simpl negb; cbv iota.
  2:{ eapply OutBadName; eauto. right. rewrite Hsafe. f_equal.
      simpl in Ht. apply negb_false_iff in Ht. by apply String.eqb_eq in Ht. }
  apply truthy_Some in Ht.
  assert (Hl : located normalizeUploadsPath db req a post safe) by (repeat split; assumption).
  rewrite !resolveUploadsFilePath_truthy. cbn [from_option id].
  fold (requestedName req safe).
  destruct (resolveUploadsFilePath h (requestedName req safe)) as [rp|] eqn:Hrp;
    [|eapply OutBadPath; eauto].
  destruct (resolveUploadsFilePath h safe) as [fp|] eqn:Hfp;
    [|eapply OutBadPath; eauto].
  rewrite !bool_decide_eq_true_2 by eauto. cbn [negb orb from_option id].
  destruct (existsSync h rp) eqn:Erp.
  - rewrite Erp. cbn [negb]. eapply OutVariant; eauto.
  - destruct (existsSync h fp) eqn:Efp; cbn [negb].
    + eapply OutFallback; eauto.
    + eapply OutNoFile; eauto.
Qed.

Lemma outcome_deterministic r1 r2 :
  ImageOutcome normalizeUploadsPath db h req r1 ->
  ImageOutcome normalizeUploadsPath db h req r2 ->
  r1 = r2.
Proof.
  intros H1 H2.
  destruct H1; destruct H2; try reflexivity;
    unfold located, granted, denied in *; destruct_and?; destruct_or?;
    simplify_eq; try reflexivity; congruence.
Qed.

Lemma outcome_is r :
  ImageOutcome normalizeUploadsPath db h req r ->
  serveImage normalizeUploadsPath db h req = r.
Proof. intros H. eapply outcome_deterministic; [apply serveImage_outcome | exact H]. Qed.

Lemma served_status file : status (served h file) = 200%nat.
Proof. unfold served. destruct (String.eqb _ _); reflexivity. Qed.

Variable acceptsHeader : string -> bool.
Variable sendFile : list (string * string) -> string -> Response.

(** [serveImage] is [serveImageVia] behind the transport that accepts
    every header value and streams every file. *)
Lemma serveImage_ideal :
  serveImage normalizeUploadsPath db h req
  = serveImageVia normalizeUploadsPath (fun _ => true)
      (fun headers abs => mkResponse 200 headers (BodyFile abs)) db h req.
Proof. reflexivity. Qed.

Lemma handsOver_served file abs :
  handsOver normalizeUploadsPath db h req file abs ->
  serveImage normalizeUploadsPath db h req = served h file.
Proof.
  intros (a & post & safe & rp & fp & Hl & Hrp & Hfp
          & [(Er & -> & ->) | (Er & Ef & -> & ->)]); apply outcome_is.
  - by eapply OutVariant.
  - by eapply OutFallback.
Qed.

Lemma handsOver_unique file abs file' abs' :
  handsOver normalizeUploadsPath db h req file abs ->
  handsOver normalizeUploadsPath db h req file' abs' ->
  file = file' /\ abs = abs'.
Proof.
  intros (a & post & safe & rp & fp & Hl & Hrp & Hfp & Hc)
         (a' & post' & safe' & rp' & fp' & Hl' & Hrp' & Hfp' & Hc').
  unfold located, granted in *. destruct_and?.
  assert (a' = a) by congruence. subst a'.
  assert (post' = post) by congruence. subst post'.
  assert (safe' = safe) by congruence. subst safe'.
  assert (rp' = rp) by congruence. assert (fp' = fp) by congruence. subst rp' fp'.
  destruct Hc as [(? & -> & ->) | (? & ? & -> & ->)],
           Hc' as [(? & -> & ->) | (? & ? & -> & ->)]; try congruence; by split.
Qed.


(** The handler either hands a file to the delivery step, whose answer
    is then the response, or answers as [serveImage] does, with an error
    of its own. *)
Lemma serveImageVia_stage :
  (exists file abs,
      handsOver normalizeUploadsPath db h req file abs
      /\ serveImageVia normalizeUploadsPath acceptsHeader sendFile db h req
         = delivery acceptsHeader sendFile h file)
  \/ (serveImageVia normalizeUploadsPath acceptsHeader sendFile db h req
      = serveImage normalizeUploadsPath db h req
      /\ status (serveImage normalizeUploadsPath db h req) <> 200%nat).
Proof.
  unfold serveImageVia, serveImage.
  destruct (app (pickAccessibleAppInstance db (req_slug req) (req_user req)))
    as [a|] eqn:Happ; [|right; by split].
  destruct (allowed (pickAccessibleAppInstance db (req_slug req) (req_user req)))
    eqn:Hal; cbn [negb]; [|right; by split].
  assert (Hg : granted db req a) by (split; assumption).
  destruct (findPost db (app_id a) (req_mediaId req)) as [post|] eqn:Hpost;
    [|right; by split].
  destruct (normalizeUploadsPath (rawFilename post)) as [safe|] eqn:Hsafe;
    [|right; by split].
  destruct (truthy (Some safe)) eqn:Ht; cbn [negb]; [|right; by split].
  apply truthy_Some in Ht.
  assert (Hl : located normalizeUploadsPath db req a post safe) by (repeat split; assumption).
  rewrite !resolveUploadsFilePath_truthy. cbn [from_option id].
  fold (requestedName req safe).
  destruct (resolveUploadsFilePath h (requestedName req safe)) as [rp|] eqn:Hrp.
  2:{ rewrite bool_decide_eq_false_2 by (intros [? ?]; discriminate).
      right; by split. }
  destruct (resolveUploadsFilePath h safe) as [fp|] eqn:Hfp.
  2:{ rewrite (bool_decide_eq_false_2 (is_Some None)) by (intros [? ?]; discriminate).
      rewrite orb_true_r. right; by split. }
  rewrite !bool_decide_eq_true_2 by eauto. cbn [negb orb from_option id].
  destruct (existsSync h rp) eqn:Erp.
  - rewrite Erp. cbn [negb]. left. exists (requestedName req safe), rp. split.
    + exists a, post, safe, rp, fp. repeat split; try assumption. left. by repeat split.
    + reflexivity.
  - destruct (existsSync h fp) eqn:Efp; cbn [negb].
    + left. exists safe, fp. split.
      * exists a, post, safe, rp, fp. repeat split; try assumption. right. by repeat split.
      * reflexivity.
    + right; by split.
Qed.

Lemma serveImageVia_delivers file abs :
  handsOver normalizeUploadsPath db h req file abs ->
  serveImageVia normalizeUploadsPath acceptsHeader sendFile db h req
  = delivery acceptsHeader sendFile h file.
Proof.
  intros Hh. destruct serveImageVia_stage as [(file' & abs' & Hh' & E) | [_ Hs]].
  - by destruct (handsOver_unique _ _ _ _ Hh Hh') as [-> _].
  - rewrite (handsOver_served _ _ Hh), served_status in Hs. contradiction.
Qed.

Lemma serveImageVia_refused r :
  ImageOutcome normalizeUploadsPath db h req r ->
  status r <> 200%nat ->
  serveImageVia normalizeUploadsPath acceptsHeader sendFile db h req = r.
Proof.
  intros Hr Hs. apply outcome_is in Hr.
  destruct serveImageVia_stage as [(file & abs & Hh & _) | [E _]].
  - rewrite (handsOver_served _ _ Hh) in Hr. subst r.
    rewrite served_status in Hs. contradiction.
  - by rewrite E.
Qed.

Lemma delivery_delegated file :
  UPLOADS_SERVE_STRATEGY h = "accel" ->
  status (delivery acceptsHeader sendFile h file) = 200%nat
  \/ status (delivery acceptsHeader sendFile h file) = 500%nat.
Proof.
  intros E. unfold delivery. rewrite E, String.eqb_refl.
  destruct (acceptsHeader _); [by left | by right].
Qed.

(** C2, as the handler has it.  A caller the access check denies gets
    404 "App not found", not 403.  A request that passes every check is
    handed to the delivery step, whose answer is the response.  Apart
    from what the delivery step answers, the status is 404 exactly when
    the access check fails, the tenant owns no post with the media id, or
    neither the variant nor the canonical file exists; it is 400 exactly
    when [normalizeUploadsPath] yields nothing usable or one of the two
    resolved paths leaves the upload root; and it is never 403.  In
    delegated mode the delivery step answers 200 or 500 only. *)
Theorem C2_status_by_stage :
  let r := serveImageVia normalizeUploadsPath acceptsHeader sendFile db h req in
  let delivered code :=
    exists file abs, handsOver normalizeUploadsPath db h req file abs
                     /\ status (delivery acceptsHeader sendFile h file) = code in
  (denied db req -> r = jsonError 404 "App not found")
  /\ (forall file abs, handsOver normalizeUploadsPath db h req file abs ->
        r = delivery acceptsHeader sendFile h file)
  /\ (status r = 404%nat <->
        denied db req
        \/ (exists a, granted db req a
                      /\ findPost db (app_id a) (req_mediaId req) = None)
        \/ (exists a post safe rp fp,
              located normalizeUploadsPath db req a post safe
              /\ resolveUploadsFilePath h (requestedName req safe) = Some rp
              /\ resolveUploadsFilePath h safe = Some fp
              /\ existsSync h rp = false
              /\ existsSync h fp = false)
        \/ delivered 404%nat)
  /\ (status r = 400%nat <->
        (exists a post, granted db req a
                       /\ findPost db (app_id a) (req_mediaId req) = Some post
                       /\ (normalizeUploadsPath (rawFilename post) = None
                           \/ normalizeUploadsPath (rawFilename post) = Some ""))
        \/ (exists a post safe,
              located normalizeUploadsPath db req a post safe
              /\ (resolveUploadsFilePath h (requestedName req safe) = None
                  \/ resolveUploadsFilePath h safe = None))
        \/ delivered 400%nat)
  /\ (status r = 403%nat <-> delivered 403%nat)
  /\ (UPLOADS_SERVE_STRATEGY h = "accel" ->
      forall file, status (delivery acceptsHeader sendFile h file) = 200%nat
                   \/ status (delivery acceptsHeader sendFile h file) = 500%nat).
Proof.
  intros r delivered.
  assert (Hcode : forall code, code <> 200%nat ->
            (status r = code <->
             (status (serveImage normalizeUploadsPath db h req) = code
              /\ forall file abs, ~ handsOver normalizeUploadsPath db h req file abs)
             \/ delivered code)).
  { intros code Hcode. subst r delivered. cbv beta.
    destruct serveImageVia_stage as [(file & abs & Hh & E) | [E Hs]].
    - rewrite E. split.
      + intros Hd. right. eauto.
      + intros [[_ Hn] | (file' & abs' & Hh' & Hd)]; [by destruct (Hn _ _ Hh)|].
        by destruct (handsOver_unique _ _ _ _ Hh Hh') as [-> _].
    - rewrite E. split.
      + intros Hd. left. split; [exact Hd|]. intros file abs Hh.
        rewrite (handsOver_served _ _ Hh), served_status in Hs. contradiction.
      + intros [[Hd _] | (file & abs & Hh & _)]; [exact Hd|].
        rewrite (handsOver_served _ _ Hh), served_status in Hs. contradiction. }
  assert (Hno : forall r0, ImageOutcome normalizeUploadsPath db h req r0 ->
                           status r0 <> 200%nat ->
                           forall file abs,
                             ~ handsOver normalizeUploadsPath db h req file abs).
  { intros r0 Hr0 Hs file abs Hh. apply outcome_is in Hr0.
    rewrite (handsOver_served _ _ Hh) in Hr0. subst r0.
    rewrite served_status in Hs. contradiction. }
  pose proof serveImage_outcome as Hout.
  split; [|split; [|split; [|split; [|split]]]].
  - intros Hd. apply serveImageVia_refused; [by apply OutDenied | discriminate].
  - intros file abs. apply serveImageVia_delivers.
  - rewrite (Hcode 404%nat) by discriminate. split.
    + intros [[Hs _] | Hd]; [|by right; right; right].
      destruct Hout; simpl in Hs; try discriminate;
        try (rewrite served_status in Hs; discriminate).
      * by left.
      * right; left. eauto.
      * right; right; left. eauto 10.
    + intros [Hd | [(a & Hg & Hp) | [(a & post & safe & rp & fp & Hl & Hrp & Hfp & Er & Ef)
                                    | Hd]]]; [| | |by right]; left.
      * pose proof (OutDenied normalizeUploadsPath db h req Hd) as Ho.
        split; [by rewrite (outcome_is _ Ho) | by apply (Hno _ Ho)].
      * pose proof (OutNoPost normalizeUploadsPath db h req a Hg Hp) as Ho.
        split; [by rewrite (outcome_is _ Ho) | by apply (Hno _ Ho)].
      * pose proof (OutNoFile normalizeUploadsPath db h req a post safe rp fp
                      Hl Hrp Hfp Er Ef) as Ho.
        split; [by rewrite (outcome_is _ Ho) | by apply (Hno _ Ho)].
  - rewrite (Hcode 400%nat) by discriminate. split.
    + intros [[Hs _] | Hd]; [|by right; right].
      destruct Hout; simpl in Hs; try discriminate;
        try (rewrite served_status in Hs; discriminate).
      * left. eauto.
      * right; left. eauto.
    + intros [(a & post & Hg & Hp & Hn) | [(a & post & safe & Hl & Hn) | Hd]];
        [| |by right]; left.
      * pose proof (OutBadName normalizeUploadsPath db h req a post Hg Hp Hn) as Ho.
        split; [by rewrite (outcome_is _ Ho) | by apply (Hno _ Ho)].
      * pose proof (OutBadPath normalizeUploadsPath db h req a post safe Hl Hn) as Ho.
        split; [by rewrite (outcome_is _ Ho) | by apply (Hno _ Ho)].
  - rewrite (Hcode 403%nat) by discriminate. split.
    + intros [[Hs _] | Hd]; [|exact Hd].
      destruct Hout; simpl in Hs; try discriminate;
        rewrite served_status in Hs; discriminate.
    + intros Hd. by right.
  - intros E file. by apply delivery_delegated.
Qed.

End ImageRoute.

(** ** Tenant isolation of media *)

Section TenantIsolation.
Import Js Backend Props.

Lemma pick_app_lookup db slug authUser a :
  app (pickAccessibleAppInstance db slug authUser) = Some a ->
  appInstance db !! slug = Some a.
Proof.
  unfold pickAccessibleAppInstance.
  destruct (appInstance db !! slug) as [a'|]; [|discriminate].
  destruct (negb (String.eqb _ _)); [discriminate|].
  destruct (_ && _); [discriminate|].
  destruct (_ || _); [by intros [= ->]|].
  destruct authUser; by intros [= ->].
Qed.

Lemma findPost_None db appId mid :
  (forall post, post ∈ photoPost db ->
                ~ (appInstanceId post = appId /\ mediaId post = mid)) ->
  findPost db appId mid = None.
Proof.
  intros Hno. unfold findPost.
  destruct (find _ _) as [post|] eqn:Hf; [|reflexivity].
  apply find_some in Hf as [Hin Hb]. apply andb_true_iff in Hb as [H1 H2].
  apply String.eqb_eq in H1, H2. exfalso. apply (Hno post); [by apply list_elem_of_In|auto].
Qed.

(** C3. A media id whose posts all belong to tenant [idA], requested
    through the slug of any other tenant, gets a 404 that is the very
    response given for a media id no post refers to; the answer is a JSON
    error, never a file or a redirect. *)
Theorem C3_cross_tenant_not_found
    (normalizeUploadsPath : string -> option string) db h
    slugB (mid missing : string) size authUser (idA : string) :
  (forall post, post ∈ photoPost db -> mediaId post = mid -> appInstanceId post = idA) ->
  (forall b, appInstance db !! slugB = Some b -> app_id b <> idA) ->
  (forall post, post ∈ photoPost db -> mediaId post <> missing) ->
  let r := serveImage normalizeUploadsPath db h (mkReq slugB mid size authUser) in
  status r = 404%nat
  /\ r = serveImage normalizeUploadsPath db h (mkReq slugB missing size authUser)
  /\ (r = jsonError 404 "App not found" \/ r = jsonError 404 "Image not found").
Proof.
  intros Hown Hother Hmissing r.
  set (req1 := mkReq slugB mid size authUser) in *.
  set (req2 := mkReq slugB missing size authUser).
  destruct (app (access db req1)) as [a|] eqn:Happ.
  2:{ assert (r = jsonError 404 "App not found") as ->.
      { apply outcome_is, OutDenied. by left. }
      split; [reflexivity|]. split; [|by left].
      symmetry. apply outcome_is, OutDenied. by left. }
  destruct (allowed (access db req1)) eqn:Hal.
  2:{ assert (r = jsonError 404 "App not found") as ->.
      { apply outcome_is, OutDenied. by right. }
      split; [reflexivity|]. split; [|by left].
      symmetry. apply outcome_is, OutDenied. by right. }
  assert (Hlk : appInstance db !! slugB = Some a) by (eapply pick_app_lookup; exact Happ).
  assert (r = jsonError 404 "Image not found") as ->.
  { apply outcome_is, (OutNoPost _ _ _ _ a); [by split|].
    apply findPost_None. intros post Hin [Hid Hm].
    apply (Hother a Hlk). rewrite <- Hid. by apply Hown. }
  split; [reflexivity|]. split; [|by right].
  symmetry. apply outcome_is, (OutNoPost _ _ _ _ a); [by split|].
  apply findPost_None. intros post Hin [_ Hm]. by apply (Hmissing post).
Qed.

End TenantIsolation.

(** ** The client-side image cache *)

Section ImageCache.
Import Js Frontend.

Lemma truthy_token token : token <> "" -> truthy (Some token) = true.
Proof. intros H. simpl. apply String.eqb_neq in H. by rewrite H. Qed.

Lemma cacheKey_present src token :
  token <> "" -> cacheKey src (Some token) = Some (src +:+ "|" +:+ token).
Proof. intros H. unfold cacheKey. by rewrite (truthy_token _ H). Qed.

Lemma append_nonempty_r a b : b <> "" -> a +:+ b <> "".
Proof. destruct a; simpl; [auto | discriminate]. Qed.

Lemma key_truthy src token : truthy (Some (src +:+ "|" +:+ token)) = true.
Proof.
  apply truthy_token, append_nonempty_r. discriminate.
Qed.

(** A pair whose key is in the cache with a usable handle is answered
    from the cache: the browser state, and so the list of requests sent,
    is unchanged. *)
Lemma mount_cached net src token b handle :
  token <> "" ->
  imageCache b !! (src +:+ "|" +:+ token) = Some handle ->
  handle <> "" ->
  mount net src (Some token) b = (b, handle).
Proof.
  intros Ht Hc Hh. unfold mount, loadEffect.
  rewrite (cacheKey_present _ _ Ht), (truthy_token _ Ht), key_truthy. cbn [negb andb].
  rewrite Hc. rewrite bool_decide_eq_true_2 by eauto.
  cbn [mbind option_bind]. rewrite Hc, (truthy_token _ Hh). reflexivity.
Qed.

(** A pair whose key is not in the cache is fetched once; a successful
    answer is turned into an object URL and stored under the key. *)
Lemma mount_fetched net src token b blob :
  token <> "" ->
  imageCache b !! (src +:+ "|" +:+ token) = None ->
  net (length (requests b)) src ("Bearer " +:+ token) = Responded true (Some blob) ->
  mount net src (Some token) b
  = (mkBrowser (<[src +:+ "|" +:+ token := "blob:" +:+ pretty (length (objectUrls b))]>
                  (imageCache b))
               (requests b ++ [(src, "Bearer " +:+ token)])
               (objectUrls b ++ [blob]),
     "blob:" +:+ pretty (length (objectUrls b))).
Proof.
  intros Ht Hc Hn. unfold mount, loadEffect.
  rewrite (cacheKey_present _ _ Ht), (truthy_token _ Ht), key_truthy. cbn [negb andb].
  rewrite Hc. rewrite bool_decide_eq_false_2 by (intros [? ?]; discriminate).
  unfold fetch. cbn [from_option id]. rewrite Hn. reflexivity.
Qed.

(** A failed fetch falls back to the raw locator and caches nothing, so
    the next mount for the pair sends a request again. *)
Lemma mount_failed net src token b :
  token <> "" ->
  imageCache b !! (src +:+ "|" +:+ token) = None ->
  (net (length (requests b)) src ("Bearer " +:+ token) = Rejected
   \/ exists blob, net (length (requests b)) src ("Bearer " +:+ token)
                   = Responded false blob) ->
  mount net src (Some token) b
  = (mkBrowser (imageCache b) (requests b ++ [(src, "Bearer " +:+ token)]) (objectUrls b),
     src).
Proof.
  intros Ht Hc Hn. unfold mount, loadEffect.
  rewrite (cacheKey_present _ _ Ht), (truthy_token _ Ht), key_truthy. cbn [negb andb].
  rewrite Hc. rewrite bool_decide_eq_false_2 by (intros [? ?]; discriminate).
  unfold fetch. cbn [from_option id].
  destruct Hn as [-> | (blob & ->)]; reflexivity.
Qed.

(** C8, as the component has it.  With a credential present, the cache
    is keyed by locator and credential: a pair whose key holds a handle
    is answered with that handle and no request is sent; a first mount
    for a pair whose key is not yet cached and whose fetch succeeds,
    followed by a second mount for the same pair, yields the same object
    URL both times and sends exactly one request; and a fetch that fails
    is not cached, so each of the two mounts falls back to the raw
    locator and sends a request of its own. *)
Theorem C8_cache_idempotent net src token :
  token <> "" ->
  cacheKey src (Some token) = Some (src +:+ "|" +:+ token)
  /\ (forall b handle,
        imageCache b !! (src +:+ "|" +:+ token) = Some handle ->
        handle <> "" ->
        mount net src (Some token) b = (b, handle))
  /\ (forall b blob,
        imageCache b !! (src +:+ "|" +:+ token) = None ->
        net (length (requests b)) src ("Bearer " +:+ token) = Responded true (Some blob) ->
        let first := mount net src (Some token) b in
        let second := mount net src (Some token) first.1 in
        first.2 = second.2
        /\ first.2 = "blob:" +:+ pretty (length (objectUrls b))
        /\ imageCache first.1 !! (src +:+ "|" +:+ token) = Some first.2
        /\ requests first.1 = requests b ++ [(src, "Bearer " +:+ token)]
        /\ requests second.1 = requests b ++ [(src, "Bearer " +:+ token)])
  /\ (forall b,
        imageCache b !! (src +:+ "|" +:+ token) = None ->
        (forall n, net n src ("Bearer " +:+ token) = Rejected
                   \/ exists blob, net n src ("Bearer " +:+ token)
                                   = Responded false blob) ->
        let first := mount net src (Some token) b in
        let second := mount net src (Some token) first.1 in
        first.2 = src /\ second.2 = src
        /\ imageCache second.1 = imageCache b
        /\ requests second.1
           = requests b ++ [(src, "Bearer " +:+ token); (src, "Bearer " +:+ token)]).
Proof.
  intros Ht. split; [by apply cacheKey_present|]. split; [|split].
  - intros b handle Hc Hh. by apply mount_cached.
  - intros b blob Hc Hn first second. subst second first.
    rewrite (mount_fetched _ _ _ _ _ Ht Hc Hn). cbn [fst snd].
    rewrite (mount_cached net src token _ ("blob:" +:+ pretty (length (objectUrls b))) Ht).
    + cbn [fst snd imageCache requests].
      rewrite lookup_insert_eq. auto 10.
    + cbn [imageCache]. apply lookup_insert_eq.
    + discriminate.
  - intros b Hc Hnet first second. subst second first.
    rewrite (mount_failed net src token b Ht Hc (Hnet _)). cbn [fst snd].
    rewrite (mount_failed net src token _ Ht); [| exact Hc | apply Hnet].
    cbn [fst snd imageCache requests]. rewrite <- app_assoc. auto.
Qed.

End ImageCache.

(** ** Path resolution *)

Section PathResolve.
Import Js Path Props.

Lemma is_slash_true c : is_slash c = true <-> c = "/"%char.
Proof. apply Ascii.eqb_eq. Qed.

Lemma is_slash_false c : is_slash c = false <-> c <> "/"%char.
Proof. apply Ascii.eqb_neq. Qed.

Lemma to_of_chars l : to_chars (of_chars l) = l.
Proof. apply list_ascii_of_string_of_list_ascii. Qed.

Lemma of_to_chars s : of_chars (to_chars s) = s.
Proof. apply string_of_list_ascii_of_string. Qed.

Lemma to_chars_app a b : to_chars (a +:+ b) = to_chars a ++ to_chars b.
Proof. induction a as [|c a IH]; simpl; [reflexivity | by rewrite IH]. Qed.

Lemma starts_with_spec p l : starts_with p l = true <-> exists k, l = p ++ k.
Proof.
  revert l. induction p as [|a p IH]; intros l; simpl.
  - split; eauto.
  - destruct l as [|b l].
    + split; [discriminate | intros (k & Hk); discriminate].
    + rewrite andb_true_iff, IH. unfold ascii_eqb. rewrite Ascii.eqb_eq. split.
      * intros (-> & k & ->). eauto.
      * intros (k & [= -> ->]). eauto.
Qed.

Lemma split_sep_nonempty l : split_sep l <> [].
Proof.
  destruct l as [|c r]; simpl; [discriminate|].
  destruct (is_slash c); [discriminate|]. destruct (split_sep r); discriminate.
Qed.

Lemma split_sep_noSlash l : Forall noSlash (split_sep l).
Proof.
  induction l as [|c r IH]; simpl.
  - repeat constructor. unfold noSlash. apply not_elem_of_nil.
  - destruct (is_slash c) eqn:Hc.
    + constructor; [apply not_elem_of_nil | exact IH].
    + apply is_slash_false in Hc. destruct (split_sep r) as [|s ss].
      * repeat constructor. unfold noSlash. rewrite list_elem_of_singleton. congruence.
      * inversion IH; subst. constructor; [|assumption].
        unfold noSlash in *. rewrite elem_of_cons.
        intros [E|E]; [congruence | contradiction].
Qed.

Lemma split_sep_app_slash a b :
  split_sep (a ++ "/"%char :: b) = split_sep a ++ split_sep b.
Proof.
  induction a as [|c a IH]; simpl; [reflexivity|].
  destruct (is_slash c); [by rewrite IH|].
  rewrite IH. pose proof (split_sep_nonempty a).
  destruct (split_sep a); [contradiction | reflexivity].
Qed.

Lemma split_sep_noSlash_id s : noSlash s -> split_sep s = [s].
Proof.
  unfold noSlash. induction s as [|c s IH]; intros H; simpl; [reflexivity|].
  rewrite not_elem_of_cons in H. destruct H as [Hc Hs].
  assert (is_slash c = false) as -> by (apply is_slash_false; congruence).
  by rewrite (IH Hs).
Qed.

Lemma segments_app_slash a b :
  segments (a ++ "/"%char :: b) = segments a ++ segments b.
Proof. unfold segments. by rewrite split_sep_app_slash, filter_app. Qed.

Lemma segments_slash l : segments ("/"%char :: l) = segments l.
Proof. apply (segments_app_slash [] l). Qed.

Lemma segments_single s : s <> [] -> noSlash s -> segments s = [s].
Proof.
  intros Hne Hs. unfold segments. rewrite (split_sep_noSlash_id _ Hs).
  rewrite filter_cons_True by assumption. reflexivity.
Qed.

Lemma segments_join segs :
  Forall properSeg segs -> segments (join_sep segs) = segs.
Proof.
  induction 1 as [|s rest (Hne & Hs & _) Hrest IH]; [reflexivity|].
  destruct rest as [|s' rest'].
  - simpl. by apply segments_single.
  - change (join_sep (s :: s' :: rest')) with (s ++ "/"%char :: join_sep (s' :: rest')).
    rewrite segments_app_slash, IH, segments_single by assumption. reflexivity.
Qed.

Lemma norm_step_proper stack seg :
  Forall properSeg stack -> noSlash seg ->
  Forall properSeg (norm_step false stack seg).
Proof.
  intros Hst Hseg. unfold norm_step, chars_eqb.
  repeat case_bool_decide; try assumption.
  - destruct stack as [|top rest]; [constructor|].
    case_bool_decide; [assumption|]. by inversion Hst.
  - constructor; [|assumption]. repeat split; assumption.
Qed.

Lemma norm_fold_proper segs stack :
  Forall properSeg stack -> Forall noSlash segs ->
  Forall properSeg (fold_left (norm_step false) segs stack).
Proof.
  revert stack. induction segs as [|seg segs IH]; intros stack Hst Hsegs; simpl.
  - assumption.
  - inversion Hsegs; subst. apply IH; [by apply norm_step_proper | assumption].
Qed.

Lemma norm_segments_proper l : Forall properSeg (norm_segments false (split_sep l)).
Proof.
  unfold norm_segments. apply Forall_rev, norm_fold_proper;
    [constructor | apply split_sep_noSlash].
Qed.

Lemma resolve_loop_absolute c cwd' l acc :
  is_slash c = true ->
  exists rp, resolve_loop (l ++ [c :: cwd']) acc = (rp, true).
Proof.
  intros Hc. revert acc. induction l as [|p l IH]; intros acc; simpl.
  - rewrite Hc. eauto.
  - destruct p as [|d p']; [apply IH|].
    destruct (is_slash d); [eauto | apply IH].
Qed.

(** With an absolute working directory, [path.resolve] yields [/]
    followed by proper segments joined by [/]. *)
Lemma resolve_chars_canonical cwd args :
  starts_with ["/"%char] cwd = true ->
  exists segs, Forall properSeg segs
               /\ resolve_chars cwd args = "/"%char :: join_sep segs.
Proof.
  intros Habs. apply starts_with_spec in Habs as (cwd' & ->).
  change (["/"%char] ++ cwd') with ("/"%char :: cwd').
  destruct (resolve_loop_absolute "/"%char cwd' (rev args) [] eq_refl) as [rp Hrp].
  exists (norm_segments false (split_sep rp)). split; [apply norm_segments_proper|].
  unfold resolve_chars.
  destruct (resolve_loop _ _) as [rp' b] eqn:E.
  injection Hrp as -> ->. reflexivity.
Qed.

Lemma pathSegments_canonical segs :
  Forall properSeg segs ->
  pathSegments (of_chars ("/"%char :: join_sep segs)) = segs.
Proof.
  intros H. unfold pathSegments. by rewrite to_of_chars, segments_slash, segments_join.
Qed.

(** The string test of [resolveUploadsFilePath] implies containment
    segment by segment. *)
Lemma prefix_test_sound R A :
  Forall properSeg R -> Forall properSeg A ->
  starts_with (("/"%char :: join_sep R) ++ ["/"%char]) ("/"%char :: join_sep A) = true ->
  R `prefix_of` A.
Proof.
  intros HR HA Hsw. apply starts_with_spec in Hsw as (k & Hk).
  simpl in Hk. injection Hk as Hk. rewrite <- app_assoc in Hk. simpl in Hk.
  apply (f_equal segments) in Hk.
  rewrite segments_app_slash, !segments_join in Hk by assumption.
  exists (segments k). exact Hk.
Qed.

End PathResolve.

(** ** The upload root is never left *)

Section SecurePath.
Import Js Backend Props.

Lemma liesUnder_refl p : liesUnder p p.
Proof. unfold liesUnder. reflexivity. Qed.

Lemma resolve_canonical h args :
  startsWith (cwd h) "/" = true ->
  exists segs, Forall properSeg segs
               /\ Path.resolve (cwd h) args = of_chars ("/"%char :: Path.join_sep segs).
Proof.
  intros Habs.
  destruct (resolve_chars_canonical (to_chars (cwd h)) (map to_chars args) Habs)
    as (segs & Hsegs & Heq).
  exists segs. split; [assumption|]. unfold Path.resolve. by rewrite Heq.
Qed.

(** A path returned by [resolveUploadsFilePath] is the canonical form of
    the joined path, made of proper segments, and lies under the root. *)
Lemma resolveUploadsFilePath_sound h p abs :
  startsWith (cwd h) "/" = true ->
  resolveUploadsFilePath h p = Some abs ->
  abs = Path.resolve (cwd h) [getUploadsRootDir h; p]
  /\ liesUnder (rootResolved h) abs
  /\ Forall properSeg (pathSegments abs).
Proof.
  intros Habs. unfold resolveUploadsFilePath.
  destruct (_ && _) eqn:Hc; [discriminate|]. intros [= <-].
  split; [reflexivity|].
  destruct (resolve_canonical h [getUploadsRootDir h; p] Habs) as (A & HA & EA).
  destruct (resolve_canonical h [getUploadsRootDir h] Habs) as (R & HR & ER).
  unfold rootResolved, liesUnder. rewrite EA, ER in *.
  rewrite !pathSegments_canonical by assumption. split; [|assumption].
  apply andb_false_iff in Hc as [Hc | Hc]; apply negb_false_iff in Hc.
  - unfold startsWith in Hc. rewrite to_chars_app, !to_of_chars in Hc.
    by apply prefix_test_sound.
  - apply String.eqb_eq in Hc. apply (f_equal pathSegments) in Hc.
    rewrite !pathSegments_canonical in Hc by assumption. by rewrite Hc.
Qed.



(** [resolveUploadsFilePath] judges the resolved path, not the spelling:
    a name whose parent-directory segment stays inside the root is
    resolved.  Whether the route ever gives it such a name is decided by
    [normalizeUploadsPath]. *)
Example inner_parent_segment_resolved :
  hasParentSegment "a/../photo.jpg"
  /\ resolveUploadsFilePath Sample.host "a/../photo.jpg" = Some "/srv/uploads/photo.jpg".
Proof.
  split; [|vm_compute; reflexivity].
  unfold hasParentSegment. apply list_elem_of_In. vm_compute. auto.
Qed.

End SecurePath.

(** ** Extension and base name *)

Section LastComponent.
Import Js Path Props.

Variable p : chars.

Lemma component_exists : allSlashes p \/ exists s e, lastComponent p s e.
Proof.
  assert (Hscan : forall n, (n <= length p)%nat ->
            (forall j, (n <= j < length p)%nat -> is_slash (nth j p zero) = true) ->
            allSlashes p \/ exists s e, lastComponent p s e).
  { induction n as [|i IH]; intros Hn Htrail.
    - left. intros j Hj. apply Htrail. lia.
    - destruct (is_slash (nth i p zero)) eqn:Hi.
      + apply IH; [lia|]. intros j Hj.
        destruct (decide (j = i)) as [->|]; [assumption | apply Htrail; lia].
      + right.
        assert (Hstart : forall m, (m <= S i)%nat ->
                  (forall j, (m <= j < S i)%nat -> is_slash (nth j p zero) = false) ->
                  exists s, lastComponent p s (S i)).
        { induction m as [|k IHk]; intros Hm Hin.
          - exists 0%nat. unfold lastComponent.
            split; [lia|]. split; [intros j Hj; apply Hin; lia|].
            split; [intros j Hj; apply Htrail; lia | by left].
          - destruct (is_slash (nth k p zero)) eqn:Hk.
            + assert (k <> i) by (intros ->; congruence).
              exists (S k). unfold lastComponent.
              split; [lia|]. split; [intros j Hj; apply Hin; lia|].
              split; [intros j Hj; apply Htrail; lia|].
              right. replace (S k - 1)%nat with k by lia. assumption.
            + apply IHk; [lia|]. intros j Hj.
              destruct (decide (j = k)) as [->|]; [assumption | apply Hin; lia]. }
        destruct (Hstart (S i)) as [s Hs]; [lia | intros j Hj; lia |].
        * exists s, (S i). exact Hs. }
  apply (Hscan (length p)); [lia | intros j Hj; lia].
Qed.

Lemma nth_slice a b k :
  (a + k < b)%nat -> (b <= length p)%nat ->
  nth k (slice p (Z.of_nat a) (Z.of_nat b)) zero = nth (a + k) p zero.
Proof.
  intros Hk Hb. unfold slice.
  replace (Z.to_nat (Z.of_nat b - Z.of_nat a)) with (b - a)%nat by lia.
  rewrite Nat2Z.id.
  rewrite !nth_lookup, lookup_take_lt, lookup_drop by lia. reflexivity.
Qed.

Lemma length_slice a b :
  (a <= b <= length p)%nat -> length (slice p (Z.of_nat a) (Z.of_nat b)) = (b - a)%nat.
Proof.
  intros H. unfold slice. rewrite length_take, length_drop. lia.
Qed.

Lemma slice_noSlash a b lo hi :
  (forall j, (lo <= j < hi)%nat -> is_slash (nth j p zero) = false) ->
  (lo <= a)%nat -> (b <= hi)%nat ->
  noSlash (slice p (Z.of_nat a) (Z.of_nat b)).
Proof.
  intros Hin Ha Hb Hmem. unfold slice in Hmem.
  apply list_elem_of_lookup in Hmem as [k Hk].
  assert (Hlt : (k < Z.to_nat (Z.of_nat b - Z.of_nat a))%nat).
  { apply lookup_lt_Some in Hk. rewrite length_take in Hk. lia. }
  rewrite lookup_take_lt, lookup_drop in Hk by assumption.
  rewrite Nat2Z.id in Hk.
  specialize (Hin (a + k)%nat). rewrite nth_lookup, Hk in Hin. simpl in Hin.
  assert (is_slash "/" = false) by (apply Hin; lia). discriminate.
Qed.

End LastComponent.

Section Scans.
Import Js Path Props.

Variable p : chars.

Ltac case_eqb :=
  repeat match goal with
         | |- context [Z.eqb ?a ?b] => destruct (Z.eqb_spec a b)
         | |- context [Z.leb ?a ?b] => destruct (Z.leb_spec a b)
         end.

(** Trailing separators leave the scans in their initial state. *)
Lemma extname_loop_skip e n st :
  (e <= n)%nat ->
  (forall j, (e <= j < n)%nat -> is_slash (nth j p zero) = true) ->
  ext_matchedSlash st = true ->
  extname_loop p n st = extname_loop p e st.
Proof.
  intros Hen Htrail Hm. induction n as [|i IH].
  - assert (e = 0%nat) as -> by lia. reflexivity.
  - destruct (decide (e = S i)) as [->|Hne]; [reflexivity|].
    simpl. rewrite (Htrail i) by lia. rewrite Hm. simpl.
    apply IH; [lia|]. intros j Hj. apply Htrail. lia.
Qed.

Lemma basename_plain_loop_skip e n st :
  (e <= n)%nat ->
  (forall j, (e <= j < n)%nat -> is_slash (nth j p zero) = true) ->
  b_matchedSlash st = true ->
  basename_plain_loop p n st = basename_plain_loop p e st.
Proof.
  intros Hen Htrail Hm. induction n as [|i IH].
  - assert (e = 0%nat) as -> by lia. reflexivity.
  - destruct (decide (e = S i)) as [->|Hne]; [reflexivity|].
    simpl. rewrite (Htrail i) by lia. rewrite Hm. simpl.
    apply IH; [lia|]. intros j Hj. apply Htrail. lia.
Qed.

Lemma basename_suffix_loop_skip sfx e n st :
  (e <= n)%nat ->
  (forall j, (e <= j < n)%nat -> is_slash (nth j p zero) = true) ->
  b_matchedSlash st = true ->
  basename_suffix_loop p sfx n st = basename_suffix_loop p sfx e st.
Proof.
  intros Hen Htrail Hm. induction n as [|i IH].
  - assert (e = 0%nat) as -> by lia. reflexivity.
  - destruct (decide (e = S i)) as [->|Hne]; [reflexivity|].
    simpl. rewrite (Htrail i) by lia. rewrite Hm. simpl.
    apply IH; [lia|]. intros j Hj. apply Htrail. lia.
Qed.

Variables s e : nat.
Hypothesis Hcomp : lastComponent p s e.

Lemma component_slash_before i : S i = s -> is_slash (nth i p zero) = true.
Proof.
  intros Hi. destruct Hcomp as (_ & _ & _ & [H0 | Hs]); [lia|].
  replace (s - 1)%nat with i in Hs by lia. exact Hs.
Qed.

Lemma component_inside i : (s <= i < e)%nat -> is_slash (nth i p zero) = false.
Proof. destruct Hcomp as (_ & Hin & _). apply Hin. Qed.

(** The scan of [extname] over the last component. *)
Lemma extname_loop_component n st :
  (s <= n <= e)%nat ->
  (n = e /\ st = ext_init)
  \/ ((n < e)%nat /\ ext_matchedSlash st = false /\ ext_end st = Z.of_nat e
      /\ (startDot st = -1 \/ Z.of_nat n <= startDot st < Z.of_nat e)) ->
  ext_end (extname_loop p n st) = Z.of_nat e
  /\ (startDot (extname_loop p n st) = -1
      \/ Z.of_nat s <= startDot (extname_loop p n st) < Z.of_nat e).
Proof.
  destruct Hcomp as (Hse & _).
  revert st. induction n as [|i IH]; intros st Hn Hinv.
  - simpl. destruct Hinv as [[He0 _] | (_ & _ & He & Hd)]; [lia|].
    split; [assumption | lia].
  - simpl. destruct (decide (S i = s)) as [Hs | Hs].
    + rewrite (component_slash_before i Hs).
      destruct Hinv as [[He0 _] | (_ & Hm & He & Hd)]; [lia|].
      rewrite Hm. simpl. split; [assumption | lia].
    + rewrite (component_inside i) by lia.
      apply IH; [lia|]. right. split; [lia|].
      destruct Hinv as [[He ->] | (_ & Hm & He & Hd)].
      * unfold ext_see_char, ext_see_dot, ext_see_other. simpl.
        destruct (is_dot (nth i p zero)); simpl; repeat split; lia.
      * destruct st as [sd sp en ms pd]. simpl in *. subst ms en.
        unfold ext_see_char, ext_see_dot, ext_see_other. simpl.
        destruct (is_dot (nth i p zero)); case_eqb; simpl; repeat split; lia.
Qed.

(** The scan of [basename] without suffix over the last component. *)
Lemma basename_plain_loop_component n st :
  (s <= n <= e)%nat ->
  (n = e /\ st = base_init [])
  \/ ((n < e)%nat /\ st = mkBase 0 (Z.of_nat e) false (-1) (-1)) ->
  basename_plain_loop p n st = mkBase (Z.of_nat s) (Z.of_nat e) false (-1) (-1).
Proof.
  destruct Hcomp as (Hse & _).
  revert st. induction n as [|i IH]; intros st Hn Hinv.
  - simpl. destruct Hinv as [[He0 _] | (_ & ->)]; [lia|].
    f_equal. lia.
  - simpl. destruct (decide (S i = s)) as [Hs | Hs].
    + rewrite (component_slash_before i Hs).
      destruct Hinv as [[He0 _] | (_ & ->)]; [lia|].
      simpl. f_equal. lia.
    + rewrite (component_inside i) by lia.
      destruct Hinv as [[He0 ->] | (Hlt & ->)]; simpl.
      * apply IH; [lia|]. right. split; [lia|]. f_equal. lia.
      * destruct (Z.eqb_spec (Z.of_nat e) (-1)); [lia|].
        apply IH; [lia|]. right. split; [lia | reflexivity].
Qed.

(** The scan of [basename] with a suffix that is the tail of the last
    component from position [sd] on. *)
Lemma basename_suffix_loop_component sd n st :
  (s <= sd < e)%nat ->
  (s <= n <= e)%nat ->
  (n = e /\ st = base_init (slice p (Z.of_nat sd) (Z.of_nat e)))
  \/ ((n < e)%nat
      /\ st = mkBase 0 (if Z.of_nat n <=? Z.of_nat sd then Z.of_nat sd else -1) false
                     (Z.max (Z.of_nat n - Z.of_nat sd - 1) (-1)) (Z.of_nat e)) ->
  basename_suffix_loop p (slice p (Z.of_nat sd) (Z.of_nat e)) n st
  = mkBase (Z.of_nat s) (Z.of_nat sd) false (-1) (Z.of_nat e).
Proof.
  intros Hsd. destruct Hcomp as (Hse & _).
  assert (Hlen : length (slice p (Z.of_nat sd) (Z.of_nat e)) = (e - sd)%nat)
    by (apply length_slice; lia).
  revert st. induction n as [|i IH]; intros st Hn Hinv.
  - simpl. destruct Hinv as [[He0 _] | (_ & ->)]; [lia|].
    case_eqb; try lia. f_equal; lia.
  - simpl. destruct (decide (S i = s)) as [Hs | Hs].
    + rewrite (component_slash_before i Hs).
      destruct Hinv as [[He0 _] | (_ & ->)]; [lia|].
      simpl. case_eqb; try lia. f_equal; lia.
    + rewrite (component_inside i) by lia.
      destruct Hinv as [[He0 ->] | (Hlt & ->)].
      * unfold base_init. rewrite Hlen. simpl.
        destruct (Z.leb_spec 0 (Z.of_nat (e - sd) - 1)); [|lia].
        replace (Z.to_nat (Z.of_nat (e - sd) - 1)) with (e - sd - 1)%nat by lia.
        rewrite nth_slice by lia.
        replace (sd + (e - sd - 1))%nat with i by lia.
        unfold ascii_eqb. rewrite Ascii.eqb_refl.
        apply IH; [lia|]. right. split; [lia|].
        case_eqb; f_equal; lia.
      * cbn [extIdx b_start b_end b_matchedSlash firstNonSlashEnd].
        destruct (Z.eqb_spec (Z.of_nat e) (-1)); [lia|].
        cbn [extIdx b_start b_end b_matchedSlash firstNonSlashEnd].
        destruct (Z.leb_spec 0 (Z.max (Z.of_nat (S i) - Z.of_nat sd - 1) (-1))).
        -- replace (Z.to_nat (Z.max (Z.of_nat (S i) - Z.of_nat sd - 1) (-1)))
             with (i - sd)%nat by lia.
           rewrite nth_slice by lia.
           replace (sd + (i - sd))%nat with i by lia.
           unfold ascii_eqb. rewrite Ascii.eqb_refl.
           apply IH; [lia|]. right. split; [lia|].
           case_eqb; f_equal; lia.
        -- apply IH; [lia|]. right. split; [lia|].
           case_eqb; f_equal; lia.
Qed.

End Scans.

Section PathNames.
Import Js Path Props.

Variable p : chars.

Lemma noSlash_nil : noSlash [].
Proof. unfold noSlash. apply not_elem_of_nil. Qed.

Lemma allSlashes_trailing :
  allSlashes p ->
  forall j, (0 <= j < length p)%nat -> is_slash (nth j p zero) = true.
Proof. intros H j Hj. apply H. lia. Qed.

Lemma extname_chars_allSlashes : allSlashes p -> extname_chars p = [].
Proof.
  intros H. unfold extname_chars.
  rewrite (extname_loop_skip p 0 (length p) ext_init);
    [reflexivity | lia | by apply allSlashes_trailing | reflexivity].
Qed.

Lemma basename_plain_allSlashes :
  allSlashes p -> basename_chars p None = [] /\ basename_chars p (@Some chars []) = [].
Proof.
  intros H. unfold basename_chars. simpl.
  rewrite (basename_plain_loop_skip p 0 (length p) (base_init []));
    [split; reflexivity | lia | by apply allSlashes_trailing | reflexivity].
Qed.

Variables s e : nat.
Hypothesis Hcomp : lastComponent p s e.

Lemma component_trailing :
  forall j, (e <= j < length p)%nat -> is_slash (nth j p zero) = true.
Proof. destruct Hcomp as (_ & _ & H & _). exact H. Qed.

Lemma component_bounds : (s < e <= length p)%nat.
Proof. by destruct Hcomp. Qed.

(** The extension is empty or a tail of the last component. *)
Lemma extname_chars_component :
  extname_chars p = []
  \/ exists sd, (s <= sd < e)%nat
                /\ extname_chars p = slice p (Z.of_nat sd) (Z.of_nat e).
Proof.
  pose proof component_bounds as Hb.
  unfold extname_chars.
  rewrite (extname_loop_skip p e (length p) ext_init);
    [| lia | apply component_trailing | reflexivity].
  destruct (extname_loop_component p s e Hcomp e ext_init) as (He & Hd);
    [lia | by left |].
  destruct (_ || _) eqn:Hcond; [by left | right].
  rewrite !orb_false_iff in Hcond. destruct Hcond as (((Hsd & _) & _) & _).
  apply Z.eqb_neq in Hsd. destruct Hd as [Hd | Hd]; [contradiction|].
  exists (Z.to_nat (startDot (extname_loop p e ext_init))).
  split; [lia|]. rewrite Z2Nat.id by lia. by rewrite He.
Qed.

(** Without a suffix the base name is the last component. *)
Lemma basename_plain_component :
  basename_chars p None = slice p (Z.of_nat s) (Z.of_nat e)
  /\ basename_chars p (@Some chars []) = slice p (Z.of_nat s) (Z.of_nat e).
Proof.
  pose proof component_bounds as Hb.
  unfold basename_chars. simpl.
  rewrite (basename_plain_loop_skip p e (length p) (base_init []));
    [| lia | apply component_trailing | reflexivity].
  rewrite (basename_plain_loop_component p s e Hcomp e (base_init [])); [| lia | by left].
  simpl. destruct (Z.eqb_spec (Z.of_nat e) (-1)); [lia|]. by split.
Qed.

(** With the tail from [sd] as suffix, the base name is a part of the
    last component. *)
Lemma basename_suffix_component sd :
  (s <= sd < e)%nat ->
  exists b, (b <= e)%nat
            /\ (basename_chars p (Some (slice p (Z.of_nat sd) (Z.of_nat e))) = []
                \/ basename_chars p (Some (slice p (Z.of_nat sd) (Z.of_nat e)))
                   = slice p (Z.of_nat s) (Z.of_nat b)).
Proof.
  intros Hsd. pose proof component_bounds as Hb.
  unfold basename_chars. rewrite (length_slice p sd e) by lia.
  destruct (Z.ltb_spec 0 (Z.of_nat (e - sd))); [|lia].
  destruct (Z.leb_spec (Z.of_nat (e - sd)) (Z.of_nat (length p))); [|lia].
  simpl andb. cbv iota.
  destruct (chars_eqb _ p); [exists e; split; [lia | by left]|].
  rewrite (basename_suffix_loop_skip p _ e (length p));
    [| lia | apply component_trailing | reflexivity].
  rewrite (basename_suffix_loop_component p s e Hcomp sd e); [| lia | lia | by left].
  cbn [b_start b_end firstNonSlashEnd].
  destruct (Z.eqb_spec (Z.of_nat s) (Z.of_nat sd)).
  - exists e. split; [lia | by right].
  - destruct (Z.eqb_spec (Z.of_nat sd) (-1)); [lia|].
    exists sd. split; [lia | by right].
Qed.

End PathNames.

Section NoSeparator.
Import Js Path Props.

Lemma extname_noSlash p : noSlash (extname_chars p).
Proof.
  destruct (component_exists p) as [Hall | (s & e & Hc)].
  - rewrite extname_chars_allSlashes by assumption. apply noSlash_nil.
  - destruct (extname_chars_component p s e Hc) as [-> | (sd & Hsd & ->)];
      [apply noSlash_nil|].
    destruct Hc as (Hb & Hin & _).
    apply (slice_noSlash p sd e s e); [exact Hin | lia | lia].
Qed.

Lemma basename_extname_noSlash p :
  noSlash (basename_chars p (Some (extname_chars p))).
Proof.
  destruct (component_exists p) as [Hall | (s & e & Hc)].
  - rewrite extname_chars_allSlashes by assumption.
    destruct (basename_plain_allSlashes p Hall) as [_ ->]. apply noSlash_nil.
  - pose proof Hc as (Hb & Hin & _).
    destruct (extname_chars_component p s e Hc) as [-> | (sd & Hsd & ->)].
    + destruct (basename_plain_component p s e Hc) as [_ ->].
      apply (slice_noSlash p s e s e); [exact Hin | lia | lia].
    + destruct (basename_suffix_component p s e Hc sd Hsd) as (b & Hbe & [-> | ->]);
        [apply noSlash_nil|].
      apply (slice_noSlash p s b s e); [exact Hin | lia | lia].
Qed.

Lemma noSlash_app a b : noSlash a -> noSlash b -> noSlash (a ++ b).
Proof. unfold noSlash. rewrite elem_of_app. tauto. Qed.

End NoSeparator.

(** ** A single name below the root *)

Section ResolveChild.
Import Js Path Props.

Lemma resolve_loop_acc l acc :
  resolve_loop l acc = ((resolve_loop l []).1 ++ acc, (resolve_loop l []).2).
Proof.
  revert acc. induction l as [|q l IH]; intros acc; simpl; [reflexivity|].
  destruct q as [|c q']; [apply IH|].
  destruct (is_slash c); simpl.
  - by rewrite <- app_assoc.
  - rewrite IH. rewrite (IH (c :: q' ++ ["/"%char])). simpl.
    f_equal. rewrite <- app_assoc. simpl. by rewrite <- app_assoc.
Qed.

Lemma resolve_loop_ends_slash l acc rp :
  resolve_loop l acc = (rp, true) -> exists x, rp = x ++ "/"%char :: acc.
Proof.
  revert acc. induction l as [|q l IH]; intros acc; simpl; [discriminate|].
  destruct q as [|c q']; [apply IH|].
  destruct (is_slash c).
  - intros [= <-]. by exists (c :: q').
  - intros H. apply IH in H as (x & ->). exists (x ++ "/"%char :: c :: q').
    by rewrite <- app_assoc.
Qed.

Lemma norm_fold_app b l1 l2 stack :
  fold_left (norm_step b) (l1 ++ l2) stack
  = fold_left (norm_step b) l2 (fold_left (norm_step b) l1 stack).
Proof. apply fold_left_app. Qed.

Lemma norm_step_push stack r :
  properSeg r -> norm_step false stack r = r :: stack.
Proof.
  intros (Hne & _ & Hd & Hdd). unfold norm_step, chars_eqb.
  repeat case_bool_decide; try contradiction. reflexivity.
Qed.

Lemma resolve_loop_child (cwd root r x : chars) :
  properSeg r ->
  resolve_loop (rev [root] ++ [cwd]) [] = (x ++ ["/"%char], true) ->
  resolve_loop (rev [root; r] ++ [cwd]) [] = (x ++ "/"%char :: r ++ ["/"%char], true).
Proof.
  intros (Hne & Hs & _) H0.
  destruct r as [|c r'] eqn:Er; [contradiction|]. rewrite <- Er in *.
  assert (Hc : is_slash c = false).
  { apply is_slash_false. intros ->. apply Hs. rewrite Er. apply list_elem_of_here. }
  change (rev [root; r] ++ [cwd]) with (r :: (rev [root] ++ [cwd])).
  assert (Hstep : resolve_loop (r :: (rev [root] ++ [cwd])) []
                  = resolve_loop (rev [root] ++ [cwd]) (r ++ ["/"%char])).
  { rewrite Er. simpl. by rewrite Hc. }
  rewrite Hstep, resolve_loop_acc, H0. cbn [fst snd].
  by rewrite <- app_assoc.
Qed.

(** Resolving a proper single name against the root appends it to the
    root's segments. *)
Lemma resolve_child (cwd root r : chars) :
  starts_with ["/"%char] cwd = true ->
  properSeg r ->
  exists N, Forall properSeg N
            /\ resolve_chars cwd [root] = "/"%char :: join_sep N
            /\ resolve_chars cwd [root; r] = "/"%char :: join_sep (N ++ [r]).
Proof.
  intros Habs Hr. apply starts_with_spec in Habs as (cwd' & ->).
  destruct (resolve_loop_absolute "/"%char cwd' (rev [root]) [] eq_refl) as [rp0 Hrp0].
  destruct (resolve_loop_ends_slash _ _ _ Hrp0) as (x & ->).
  exists (norm_segments false (split_sep x)).
  split; [apply norm_segments_proper|].
  assert (H0 : resolve_loop (rev [root] ++ [["/"%char] ++ cwd']) []
               = (x ++ ["/"%char], true)) by exact Hrp0.
  clear Hrp0.
  split.
  - unfold resolve_chars. rewrite H0.
    unfold normalizeString, norm_segments. rewrite split_sep_app_slash, norm_fold_app.
    reflexivity.
  - unfold resolve_chars. rewrite (resolve_loop_child _ _ _ _ Hr H0).
    cbn [negb]. unfold normalizeString, norm_segments.
    rewrite split_sep_app_slash, split_sep_app_slash.
    rewrite (split_sep_noSlash_id r) by (by destruct Hr as (_ & ? & _)).
    rewrite !norm_fold_app. cbn [fold_left split_sep].
    rewrite (norm_step_push _ r) by assumption.
    change (norm_step false ?st []) with st.
    simpl rev. reflexivity.
Qed.

End ResolveChild.

(** ** A directory in front of the name *)

Section DirectoryPrefix.
Import Js Path Props.

Variables pre base : chars.
Hypothesis Hsep : exists d, pre = d ++ ["/"%char].
Hypothesis Hbase : noSlash base.

Lemma prefix_nth_base i :
  (i < length base)%nat -> nth (length pre + i) (pre ++ base) zero = nth i base zero.
Proof. intros _. apply app_nth2_plus. Qed.

Lemma prefix_nth_sep :
  exists j, length pre = S j /\ is_slash (nth j (pre ++ base) zero) = true.
Proof.
  destruct Hsep as (d & ->). exists (length d). split.
  - rewrite length_app. simpl. lia.
  - rewrite <- app_assoc. change (["/"%char] ++ base) with ("/"%char :: base).
    rewrite nth_middle. reflexivity.
Qed.

Lemma base_nonslash i : (i < length base)%nat -> is_slash (nth i base zero) = false.
Proof.
  intros Hi. apply is_slash_false. intros E. apply Hbase. rewrite <- E.
  apply list_elem_of_In, nth_In. exact Hi.
Qed.

Lemma slice_prefix a b :
  0 <= a ->
  slice (pre ++ base) (a + Z.of_nat (length pre)) (b + Z.of_nat (length pre))
  = slice base a b.
Proof.
  intros Ha. unfold slice.
  replace (b + Z.of_nat (length pre) - (a + Z.of_nat (length pre))) with (b - a) by lia.
  replace (Z.to_nat (a + Z.of_nat (length pre))) with (length pre + Z.to_nat a)%nat by lia.
  rewrite drop_app_ge by lia.
  replace (length pre + Z.to_nat a - length pre)%nat with (Z.to_nat a) by lia.
  reflexivity.
Qed.

Ltac split_eqb :=
  repeat match goal with
         | |- context [Z.eqb ?a ?b] => destruct (Z.eqb_spec a b)
         | |- context [Z.leb ?a ?b] => destruct (Z.leb_spec a b)
         | |- context [Z.ltb ?a ?b] => destruct (Z.ltb_spec a b)
         end.

(** The scan of [extname] over [pre ++ base] goes through the same states
    as over [base], with indices moved by the length of [pre], and stops
    at the separator that ends [pre]. *)
Lemma extname_loop_prefix n sd en ms pd :
  (n <= length base)%nat ->
  (en = -1 /\ ms = true /\ sd = -1 /\ pd = 0 /\ (1 <= n)%nat)
  \/ (0 <= en /\ ms = false /\ (sd = -1 \/ Z.of_nat n <= sd)
      /\ (sd = -1 -> pd = 0) /\ (sd = Z.of_nat n -> pd = 0)) ->
  exists sd' en' pd',
    extname_loop base n (mkExt sd 0 en ms pd) = mkExt sd' 0 en' false pd'
    /\ extname_loop (pre ++ base) (length pre + n)
         (mkExt (shiftIndex (Z.of_nat (length pre)) sd) 0
                (shiftIndex (Z.of_nat (length pre)) en) ms pd)
       = mkExt (shiftIndex (Z.of_nat (length pre)) sd') (Z.of_nat (length pre))
               (en' + Z.of_nat (length pre)) false pd'
    /\ 0 <= en' /\ (sd' = -1 \/ 0 <= sd') /\ (sd' = -1 -> pd' = 0) /\ (sd' = 0 -> pd' = 0).
Proof.
  destruct prefix_nth_sep as (j & Hj & Hslash).
  revert sd en ms pd. induction n as [|i IH]; intros sd en ms pd Hn Hinv.
  - destruct Hinv as [(_ & _ & _ & _ & H1) | (Hen & -> & Hsd & Hp1 & Hp2)]; [lia|].
    exists sd, en, pd. split; [reflexivity|]. split.
    + rewrite Nat.add_0_r, Hj. cbn [extname_loop]. rewrite Hslash.
      cbn [ext_matchedSlash negb startDot ext_end preDotState].
      replace (Z.of_nat j + 1) with (Z.of_nat (S j)) by lia.
      unfold shiftIndex. destruct (Z.eqb_spec en (-1)); [lia | reflexivity].
    + repeat split; auto; lia.
  - assert (Hc : is_slash (nth i base zero) = false) by (apply base_nonslash; lia).
    replace (length pre + S i)%nat with (S (length pre + i)) by lia.
    cbn [extname_loop]. rewrite prefix_nth_base by lia. rewrite Hc.
    unfold ext_see_char, ext_see_dot, ext_see_other, shiftIndex in *.
    cbn [startDot startPart ext_end ext_matchedSlash preDotState].
    destruct Hinv as [(-> & -> & -> & -> & H1) | (Hen & -> & Hsd & Hp1 & Hp2)].
    + simpl Z.eqb. cbv iota. cbn [startDot startPart ext_end ext_matchedSlash preDotState].
      simpl Z.eqb. cbv iota. simpl negb. cbv iota.
      destruct (is_dot (nth i base zero)).
      * destruct (IH (Z.of_nat i) (Z.of_nat i + 1) false 0) as (sd' & en' & pd' & E1 & E2 & R);
          [lia | right; repeat split; auto; lia |].
        exists sd', en', pd'. split; [exact E1|]. split; [|exact R].
        rewrite <- E2. f_equal. unfold shiftIndex. split_eqb; try lia. f_equal; lia.
      * destruct (IH (-1) (Z.of_nat i + 1) false 0) as (sd' & en' & pd' & E1 & E2 & R);
          [lia | right; repeat split; auto; lia |].
        exists sd', en', pd'. split; [exact E1|]. split; [|exact R].
        rewrite <- E2. f_equal. unfold shiftIndex. split_eqb; try lia. f_equal; lia.
    + destruct (Z.eqb_spec en (-1)); [lia|].
      destruct (Z.eqb_spec (en + Z.of_nat (length pre)) (-1)); [lia|].
      cbn [startDot startPart ext_end ext_matchedSlash preDotState].
      destruct (is_dot (nth i base zero)).
      * destruct (Z.eqb_spec sd (-1)) as [-> | Hne].
        -- simpl Z.eqb. cbv iota.
           destruct (IH (Z.of_nat i) en false pd) as (sd' & en' & pd' & E1 & E2 & R);
             [lia | right; repeat split; auto; lia |].
           exists sd', en', pd'. split; [exact E1|]. split; [|exact R].
           rewrite <- E2. f_equal. unfold shiftIndex. split_eqb; try lia. f_equal; lia.
        -- destruct (Z.eqb_spec (sd + Z.of_nat (length pre)) (-1)); [lia|].
           destruct (Z.eqb_spec pd 1) as [-> | Hpd]; simpl negb; cbv iota.
           ++ destruct (IH sd en false 1) as (sd' & en' & pd' & E1 & E2 & R);
                [lia | right; repeat split; auto; lia |].
              exists sd', en', pd'. split; [exact E1|]. split; [|exact R].
              rewrite <- E2. f_equal. unfold shiftIndex. split_eqb; try lia. f_equal; lia.
           ++ destruct (IH sd en false 1) as (sd' & en' & pd' & E1 & E2 & R);
                [lia | right; repeat split; auto; lia |].
              exists sd', en', pd'. split; [exact E1|]. split; [|exact R].
              rewrite <- E2. f_equal. unfold shiftIndex. split_eqb; try lia. f_equal; lia.
      * destruct (Z.eqb_spec sd (-1)) as [-> | Hne]; simpl negb; cbv iota.
        -- simpl Z.eqb. cbv iota. simpl negb. cbv iota.
           destruct (IH (-1) en false pd) as (sd' & en' & pd' & E1 & E2 & R);
             [lia | right; repeat split; auto; lia |].
           exists sd', en', pd'. split; [exact E1|]. split; [|exact R].
           rewrite <- E2. f_equal. unfold shiftIndex. split_eqb; try lia. f_equal; lia.
        -- destruct (Z.eqb_spec (sd + Z.of_nat (length pre)) (-1)); [lia|].
           simpl negb. cbv iota.
           destruct (IH sd en false (-1)) as (sd' & en' & pd' & E1 & E2 & R);
             [lia | right; repeat split; auto; lia |].
           exists sd', en', pd'. split; [exact E1|]. split; [|exact R].
           rewrite <- E2. f_equal. unfold shiftIndex. split_eqb; try lia. f_equal; lia.
Qed.

Lemma prefix_length : length (pre ++ base) = (length pre + length base)%nat.
Proof. apply length_app. Qed.

(** The extension of [pre ++ base] is that of [base], and it is shorter
    than [base]. *)
Lemma extname_prefix :
  base <> [] ->
  extname_chars (pre ++ base) = extname_chars base
  /\ (extname_chars base = [] \/ (length (extname_chars base) < length base)%nat).
Proof.
  intros Hne.
  assert (Hlen : (1 <= length base)%nat) by (destruct base; [contradiction | simpl; lia]).
  destruct (extname_loop_prefix (length base) (-1) (-1) true 0)
    as (sd' & en' & pd' & E1 & E2 & Hen & Hsd & Hp1 & Hp2);
    [lia | left; repeat split; auto |].
  change (mkExt (shiftIndex (Z.of_nat (length pre)) (-1)) 0
                (shiftIndex (Z.of_nat (length pre)) (-1)) true 0)
    with ext_init in E2.
  change (mkExt (-1) 0 (-1) true 0) with ext_init in E1.
  unfold extname_chars. rewrite prefix_length, E1, E2.
  cbn [startDot startPart ext_end preDotState]. unfold shiftIndex.
  destruct (Z.eqb_spec sd' (-1)) as [-> | Hsd']; [split; [reflexivity | by left]|].
  destruct (Z.eqb_spec (sd' + Z.of_nat (length pre)) (-1)); [lia|].
  destruct (Z.eqb_spec en' (-1)); [lia|].
  destruct (Z.eqb_spec (en' + Z.of_nat (length pre)) (-1)); [lia|].
  destruct (Z.eqb_spec pd' 0) as [-> | Hpd]; [split; [reflexivity | by left]|].
  assert (1 <= sd') by (destruct (Z.eq_dec sd' 0) as [E0|]; [specialize (Hp2 E0) |]; lia).
  cbn [orb].
  replace (sd' + Z.of_nat (length pre) =? en' + Z.of_nat (length pre) - 1)
    with (sd' =? en' - 1) by (split_eqb; lia).
  replace (sd' + Z.of_nat (length pre) =? Z.of_nat (length pre) + 1)
    with (sd' =? 0 + 1) by (split_eqb; lia).
  destruct (_ && _); [split; [reflexivity | by left]|].
  split; [apply slice_prefix; lia|]. right.
  unfold slice. rewrite length_take, length_drop. lia.
Qed.

(** The scan of [basename] with a suffix over [pre ++ base]. *)
Lemma basename_suffix_loop_prefix sfx n be ms ei fn :
  (n <= length base)%nat ->
  (fn = -1 /\ ms = true /\ be = -1 /\ (1 <= n)%nat)
  \/ (0 <= fn /\ ms = false /\ -1 <= be) ->
  exists be' ei' fn',
    basename_suffix_loop base sfx n (mkBase 0 be ms ei fn) = mkBase 0 be' false ei' fn'
    /\ basename_suffix_loop (pre ++ base) sfx (length pre + n)
         (mkBase 0 (shiftIndex (Z.of_nat (length pre)) be) ms ei
                 (shiftIndex (Z.of_nat (length pre)) fn))
       = mkBase (Z.of_nat (length pre)) (shiftIndex (Z.of_nat (length pre)) be') false ei'
                (fn' + Z.of_nat (length pre))
    /\ 0 <= fn' /\ -1 <= be'.
Proof.
  destruct prefix_nth_sep as (j & Hj & Hslash).
  revert be ms ei fn. induction n as [|i IH]; intros be ms ei fn Hn Hinv.
  - destruct Hinv as [(_ & _ & _ & H1) | (Hfn & -> & Hbe)]; [lia|].
    exists be, ei, fn. split; [reflexivity|]. split; [|split; assumption].
    rewrite Nat.add_0_r, Hj. cbn [basename_suffix_loop]. rewrite Hslash.
    cbn [b_matchedSlash negb b_end extIdx firstNonSlashEnd].
    replace (Z.of_nat j + 1) with (Z.of_nat (S j)) by lia.
    unfold shiftIndex at 2. destruct (Z.eqb_spec fn (-1)); [lia | reflexivity].
  - assert (Hc : is_slash (nth i base zero) = false) by (apply base_nonslash; lia).
    replace (length pre + S i)%nat with (S (length pre + i)) by lia.
    cbn [basename_suffix_loop]. rewrite prefix_nth_base by lia. rewrite Hc.
    cbn [b_start b_end b_matchedSlash extIdx firstNonSlashEnd].
    assert (Hstep : forall be1 ei1 fn1 be1p fn1p,
               0 <= fn1 -> -1 <= be1 ->
               be1p = shiftIndex (Z.of_nat (length pre)) be1 ->
               fn1p = shiftIndex (Z.of_nat (length pre)) fn1 ->
               exists be' ei' fn',
                 basename_suffix_loop base sfx i (mkBase 0 be1 false ei1 fn1)
                 = mkBase 0 be' false ei' fn'
                 /\ basename_suffix_loop (pre ++ base) sfx (length pre + i)
                      (mkBase 0 be1p false ei1 fn1p)
                    = mkBase (Z.of_nat (length pre))
                             (shiftIndex (Z.of_nat (length pre)) be') false ei'
                             (fn' + Z.of_nat (length pre))
                 /\ 0 <= fn' /\ -1 <= be').
    { intros be1 ei1 fn1 be1p fn1p H1 H2 -> ->. apply IH; [lia | right; auto]. }
    assert (Hi : shiftIndex (Z.of_nat (length pre)) (Z.of_nat i)
                 = Z.of_nat (length pre + i)) by (unfold shiftIndex; split_eqb; lia).
    assert (Hi1 : shiftIndex (Z.of_nat (length pre)) (Z.of_nat i + 1)
                  = Z.of_nat (length pre + i) + 1) by (unfold shiftIndex; split_eqb; lia).
    destruct Hinv as [(-> & -> & -> & H1) | (Hfn & -> & Hbe)].
    + change (shiftIndex (Z.of_nat (length pre)) (-1)) with (-1).
      simpl Z.eqb. cbv iota.
      cbn [b_start b_end b_matchedSlash extIdx firstNonSlashEnd].
      destruct (Z.leb_spec 0 ei); [|apply Hstep; auto; lia].
      destruct (ascii_eqb _ _).
      * destruct (Z.eqb_spec (ei - 1) (-1)); apply Hstep; auto; lia.
      * apply Hstep; auto; lia.
    + assert (Hs : (shiftIndex (Z.of_nat (length pre)) fn =? -1) = false).
      { unfold shiftIndex. destruct (Z.eqb_spec fn (-1)); [lia|]. apply Z.eqb_neq. lia. }
      rewrite Hs. destruct (Z.eqb_spec fn (-1)); [lia|].
      cbn [b_start b_end b_matchedSlash extIdx firstNonSlashEnd].
      destruct (Z.leb_spec 0 ei); [|apply Hstep; auto; lia].
      destruct (ascii_eqb _ _).
      * destruct (Z.eqb_spec (ei - 1) (-1)); apply Hstep; auto; lia.
      * apply Hstep; auto; lia.
Qed.

(** The scan of [basename] without suffix over [pre ++ base]. *)
Lemma basename_plain_loop_prefix n be ms ei fn :
  (n <= length base)%nat ->
  (be = -1 /\ ms = true /\ (1 <= n)%nat) \/ (0 <= be /\ ms = false) ->
  exists be',
    basename_plain_loop base n (mkBase 0 be ms ei fn) = mkBase 0 be' false ei fn
    /\ basename_plain_loop (pre ++ base) (length pre + n)
         (mkBase 0 (shiftIndex (Z.of_nat (length pre)) be) ms ei fn)
       = mkBase (Z.of_nat (length pre)) (be' + Z.of_nat (length pre)) false ei fn
    /\ 0 <= be'.
Proof.
  destruct prefix_nth_sep as (j & Hj & Hslash).
  revert be ms. induction n as [|i IH]; intros be ms Hn Hinv.
  - destruct Hinv as [(_ & _ & H1) | (Hbe & ->)]; [lia|].
    exists be. split; [reflexivity|]. split; [|assumption].
    rewrite Nat.add_0_r, Hj. cbn [basename_plain_loop]. rewrite Hslash.
    cbn [b_matchedSlash negb b_end extIdx firstNonSlashEnd].
    replace (Z.of_nat j + 1) with (Z.of_nat (S j)) by lia.
    unfold shiftIndex. destruct (Z.eqb_spec be (-1)); [lia | reflexivity].
  - assert (Hc : is_slash (nth i base zero) = false) by (apply base_nonslash; lia).
    replace (length pre + S i)%nat with (S (length pre + i)) by lia.
    cbn [basename_plain_loop]. rewrite prefix_nth_base by lia. rewrite Hc.
    cbn [b_start b_end b_matchedSlash extIdx firstNonSlashEnd].
    destruct Hinv as [(-> & -> & H1) | (Hbe & ->)].
    + change (shiftIndex (Z.of_nat (length pre)) (-1)) with (-1).
      simpl Z.eqb. cbv iota.
      destruct (IH (Z.of_nat i + 1) false) as (be' & E1 & E2 & R); [lia | right; split; [lia | reflexivity] |].
      exists be'. split; [exact E1|]. split; [|exact R].
      rewrite <- E2. repeat f_equal. unfold shiftIndex. split_eqb; lia.
    + assert (Hs : (shiftIndex (Z.of_nat (length pre)) be =? -1) = false).
      { unfold shiftIndex. destruct (Z.eqb_spec be (-1)); [lia|]. apply Z.eqb_neq. lia. }
      rewrite Hs. destruct (Z.eqb_spec be (-1)); [lia|].
      apply IH; [lia | right; split; [lia | reflexivity]].
Qed.

(** The base name of [pre ++ base] is that of [base], for a suffix that
    is not all of [base]. *)
Lemma basename_prefix sfx :
  base <> [] -> sfx <> base -> (length sfx <= length base)%nat ->
  basename_chars (pre ++ base) (Some sfx) = basename_chars base (Some sfx).
Proof.
  intros Hne Hsfx Hlen.
  assert (Hb : (1 <= length base)%nat) by (destruct base; [contradiction | simpl; lia]).
  destruct prefix_nth_sep as (j & Hj & _).
  unfold basename_chars. rewrite prefix_length.
  destruct (Z.ltb_spec 0 (Z.of_nat (length sfx))) as [Hpos | Hzero]; cbn [andb].
  - destruct (Z.leb_spec (Z.of_nat (length sfx)) (Z.of_nat (length pre + length base)));
      [|lia].
    destruct (Z.leb_spec (Z.of_nat (length sfx)) (Z.of_nat (length base))); [|lia].
    unfold chars_eqb. rewrite !bool_decide_eq_false_2; [| assumption |].
    2:{ intros E. apply (f_equal length) in E. rewrite prefix_length in E. lia. }
    destruct (basename_suffix_loop_prefix sfx (length base) (-1) true
                (Z.of_nat (length sfx) - 1) (-1))
      as (be' & ei' & fn' & E1 & E2 & Hfn & Hbe); [lia | left; repeat split; auto |].
    change (mkBase 0 (shiftIndex (Z.of_nat (length pre)) (-1)) true
                   (Z.of_nat (length sfx) - 1) (shiftIndex (Z.of_nat (length pre)) (-1)))
      with (base_init sfx) in E2.
    change (mkBase 0 (-1) true (Z.of_nat (length sfx) - 1) (-1)) with (base_init sfx) in E1.
    rewrite E1, E2. cbn [b_start b_end firstNonSlashEnd]. unfold shiftIndex.
    destruct (Z.eqb_spec be' (-1)) as [-> | Hbe'].
    + destruct (Z.eqb_spec (Z.of_nat (length pre)) (-1)); [lia|].
      simpl Z.eqb. cbv iota.
      replace (Z.of_nat (length pre + length base))
        with (Z.of_nat (length base) + Z.of_nat (length pre)) by lia.
      apply (slice_prefix 0). lia.
    + destruct (Z.eqb_spec (be' + Z.of_nat (length pre)) (-1)); [lia|].
      destruct (Z.eqb_spec 0 be') as [<- | Hnz].
      * rewrite Z.eqb_refl. apply (slice_prefix 0). lia.
      * destruct (Z.eqb_spec (Z.of_nat (length pre)) (be' + Z.of_nat (length pre))); [lia|].
        apply (slice_prefix 0). lia.
  - destruct (basename_plain_loop_prefix (length base) (-1) true (-1) (-1))
      as (be' & E1 & E2 & Hbe); [lia | left; repeat split; auto |].
    change (mkBase 0 (shiftIndex (Z.of_nat (length pre)) (-1)) true (-1) (-1))
      with (base_init []) in E2.
    change (mkBase 0 (-1) true (-1) (-1)) with (base_init []) in E1.
    rewrite E1, E2. cbn [b_start b_end].
    destruct (Z.eqb_spec be' (-1)); [lia|].
    destruct (Z.eqb_spec (be' + Z.of_nat (length pre)) (-1)); [lia|].
    apply (slice_prefix 0). lia.
Qed.

End DirectoryPrefix.

(** ** Size variants *)

Section Variants.
Import Js Backend Props.

Lemma basename_extname_separatorFree filename :
  separatorFree (Path.basename filename (Some (Path.extname filename))).
Proof.
  unfold separatorFree, Path.basename, Path.extname. cbn [fmap option_fmap option_map].
  rewrite !to_of_chars. apply basename_extname_noSlash.
Qed.

Lemma extname_separatorFree filename : separatorFree (Path.extname filename).
Proof.
  unfold separatorFree, Path.extname. rewrite to_of_chars. apply extname_noSlash.
Qed.

Lemma variant_chars name infix ext :
  to_chars (name +:+ infix +:+ ext) = to_chars name ++ to_chars infix ++ to_chars ext.
Proof. by rewrite !to_chars_app. Qed.

(** A name built around [-thumb] or [-medium] is a proper segment as
    soon as its two ends contain no separator. *)
Lemma variant_properSeg name infix ext :
  infix = "-thumb" \/ infix = "-medium" ->
  separatorFree name -> separatorFree ext ->
  properSeg (to_chars (name +:+ infix +:+ ext)).
Proof.
  intros Hi Hn He. rewrite variant_chars.
  assert (Hdash : "-"%char ∈ to_chars name ++ to_chars infix ++ to_chars ext).
  { rewrite !elem_of_app. right; left.
    destruct Hi as [-> | ->]; apply list_elem_of_here. }
  assert (Hfree : noSlash (to_chars infix)).
  { destruct Hi as [-> | ->]; unfold noSlash; simpl;
      rewrite !elem_of_cons, elem_of_nil; intros H; repeat destruct H as [H|H];
      try discriminate; assumption. }
  split; [|split; [|split]].
  - intros E. rewrite E in Hdash. by apply elem_of_nil in Hdash.
  - by repeat apply noSlash_app.
  - intros E. rewrite E in Hdash. unfold Path.dot in Hdash.
    apply list_elem_of_singleton in Hdash. discriminate.
  - intros E. rewrite E in Hdash. unfold Path.dotdot in Hdash.
    rewrite !elem_of_cons, elem_of_nil in Hdash.
    destruct Hdash as [H | [H | H]]; try discriminate; assumption.
Qed.

Lemma resolveSizedFilename_variant filename size :
  size = "thumbnail" \/ size = "medium" ->
  resolveSizedFilename filename (Some size)
  = Path.basename filename (Some (Path.extname filename))
    +:+ (if String.eqb size "thumbnail" then "-thumb" else "-medium")
    +:+ Path.extname filename.
Proof. intros [-> | ->]; reflexivity. Qed.

Lemma to_chars_nonempty s : s <> "" -> to_chars s <> [].
Proof. destruct s; [contradiction | discriminate]. Qed.

Lemma to_chars_directory dir base :
  to_chars (dir +:+ "/" +:+ base) = (to_chars dir ++ ["/"%char]) ++ to_chars base.
Proof. rewrite to_chars_app, <- app_assoc. reflexivity. Qed.

(** A directory in front of a name changes neither its extension nor its
    base name, so it does not show in the variant. *)
Lemma resolveSizedFilename_drops_prefix dir base size :
  size = "thumbnail" \/ size = "medium" ->
  base <> "" -> separatorFree base ->
  resolveSizedFilename (dir +:+ "/" +:+ base) (Some size)
  = resolveSizedFilename base (Some size).
Proof.
  intros Hsize Hne Hfree.
  assert (Hsep : exists d, to_chars dir ++ ["/"%char] = d ++ ["/"%char]) by eauto.
  pose proof (to_chars_nonempty _ Hne) as Hne'.
  destruct (extname_prefix _ _ Hsep Hfree Hne') as [Hext Hshort].
  assert (Hx : Path.extname (dir +:+ "/" +:+ base) = Path.extname base).
  { unfold Path.extname. by rewrite to_chars_directory, Hext. }
  assert (Hb : Path.basename (dir +:+ "/" +:+ base) (Some (Path.extname base))
               = Path.basename base (Some (Path.extname base))).
  { unfold Path.basename, Path.extname. cbn [fmap option_fmap option_map].
    rewrite to_chars_directory, !to_of_chars. f_equal.
    apply basename_prefix; try assumption.
    - destruct Hshort as [-> | Hlt]; [congruence|].
      intros E. rewrite E in Hlt. lia.
    - destruct Hshort as [-> | Hlt]; [simpl|]; lia. }
  rewrite !resolveSizedFilename_variant by assumption. by rewrite Hx, Hb.
Qed.

(** C9. For the sizes [thumbnail] and [medium] the variant name is built
    from the base name and the extension alone: whatever directory the
    stored name carries is dropped, so that the result contains no
    separator and is the variant of the bare name ([2024/photo.jpg] gives
    [photo-thumb.jpg], as [photo.jpg] does), and resolving it against the
    upload root yields the root's segments followed by that single name. *)
Theorem C9_variant_drops_directory filename size :
  size = "thumbnail" \/ size = "medium" ->
  let variant := resolveSizedFilename filename (Some size) in
  let infix := if String.eqb size "thumbnail" then "-thumb" else "-medium" in
  variant = Path.basename filename (Some (Path.extname filename))
            +:+ infix +:+ Path.extname filename
  /\ separatorFree (Path.basename filename (Some (Path.extname filename)))
  /\ separatorFree variant
  /\ (forall dir base,
        filename = dir +:+ "/" +:+ base -> base <> "" -> separatorFree base ->
        variant = resolveSizedFilename base (Some size))
  /\ (forall h, startsWith (cwd h) "/" = true ->
        pathSegments (Path.resolve (cwd h) [getUploadsRootDir h; variant])
        = pathSegments (rootResolved h) ++ [to_chars variant]).
Proof.
  intros Hsize variant infix.
  assert (Hv : variant = Path.basename filename (Some (Path.extname filename))
                         +:+ infix +:+ Path.extname filename).
  { subst variant infix. destruct Hsize as [-> | ->]; reflexivity. }
  assert (Hi : infix = "-thumb" \/ infix = "-medium").
  { subst infix. destruct Hsize as [-> | ->]; auto. }
  pose proof (variant_properSeg _ _ _ Hi (basename_extname_separatorFree filename)
                (extname_separatorFree filename)) as Hproper.
  rewrite <- Hv in Hproper.
  split; [exact Hv|]. split; [apply basename_extname_separatorFree|].
  split; [by destruct Hproper as (_ & ? & _)|].
  split; [intros dir base -> Hne Hfree; by apply resolveSizedFilename_drops_prefix|].
  intros h Habs.
  destruct (resolve_child (to_chars (cwd h)) (to_chars (getUploadsRootDir h))
              (to_chars variant) Habs Hproper) as (N & HN & Hroot & Hchild).
  unfold rootResolved, Path.resolve. cbn [map]. rewrite Hroot, Hchild.
  rewrite !pathSegments_canonical; [reflexivity | assumption |].
  apply Forall_app. split; [assumption | by constructor].
Qed.

Lemma C9_variant_drops_directory_witness :
  ("thumbnail" = "thumbnail" \/ "thumbnail" = "medium")
  /\ resolveSizedFilename "2024/photo.jpg" (Some "thumbnail") = "photo-thumb.jpg"
  /\ separatorFree (resolveSizedFilename "2024/photo.jpg" (Some "thumbnail")).
Proof.
  split; [by left|]. split; [reflexivity|].
  exact (proj1 (proj2 (proj2
           (C9_variant_drops_directory "2024/photo.jpg" "thumbnail" (or_introl eq_refl))))).
Defined.


End Variants.

(** ** The properties on the sample data *)

Section Worked.
Import Js Backend Frontend Props.

(** The anonymous caller is denied on the group-restricted tenant and
    gets 404, so "denied means 403" does not hold of the handler. *)
Lemma C2_counterexample :
  ~ (forall normalizeUploadsPath acceptsHeader sendFile db h req,
        allowed (access db req) = false ->
        status (serveImageVia normalizeUploadsPath acceptsHeader sendFile db h req)
        = 403%nat).
Proof.
  intros H.
  specialize (H Sample.keep More.noLineBreak More.hidesDotfiles Sample.db Sample.host
                Sample.anonymousFamily eq_refl).
  vm_compute in H. discriminate.
Qed.

Lemma C2_status_by_stage_witness :
  denied Sample.db Sample.anonymousFamily
  /\ serveImageVia Sample.keep More.noLineBreak More.hidesDotfiles Sample.db Sample.host
       Sample.anonymousFamily
     = jsonError 404 "App not found".
Proof.
  assert (Hd : denied Sample.db Sample.anonymousFamily) by (right; reflexivity).
  split; [exact Hd|].
  exact (proj1 (C2_status_by_stage Sample.keep Sample.db Sample.host
                  Sample.anonymousFamily More.noLineBreak More.hidesDotfiles) Hd).
Defined.

Lemma C3_cross_tenant_not_found_witness :
  status (serveImage Sample.keep Sample.db Sample.host
            (mkReq "travel" "m2" None (Some Sample.root))) = 404%nat.
Proof.
  refine (proj1 (C3_cross_tenant_not_found Sample.keep Sample.db Sample.host
                   "travel" "m2" "m9" None (Some Sample.root) "app-family" _ _ _)).
  - intros post Hin Hm. simpl in Hin.
    rewrite !elem_of_cons, elem_of_nil in Hin.
    destruct Hin as [-> | [-> | []]]; [discriminate Hm | reflexivity].
  - intros b Hb. vm_compute in Hb. injection Hb as <-. discriminate.
  - intros post Hin. simpl in Hin.
    rewrite !elem_of_cons, elem_of_nil in Hin.
    destruct Hin as [-> | [-> | []]]; discriminate.
Defined.

Lemma C4_group_gate_witness :
  appInstance Sample.db !! "family" = Some Sample.family
  /\ app_type Sample.family = "PHOTO_STORY"
  /\ isActive Sample.family = true
  /\ allowed (pickAccessibleAppInstance Sample.db "family" None) = false.
Proof.
  assert (Hlk : appInstance Sample.db !! "family" = Some Sample.family)
    by (vm_compute; reflexivity).
  split; [exact Hlk|]. split; [reflexivity|]. split; [reflexivity|].
  refine (proj1 (proj2 (proj2 (C4_group_gate Sample.db "family" Sample.family None
                                 Hlk eq_refl (or_introl eq_refl)))) _ eq_refl).
  vm_compute. discriminate.
Defined.

Lemma C5_activation_gate_witness :
  appInstance Sample.db !! "archive" = Some Sample.archive
  /\ isActive Sample.archive = false
  /\ pickAccessibleAppInstance Sample.db "archive" (Some Sample.alice)
     = mkAccess None false None.
Proof.
  assert (Hlk : appInstance Sample.db !! "archive" = Some Sample.archive)
    by (vm_compute; reflexivity).
  split; [exact Hlk|]. split; [reflexivity|].
  refine (proj1 (C5_activation_gate Sample.db "archive" Sample.archive
                   (Some Sample.alice) Hlk eq_refl) _).
  intros (u & Hu & Hrole). injection Hu as <-.
  destruct Hrole as [Hr | Hr]; discriminate Hr.
Defined.

Lemma C6_unknown_or_foreign_slug_witness :
  (exists a, appInstance Sample.db !! "board" = Some a /\ app_type a <> "PHOTO_STORY")
  /\ pickAccessibleAppInstance Sample.db "board" (Some Sample.root)
     = mkAccess None false None.
Proof.
  assert (Hk : exists a, appInstance Sample.db !! "board" = Some a
                         /\ app_type a <> "PHOTO_STORY").
  { exists Sample.board. split; [vm_compute; reflexivity | discriminate]. }
  split; [exact Hk|].
  exact (C6_unknown_or_foreign_slug Sample.db "board" (Some Sample.root) (or_intror Hk)).
Defined.


Lemma C8_cache_idempotent_witness :
  "t0" <> ""
  /\ let first := mount Sample.online "/api/apps/travel/image/m1" (Some "t0")
                    Sample.emptyBrowser in
     let second := mount Sample.online "/api/apps/travel/image/m1" (Some "t0") first.1 in
     first.2 = second.2
     /\ requests second.1 = [("/api/apps/travel/image/m1", "Bearer t0")].
Proof.
  assert (Hne : "t0" <> "") by discriminate.
  assert (Hmiss : imageCache Sample.emptyBrowser
                    !! ("/api/apps/travel/image/m1" +:+ "|" +:+ "t0") = None)
    by (vm_compute; reflexivity).
  pose proof (proj1 (proj2 (proj2 (C8_cache_idempotent Sample.online
                                     "/api/apps/travel/image/m1" "t0" Hne)))
                Sample.emptyBrowser [Byte.x01] Hmiss eq_refl) as H.
  split; [exact Hne|].
  split; [exact (proj1 H) | exact (proj2 (proj2 (proj2 (proj2 H))))].
Defined.

(** With the network down, two mounts in a row for a pair with a
    credential send two requests and end on the raw locator, so "exactly
    one network fetch for every pair" does not hold of the component. *)
Lemma C8_counterexample :
  ~ (forall net src token b,
        token <> "" ->
        let first := mount net src (Some token) b in
        let second := mount net src (Some token) first.1 in
        first.2 = second.2
        /\ length (requests second.1) = S (length (requests b))).
Proof.
  intros H.
  assert (Ht : "t0" <> "") by discriminate.
  destruct (H More.offline "/api/apps/travel/image/m1" "t0" Sample.emptyBrowser Ht)
    as [_ Hn].
  vm_compute in Hn. discriminate.
Qed.

Lemma C10_allowed_invariant_witness :
  allowed (pickAccessibleAppInstance Sample.db "travel" None) = true
  /\ exists a, app (pickAccessibleAppInstance Sample.db "travel" None) = Some a
               /\ app_type a = "PHOTO_STORY".
Proof.
  assert (Ha : allowed (pickAccessibleAppInstance Sample.db "travel" None) = true)
    by (vm_compute; reflexivity).
  split; [exact Ha|].
  destruct (C10_allowed_invariant Sample.db "travel" None Ha) as (a & Happ & _ & Hty & _).
  exists a. split; assumption.
Defined.

End Worked.


(** ** More on path resolution *)

Section ResolveMore.
Import Js Path Backend Props.

Lemma join_sep_app R k :
  R <> [] -> k <> [] -> join_sep (R ++ k) = join_sep R ++ "/"%char :: join_sep k.
Proof.
  intros HR Hk. induction R as [|r R IH]; [contradiction|].
  destruct R as [|r' R'].
  - simpl. destruct k; [contradiction | reflexivity].
  - change (join_sep ((r :: r' :: R') ++ k))
      with (r ++ "/"%char :: join_sep ((r' :: R') ++ k)).
    rewrite IH by discriminate.
    change (join_sep (r :: r' :: R')) with (r ++ "/"%char :: join_sep (r' :: R')).
    rewrite <- !app_assoc. reflexivity.
Qed.

Lemma starts_with_app p k : starts_with p (p ++ k) = true.
Proof. apply starts_with_spec. eauto. Qed.

Lemma split_sep_join A :
  Forall properSeg A -> A <> [] -> split_sep (join_sep A) = A.
Proof.
  induction 1 as [|s rest (Hne & Hs & _) Hrest IH]; [contradiction|]. intros _.
  destruct rest as [|s' rest'].
  - simpl. by apply split_sep_noSlash_id.
  - change (join_sep (s :: s' :: rest')) with (s ++ "/"%char :: join_sep (s' :: rest')).
    rewrite split_sep_app_slash, IH, split_sep_noSlash_id by (assumption || discriminate).
    reflexivity.
Qed.

Lemma norm_fold_skip_empty b l stack :
  fold_left (norm_step b) l stack
  = fold_left (norm_step b) (filter (fun s => s <> []) l) stack.
Proof.
  revert stack. induction l as [|s l IH]; intros stack; [reflexivity|].
  destruct s as [|c s'].
  - rewrite filter_cons_False by (intros H; by apply H). simpl. apply IH.
  - rewrite filter_cons_True by discriminate. simpl. apply IH.
Qed.

Lemma norm_fold_keep A stack :
  Forall properSeg A -> fold_left (norm_step false) A stack = rev A ++ stack.
Proof.
  intros HA. revert stack. induction HA as [|s A Hs HA IH]; intros stack; [reflexivity|].
  simpl. rewrite norm_step_push by assumption. rewrite IH, <- app_assoc. reflexivity.
Qed.

(** Normalizing a canonical absolute path gives the path back. *)
Lemma normalize_canonical A tail :
  Forall properSeg A -> segments tail = [] ->
  normalizeString (("/"%char :: join_sep A) ++ "/"%char :: tail) false = join_sep A.
Proof.
  intros HA Ht. unfold normalizeString, norm_segments.
  rewrite norm_fold_skip_empty.
  fold (segments (("/"%char :: join_sep A) ++ "/"%char :: tail)).
  rewrite segments_app_slash, segments_slash, segments_join, Ht, app_nil_r by assumption.
  rewrite norm_fold_keep by assumption. by rewrite app_nil_r, rev_involutive.
Qed.

Lemma resolve_canonical_absolute cwd root A :
  Forall properSeg A ->
  resolve_chars cwd [root; "/"%char :: join_sep A] = "/"%char :: join_sep A.
Proof.
  intros HA. unfold resolve_chars. cbn [rev app resolve_loop is_slash].
  change (ascii_eqb "/" "/") with true. cbv iota.
  cbn [negb]. f_equal. apply (normalize_canonical A []); [assumption | reflexivity].
Qed.

End ResolveMore.

(** ** What the file helpers accept *)

Section FileHelpers.
Import Js Path Backend Props.

Lemma resolve_two_canonical h p :
  startsWith (cwd h) "/" = true ->
  exists R A, Forall properSeg R /\ Forall properSeg A
              /\ rootResolved h = of_chars ("/"%char :: join_sep R)
              /\ Path.resolve (cwd h) [getUploadsRootDir h; p]
                 = of_chars ("/"%char :: join_sep A).
Proof.
  intros Habs.
  destruct (resolve_canonical h [getUploadsRootDir h; p] Habs) as (A & HA & EA).
  destruct (resolve_canonical h [getUploadsRootDir h] Habs) as (R & HR & ER).
  exists R, A. auto.
Qed.

(** When the resolved upload root is not [/], [resolveUploadsFilePath]
    returns null exactly for the names whose canonical path is not under
    the root: nothing under the root is refused. *)
Theorem resolveUploadsFilePath_exact h p :
  startsWith (cwd h) "/" = true ->
  rootResolved h <> "/" ->
  (resolveUploadsFilePath h p = None
   <-> ~ liesUnder (rootResolved h) (Path.resolve (cwd h) [getUploadsRootDir h; p])).
Proof.
  intros Habs Hroot. split.
  - intros Hnone Hunder.
    destruct (resolve_two_canonical h p Habs) as (R & A & HR & HA & ER & EA).
    assert (HRne : R <> []) by (intros ->; by apply Hroot).
    unfold liesUnder in Hunder. rewrite ER, EA in Hunder.
    rewrite !pathSegments_canonical in Hunder by assumption.
    destruct Hunder as [k ->].
    unfold resolveUploadsFilePath in Hnone. fold (rootResolved h) in Hnone.
    rewrite ER, EA in Hnone.
    destruct k as [|k0 k].
    + rewrite app_nil_r, String.eqb_refl, andb_false_r in Hnone. discriminate.
    + unfold startsWith in Hnone. rewrite to_chars_app, !to_of_chars in Hnone.
      rewrite join_sep_app in Hnone by (assumption || discriminate).
      change (to_chars "/") with ["/"%char] in Hnone.
      replace ("/"%char :: join_sep R ++ "/"%char :: join_sep (k0 :: k))
        with ((("/"%char :: join_sep R) ++ ["/"%char]) ++ join_sep (k0 :: k)) in Hnone
        by (rewrite <- app_assoc; reflexivity).
      rewrite starts_with_app in Hnone. discriminate.
  - intros Hout.
    destruct (resolveUploadsFilePath h p) as [abs|] eqn:E; [|reflexivity].
    destruct (resolveUploadsFilePath_sound h p abs Habs E) as (-> & Hu & _).
    contradiction.
Qed.

Lemma resolveUploadsFilePath_exact_witness :
  startsWith (cwd Sample.host) "/" = true
  /\ rootResolved Sample.host <> "/"
  /\ (resolveUploadsFilePath Sample.host "/etc/passwd" = None
      <-> ~ liesUnder (rootResolved Sample.host)
            (Path.resolve (cwd Sample.host)
               [getUploadsRootDir Sample.host; "/etc/passwd"])).
Proof.
  assert (Hr : rootResolved Sample.host <> "/") by (vm_compute; discriminate).
  split; [reflexivity|]. split; [exact Hr|].
  exact (resolveUploadsFilePath_exact Sample.host "/etc/passwd" eq_refl Hr).
Defined.

(** When the upload root resolves to [/], the only path
    [resolveUploadsFilePath] ever returns is [/] itself: every file is
    refused, because no canonical path starts with two separators. *)
Theorem resolveUploadsFilePath_root_slash h p abs :
  startsWith (cwd h) "/" = true ->
  rootResolved h = "/" ->
  resolveUploadsFilePath h p = Some abs ->
  abs = "/".
Proof.
  intros Habs Hroot H.
  destruct (resolve_two_canonical h p Habs) as (R & A & HR & HA & ER & EA).
  unfold resolveUploadsFilePath in H. fold (rootResolved h) in H.
  rewrite Hroot, EA in H.
  destruct (_ && _) eqn:Hc; [discriminate|]. injection H as <-.
  apply andb_false_iff in Hc as [Hc | Hc]; apply negb_false_iff in Hc.
  - exfalso. unfold startsWith in Hc. rewrite to_of_chars in Hc.
    apply starts_with_spec in Hc as (k & Hk). simpl in Hk. injection Hk as Hk.
    destruct A as [|a A'] eqn:EAne; [discriminate|].
    apply (f_equal split_sep) in Hk.
    rewrite split_sep_join in Hk by (assumption || discriminate).
    simpl in Hk. injection Hk as -> _.
    inversion HA as [|? ? (Hne & _) _]. by apply Hne.
  - by apply String.eqb_eq in Hc.
Qed.

Lemma resolveUploadsFilePath_root_slash_witness :
  startsWith (cwd More.rootHost) "/" = true
  /\ rootResolved More.rootHost = "/"
  /\ resolveUploadsFilePath More.rootHost "."
     = Some (Path.resolve (cwd More.rootHost) [getUploadsRootDir More.rootHost; "."])
  /\ Path.resolve (cwd More.rootHost) [getUploadsRootDir More.rootHost; "."] = "/".
Proof.
  assert (E : resolveUploadsFilePath More.rootHost "."
              = Some (Path.resolve (cwd More.rootHost)
                        [getUploadsRootDir More.rootHost; "."]))
    by reflexivity.
  split; [reflexivity|]. split; [reflexivity|]. split; [exact E|].
  exact (resolveUploadsFilePath_root_slash More.rootHost "." _ eq_refl eq_refl E).
Defined.

(** A path that [resolveUploadsFilePath] has returned is accepted again
    and resolves to itself. *)
Theorem resolveUploadsFilePath_stable h p abs :
  startsWith (cwd h) "/" = true ->
  resolveUploadsFilePath h p = Some abs ->
  resolveUploadsFilePath h abs = Some abs.
Proof.
  intros Habs H.
  destruct (resolve_canonical h [getUploadsRootDir h; p] Habs) as (A & HA & EA).
  unfold resolveUploadsFilePath in H.
  destruct (_ && _) eqn:Hc; [discriminate|]. injection H as <-.
  rewrite EA in *.
  assert (E : Path.resolve (cwd h) [getUploadsRootDir h; of_chars ("/"%char :: join_sep A)]
              = of_chars ("/"%char :: join_sep A)).
  { unfold Path.resolve. cbn [map]. rewrite to_of_chars.
    by rewrite resolve_canonical_absolute. }
  unfold resolveUploadsFilePath. rewrite E, Hc. reflexivity.
Qed.

Lemma resolveUploadsFilePath_stable_witness :
  startsWith (cwd Sample.host) "/" = true
  /\ resolveUploadsFilePath Sample.host "2024/../sunset.jpg" = Some "/srv/uploads/sunset.jpg"
  /\ resolveUploadsFilePath Sample.host "/srv/uploads/sunset.jpg"
     = Some "/srv/uploads/sunset.jpg".
Proof.
  assert (E : resolveUploadsFilePath Sample.host "2024/../sunset.jpg"
              = Some "/srv/uploads/sunset.jpg") by reflexivity.
  split; [reflexivity|]. split; [exact E|].
  exact (resolveUploadsFilePath_stable Sample.host _ _ eq_refl E).
Defined.

(** A 200 answer always hands over a file that exists on disk and lies
    under the upload root: it is the variant or the canonical name of a
    post of the tenant, it carries the private cache directive, and in
    direct mode the path streamed is the very path that was checked. *)
Theorem serveImage_success (normalizeUploadsPath : string -> option string) db h req :
  startsWith (cwd h) "/" = true ->
  status (serveImage normalizeUploadsPath db h req) = 200%nat ->
  exists a post safe file abs,
    located normalizeUploadsPath db req a post safe
    /\ (file = requestedName req safe \/ file = safe)
    /\ serveImage normalizeUploadsPath db h req = served h file
    /\ resolveUploadsFilePath h file = Some abs
    /\ abs = Path.resolve (cwd h) [getUploadsRootDir h; file]
    /\ existsSync h abs = true
    /\ liesUnder (rootResolved h) abs
    /\ cacheControl ∈ headers (serveImage normalizeUploadsPath db h req)
    /\ (UPLOADS_SERVE_STRATEGY h <> "accel" ->
        body (serveImage normalizeUploadsPath db h req) = BodyFile abs).
Proof.
  intros Habs Hs.
  assert (Hserved : forall r file abs,
             r = served h file ->
             abs = Path.resolve (cwd h) [getUploadsRootDir h; file] ->
             cacheControl ∈ headers r
             /\ (UPLOADS_SERVE_STRATEGY h <> "accel" -> body r = BodyFile abs)).
  { intros r file abs -> ->. unfold served.
    destruct (String.eqb (UPLOADS_SERVE_STRATEGY h) "accel") eqn:E; simpl.
    - split; [apply list_elem_of_here|]. apply String.eqb_eq in E. contradiction.
    - split; [apply list_elem_of_here | reflexivity]. }
  pose proof (serveImage_outcome normalizeUploadsPath db h req) as Hout.
  remember (serveImage normalizeUploadsPath db h req) as r eqn:Hr.
  destruct Hout as [ | | | | a post safe rp fp Hl Hrp Hfp Er
                   | a post safe rp fp Hl Hrp Hfp Er Ef | ];
    try (simpl in Hs; discriminate).
  - destruct (resolveUploadsFilePath_sound h _ rp Habs Hrp) as (E & Hu & _).
    exists a, post, safe, (requestedName req safe), rp.
    split; [exact Hl|]. split; [by left|]. split; [reflexivity|].
    split; [exact Hrp|]. split; [exact E|]. split; [exact Er|]. split; [exact Hu|].
    apply (Hserved _ (requestedName req safe) rp); [reflexivity | exact E].
  - destruct (resolveUploadsFilePath_sound h _ fp Habs Hfp) as (E & Hu & _).
    exists a, post, safe, safe, fp.
    split; [exact Hl|]. split; [by right|]. split; [reflexivity|].
    split; [exact Hfp|]. split; [exact E|]. split; [exact Ef|]. split; [exact Hu|].
    apply (Hserved _ safe fp); [reflexivity | exact E].
Qed.

Lemma serveImage_success_witness :
  startsWith (cwd Sample.host) "/" = true
  /\ status (serveImage Sample.keep Sample.db Sample.host Sample.thumbOfSunset) = 200%nat
  /\ exists abs,
       body (serveImage Sample.keep Sample.db Sample.host Sample.thumbOfSunset)
       = BodyFile abs
       /\ existsSync Sample.host abs = true.
Proof.
  assert (Hs : status (serveImage Sample.keep Sample.db Sample.host Sample.thumbOfSunset)
               = 200%nat) by (vm_compute; reflexivity).
  split; [reflexivity|]. split; [exact Hs|].
  destruct (serveImage_success Sample.keep Sample.db Sample.host Sample.thumbOfSunset
              eq_refl Hs)
    as (a & post & safe & file & abs & _ & _ & _ & _ & _ & Hex & _ & _ & Hbody).
  exists abs. split; [apply Hbody; discriminate | exact Hex].
Defined.

Lemma starts_with_slash_cons l : starts_with ["/"%char] ("/"%char :: l) = true.
Proof. reflexivity. Qed.

Lemma startsWith_slash_app s t :
  startsWith s "/" = true -> startsWith (s +:+ t) "/" = true.
Proof.
  unfold startsWith. rewrite to_chars_app. change (to_chars "/") with ["/"%char].
  destruct (to_chars s) as [|c l]; [discriminate|]. simpl.
  by destruct (ascii_eqb "/" c).
Qed.

Lemma endsWith_slash_app s : endsWith (s +:+ "/") "/" = true.
Proof.
  unfold endsWith. rewrite to_chars_app. change (to_chars "/") with ["/"%char].
  rewrite rev_app_distr. reflexivity.
Qed.

(** The redirect prefix is always brought to the form [/.../]: whatever
    is configured, the result starts and ends with a separator, and a
    prefix already of that form is left as it is. *)
Theorem accelPrefix_normal rawPrefix :
  startsWith (accelPrefix rawPrefix) "/" = true
  /\ endsWith (accelPrefix rawPrefix) "/" = true
  /\ accelPrefix (accelPrefix rawPrefix) = accelPrefix rawPrefix
  /\ (startsWith rawPrefix "/" = true -> endsWith rawPrefix "/" = true ->
      accelPrefix rawPrefix = rawPrefix).
Proof.
  assert (Hshape : forall r, startsWith (accelPrefix r) "/" = true
                             /\ endsWith (accelPrefix r) "/" = true).
  { intros r. unfold accelPrefix.
    destruct (startsWith r "/") eqn:Hs.
    - destruct (endsWith r "/") eqn:He; [by split|].
      split; [by apply startsWith_slash_app | apply endsWith_slash_app].
    - assert (Hl : startsWith ("/" +:+ r) "/" = true) by reflexivity.
      destruct (endsWith ("/" +:+ r) "/") eqn:He; [by split|].
      split; [by apply startsWith_slash_app | apply endsWith_slash_app]. }
  assert (Hfix : forall r, startsWith r "/" = true -> endsWith r "/" = true ->
                           accelPrefix r = r).
  { intros r Hs He. unfold accelPrefix. by rewrite Hs, He. }
  destruct (Hshape rawPrefix) as [Hs He].
  split; [exact Hs|]. split; [exact He|]. split; [by apply Hfix | apply Hfix].
Qed.

End FileHelpers.

(** ** More on the access check *)

Section AccessMore.
Import Js Backend Props.

Lemma accelPrefix_normal_witness :
  startsWith "/protected/" "/" = true
  /\ endsWith "/protected/" "/" = true
  /\ accelPrefix "/protected/" = "/protected/".
Proof.
  split; [reflexivity|]. split; [reflexivity|].
  exact (proj2 (proj2 (proj2 (accelPrefix_normal "/protected/"))) eq_refl eq_refl).
Defined.

(** For a caller with the ADMIN or EDITOR role the result has
    [allowed = true] exactly when it carries an app, and it carries one
    exactly when the slug names a stored photo-story tenant: the routes
    that look at [app] alone behind the role middleware lose nothing. *)
Theorem pickAccessibleAppInstance_elevated db slug authUser :
  elevated authUser ->
  (allowed (pickAccessibleAppInstance db slug authUser) = true
   <-> app (pickAccessibleAppInstance db slug authUser) <> None)
  /\ (app (pickAccessibleAppInstance db slug authUser) <> None
      <-> exists a, appInstance db !! slug = Some a /\ app_type a = "PHOTO_STORY").
Proof.
  intros He. apply isPrivileged_elevated in He.
  unfold pickAccessibleAppInstance. rewrite He. cbn [negb andb].
  destruct (appInstance db !! slug) as [a|].
  - destruct (String.eqb (app_type a) "PHOTO_STORY") eqn:Hty; cbn [negb].
    + apply String.eqb_eq in Hty. rewrite orb_true_r. cbn [app allowed].
      split; [split; [discriminate | reflexivity]|].
      split; [intros _; eauto | discriminate].
    + apply String.eqb_neq in Hty. cbn [app allowed].
      split; [split; [discriminate | congruence]|].
      split; [congruence | intros (a' & [= <-] & E); contradiction].
  - cbn [app allowed]. split; [split; [discriminate | congruence]|].
    split; [congruence | intros (a' & E & _); discriminate].
Qed.

Lemma pickAccessibleAppInstance_elevated_witness :
  elevated (Some Sample.root)
  /\ allowed (pickAccessibleAppInstance Sample.db "archive" (Some Sample.root)) = true.
Proof.
  assert (He : elevated (Some Sample.root)) by (exists Sample.root; auto).
  split; [exact He|].
  apply (proj1 (pickAccessibleAppInstance_elevated Sample.db "archive" _ He)).
  vm_compute. discriminate.
Defined.

(** A configuration that has no array under [allowedGroupIds] (no
    configuration, not an object, key missing, or another kind of value)
    leaves an active tenant open to every caller, anonymous included. *)
Theorem pickAccessibleAppInstance_no_group_list db slug a authUser :
  appInstance db !! slug = Some a ->
  app_type a = "PHOTO_STORY" ->
  isActive a = true ->
  (forall fields items, config a = Some (JObj fields) ->
                        fields !! "allowedGroupIds" <> Some (JArr items)) ->
  pickAccessibleAppInstance db slug authUser = mkAccess (Some a) true (Some []).
Proof.
  intros Hlk Hty Hact Hcfg.
  assert (Hg : configAllowedGroupIds (config a) = []).
  { unfold configAllowedGroupIds.
    destruct (config a) as [[| | | | |fields]|] eqn:Ec; try reflexivity.
    destruct (fields !! "allowedGroupIds") as [[| | | |items|]|] eqn:Ef; try reflexivity.
    exfalso. by apply (Hcfg fields items). }
  unfold pickAccessibleAppInstance. rewrite Hlk, Hty, Hact, Hg. cbn [negb].
  rewrite andb_false_r. reflexivity.
Qed.

Lemma pickAccessibleAppInstance_no_group_list_witness :
  appInstance More.accessDb !! "loose" = Some More.looseConfig
  /\ pickAccessibleAppInstance More.accessDb "loose" None
     = mkAccess (Some More.looseConfig) true (Some []).
Proof.
  assert (Hlk : appInstance More.accessDb !! "loose" = Some More.looseConfig)
    by (vm_compute; reflexivity).
  split; [exact Hlk|].
  apply (pickAccessibleAppInstance_no_group_list _ _ _ None Hlk eq_refl eq_refl).
  intros fields items [= <-]. vm_compute. discriminate.
Defined.

(** A non-empty group list without any string in it closes an active
    tenant to every caller who is not ADMIN or EDITOR, whatever groups the
    caller is in. *)
Theorem pickAccessibleAppInstance_no_string_group db slug a authUser :
  appInstance db !! slug = Some a ->
  app_type a = "PHOTO_STORY" ->
  isActive a = true ->
  permittedGroups a <> [] ->
  (forall g, JStr g ∉ permittedGroups a) ->
  ~ elevated authUser ->
  pickAccessibleAppInstance db slug authUser
  = mkAccess (Some a) false (Some (permittedGroups a)).
Proof.
  intros Hlk Hty Hact Hne Hnostr Hnot.
  apply isPrivileged_not_elevated in Hnot.
  unfold pickAccessibleAppInstance, permittedGroups in *.
  rewrite Hlk, Hty, Hact, Hnot. cbn [negb andb].
  destruct (length _ =? 0)%nat eqn:Hlen; [apply length_zero_nil in Hlen; contradiction|].
  cbn [orb]. destruct authUser as [u|]; [|reflexivity].
  destruct (existsb _ _) eqn:Hex; [|reflexivity].
  apply hasAccess_intersects in Hex as (g & Hg & _). by apply Hnostr in Hg.
Qed.

Lemma pickAccessibleAppInstance_no_string_group_witness :
  appInstance More.accessDb !! "numeric" = Some More.numericGroups
  /\ allowed (pickAccessibleAppInstance More.accessDb "numeric" (Some Sample.bob)) = false.
Proof.
  assert (Hlk : appInstance More.accessDb !! "numeric" = Some More.numericGroups)
    by (vm_compute; reflexivity).
  split; [exact Hlk|].
  rewrite (pickAccessibleAppInstance_no_string_group More.accessDb "numeric"
             More.numericGroups (Some Sample.bob) Hlk eq_refl eq_refl);
    [reflexivity | vm_compute; discriminate | |].
  - intros g Hg.
    assert (E : permittedGroups More.numericGroups = [JNum 1; JNull])
      by (vm_compute; reflexivity).
    rewrite E, !elem_of_cons, elem_of_nil in Hg.
    destruct Hg as [Hg | [Hg | []]]; discriminate.
  - intros (u & [= <-] & [Hr | Hr]); discriminate.
Defined.

(** Joining groups never takes access away: with the tenants unchanged
    and every membership row kept, a caller who was allowed stays allowed
    and gets the same app. *)
Theorem pickAccessibleAppInstance_monotone db db' slug authUser :
  appInstance db' = appInstance db ->
  (forall row, row ∈ userGroup db -> row ∈ userGroup db') ->
  allowed (pickAccessibleAppInstance db slug authUser) = true ->
  allowed (pickAccessibleAppInstance db' slug authUser) = true
  /\ app (pickAccessibleAppInstance db' slug authUser)
     = app (pickAccessibleAppInstance db slug authUser).
Proof.
  intros Happs Hrows. unfold pickAccessibleAppInstance. rewrite Happs.
  destruct (appInstance db !! slug) as [a|]; [|discriminate].
  destruct (negb (String.eqb _ _)); [discriminate|].
  destruct (_ && _); [discriminate|].
  destruct (_ || _); [by split|].
  destruct authUser as [u|]; [|discriminate]. cbn [allowed app].
  intros H. split; [|reflexivity].
  apply hasAccess_intersects in H as (g & Hg & (row & Hin & Hu & Hgid)).
  apply hasAccess_intersects. exists g. split; [exact Hg|].
  exists row. auto.
Qed.

Lemma pickAccessibleAppInstance_monotone_witness :
  appInstance More.accessDbMore = appInstance More.accessDbJoined
  /\ allowed (pickAccessibleAppInstance More.accessDbJoined "family" (Some Sample.bob))
     = true
  /\ allowed (pickAccessibleAppInstance More.accessDbMore "family" (Some Sample.bob))
     = true.
Proof.
  assert (Ha : allowed (pickAccessibleAppInstance More.accessDbJoined "family"
                          (Some Sample.bob)) = true) by (vm_compute; reflexivity).
  split; [reflexivity|]. split; [exact Ha|].
  refine (proj1 (pickAccessibleAppInstance_monotone More.accessDbJoined More.accessDbMore
                   "family" (Some Sample.bob) eq_refl _ Ha)).
  intros row Hrow. apply list_elem_of_further. exact Hrow.
Defined.

End AccessMore.

(** ** More on the image cache *)

Section CacheMore.
Import Js Frontend.

(** Without a credential (none, or the empty string) the locator is passed
    through: the browser state is untouched and no request is sent. *)
Theorem mount_without_credential net src token b :
  token = None \/ token = Some "" ->
  mount net src token b = (b, src).
Proof. intros [-> | ->]; reflexivity. Qed.

Lemma mount_without_credential_witness :
  (Some "" = None \/ Some "" = Some "")
  /\ mount Sample.online "/img/1" (Some "") Sample.emptyBrowser
     = (Sample.emptyBrowser, "/img/1").
Proof.
  split; [by right|].
  exact (mount_without_credential Sample.online "/img/1" (Some "") Sample.emptyBrowser
           (or_intror eq_refl)).
Defined.

Lemma string_app_assoc a b c : (a +:+ b) +:+ c = a +:+ (b +:+ c).
Proof.
  induction a as [|x a IH]; [reflexivity|].
  change (String x ((a +:+ b) +:+ c) = String x (a +:+ (b +:+ c))).
  by rewrite IH.
Qed.

(** The key does not separate the two parts: the locator [s|t] with the
    credential [u] and the locator [s] with the credential [t|u] share
    one key, so after the first pair has been fetched a mount for the
    second pair is answered with the first pair's object URL and sends no
    request of its own. *)
Theorem cacheKey_collision net s t u b blob :
  u <> "" ->
  cacheKey (s +:+ "|" +:+ t) (Some u) = cacheKey s (Some (t +:+ "|" +:+ u))
  /\ (imageCache b !! ((s +:+ "|" +:+ t) +:+ "|" +:+ u) = None ->
      net (length (requests b)) (s +:+ "|" +:+ t) ("Bearer " +:+ u)
      = Responded true (Some blob) ->
      let first := mount net (s +:+ "|" +:+ t) (Some u) b in
      let second := mount net s (Some (t +:+ "|" +:+ u)) first.1 in
      second.2 = first.2
      /\ second.1 = first.1
      /\ requests second.1 = requests b ++ [(s +:+ "|" +:+ t, "Bearer " +:+ u)]).
Proof.
  intros Hu.
  assert (Htu : t +:+ "|" +:+ u <> "") by (apply append_nonempty_r; discriminate).
  assert (Hkey : (s +:+ "|" +:+ t) +:+ "|" +:+ u = s +:+ "|" +:+ (t +:+ "|" +:+ u)).
  { rewrite string_app_assoc. f_equal. }
  split.
  - rewrite !cacheKey_present by assumption. by rewrite Hkey.
  - intros Hmiss Hnet first second. subst second first.
    rewrite (mount_fetched _ _ _ _ _ Hu Hmiss Hnet). cbn [fst snd].
    rewrite (mount_cached net s (t +:+ "|" +:+ u) _
               ("blob:" +:+ pretty (length (objectUrls b))) Htu).
    + cbn [fst snd requests]. auto.
    + cbn [imageCache]. rewrite <- Hkey. apply lookup_insert_eq.
    + discriminate.
Qed.

Lemma cacheKey_collision_witness :
  "k" <> ""
  /\ let first := mount Sample.online ("/img" +:+ "|" +:+ "a") (Some "k")
                    Sample.emptyBrowser in
     let second := mount More.offline "/img" (Some ("a" +:+ "|" +:+ "k")) first.1 in
     second.2 = first.2.
Proof.
  assert (Hk : "k" <> "") by discriminate.
  split; [exact Hk|].
  assert (E : mount More.offline "/img" (Some ("a" +:+ "|" +:+ "k"))
                (mount Sample.online ("/img" +:+ "|" +:+ "a") (Some "k")
                   Sample.emptyBrowser).1
              = mount Sample.online "/img" (Some ("a" +:+ "|" +:+ "k"))
                  (mount Sample.online ("/img" +:+ "|" +:+ "a") (Some "k")
                     Sample.emptyBrowser).1)
    by (vm_compute; reflexivity).
  cbv zeta. rewrite E.
  refine (proj1 (proj2 (cacheKey_collision Sample.online "/img" "a" "k"
                          Sample.emptyBrowser [Byte.x01] Hk) _ eq_refl)).
  vm_compute. reflexivity.
Defined.

(** A mount never changes or removes a cache entry, sends at most one
    request, and only ever adds to the requests and to the object URLs; an
    object URL is created only by a mount that has sent a request. *)
Theorem mount_preserves net src token b :
  (forall k v, imageCache b !! k = Some v ->
               imageCache (mount net src token b).1 !! k = Some v)
  /\ requests b `prefix_of` requests (mount net src token b).1
  /\ (length (requests (mount net src token b).1) <= S (length (requests b)))%nat
  /\ objectUrls b `prefix_of` objectUrls (mount net src token b).1
  /\ (objectUrls (mount net src token b).1 <> objectUrls b ->
      requests (mount net src token b).1 <> requests b).
Proof.
  assert (Hsame : forall r : string, (forall k v, imageCache b !! k = Some v ->
                                         imageCache (b, r).1 !! k = Some v)
                            /\ requests b `prefix_of` requests (b, r).1
                            /\ (length (requests (b, r).1) <= S (length (requests b)))%nat
                            /\ objectUrls b `prefix_of` objectUrls (b, r).1
                            /\ (objectUrls (b, r).1 <> objectUrls b ->
                                requests (b, r).1 <> requests b)).
  { intros r. cbn [fst]. repeat split; auto; try reflexivity. }
  assert (Hreq : forall (l : list (string * string)) x, l ++ [x] <> l).
  { intros l x E. apply (f_equal length) in E. rewrite length_app in E.
    simpl in E. lia. }
  unfold mount, loadEffect.
  destruct (truthy token) eqn:Ht; cbn [negb]; [|apply Hsame].
  unfold cacheKey. rewrite Ht. cbn [negb]. rewrite key_truthy. cbn [andb].
  destruct (bool_decide _) eqn:Hhit; [apply Hsame|].
  apply bool_decide_eq_false in Hhit.
  assert (Hmiss : imageCache b !! (src +:+ "|" +:+ default "" token) = None).
  { destruct (imageCache b !! _) eqn:E; [|reflexivity]. exfalso. apply Hhit. eauto. }
  unfold fetch.
  destruct (net _ _ _) as [|[|] [blob|]];
    cbn [fst snd imageCache requests objectUrls createObjectURL].
  - repeat split; auto; try (by apply prefix_app_r); try reflexivity.
    rewrite length_app. simpl. lia.
  - split; [|repeat split; auto; try (by apply prefix_app_r);
             rewrite length_app; simpl; lia].
    intros k v Hk. rewrite lookup_insert_ne; [exact Hk|]. intros <-. congruence.
  - repeat split; auto; try (by apply prefix_app_r); try reflexivity.
    rewrite length_app. simpl. lia.
  - repeat split; auto; try (by apply prefix_app_r); try reflexivity.
    rewrite length_app. simpl. lia.
  - repeat split; auto; try (by apply prefix_app_r); try reflexivity.
    rewrite length_app. simpl. lia.
Qed.

(** A failed fetch is not remembered: two mounts in a row for a pair whose
    fetch fails both fall back to the raw locator, leave the cache as it
    was and send one request each. *)
Theorem mount_failure_retry net src token b :
  token <> "" ->
  imageCache b !! (src +:+ "|" +:+ token) = None ->
  (forall n, net n src ("Bearer " +:+ token) = Rejected
             \/ exists blob, net n src ("Bearer " +:+ token) = Responded false blob) ->
  let first := mount net src (Some token) b in
  let second := mount net src (Some token) first.1 in
  first.2 = src /\ second.2 = src
  /\ imageCache second.1 = imageCache b
  /\ requests second.1
     = requests b ++ [(src, "Bearer " +:+ token); (src, "Bearer " +:+ token)].
Proof.
  intros Ht Hmiss Hnet first second. subst second first.
  rewrite (mount_failed net src token b Ht Hmiss (Hnet _)). cbn [fst snd].
  rewrite (mount_failed net src token _ Ht); [| exact Hmiss | apply Hnet].
  cbn [fst snd imageCache requests]. rewrite <- app_assoc. auto.
Qed.

Lemma mount_failure_retry_witness :
  "t0" <> ""
  /\ requests (mount More.offline "/img/1" (Some "t0")
                 (mount More.offline "/img/1" (Some "t0") Sample.emptyBrowser).1).1
     = [("/img/1", "Bearer t0"); ("/img/1", "Bearer t0")].
Proof.
  assert (Ht : "t0" <> "") by discriminate.
  split; [exact Ht|].
  refine (proj2 (proj2 (proj2 (mount_failure_retry More.offline "/img/1" "t0"
                                 Sample.emptyBrowser Ht _ _)))).
  - vm_compute. reflexivity.
  - intros n. by left.
Defined.

End CacheMore.

(** ** Comments and essays: who may delete what *)

Section Moderation.
Import Backend Handlers.

Lemma eqb_false_ne (a b : string) : String.eqb a b = false -> a <> b.
Proof. intros H. by apply String.eqb_neq. Qed.

Lemma admits_unfold db slug o a :
  admits db slug o a ->
  app (pickAccessibleAppInstance db slug o) = Some a
  /\ negb (allowed (pickAccessibleAppInstance db slug o)) = false.
Proof. intros [Ha Hb]. by rewrite Ha, Hb. Qed.

(** A branch of a deletion handler that answers without touching the
    table. *)
Ltac refused :=
  cbn [fst snd]; repeat split; try congruence; try discriminate; eauto 10.

(** The branch that deletes the row under [key]. *)
Ltac removed key :=
  cbn [fst snd]; repeat split; try discriminate; eauto;
  repeat match goal with
  | H : delete key _ !! ?id = None |- _ =>
      destruct (decide (id = key)) as [->|?];
      [ first [reflexivity | congruence | left; congruence | auto]
      | rewrite lookup_delete_ne in H by congruence; congruence ]
  | |- forall id c, delete key _ !! id = Some c -> _ =>
      let id := fresh "id" in
      intros id ?; destruct (decide (id = key)) as [->|?];
      [ rewrite lookup_delete_eq; discriminate
      | by rewrite lookup_delete_ne by congruence ]
  end.

(** [deleteComment] removes at most the named comment, and only when the
    caller is admitted to the tenant of the slug, the comment hangs on
    the post named in the URL, and the caller wrote it or is an
    administrator or editor; every other row stays as it was.  The reply
    is 403 exactly when all but the last of these hold. *)
Theorem deleteComment_guard db comments slug postId commentId u :
  let result := deleteComment db comments slug postId commentId u in
  (forall id c, comments !! id = Some c -> result.1 !! id = None ->
     id = commentId /\ comment_postId c = postId
     /\ (comment_userId c = user_id u \/ role u = "ADMIN" \/ role u = "EDITOR")
     /\ (exists a, admits db slug (Some u) a)
     /\ result.2 = Done 204 tt)
  /\ (forall id c, result.1 !! id = Some c -> comments !! id = Some c)
  /\ (result.2 = Done 204 tt -> result.1 = delete commentId comments)
  /\ (result.2 = Fail 403 "Forbidden" <->
      (exists a, admits db slug (Some u) a)
      /\ exists c, comments !! commentId = Some c /\ comment_postId c = postId
                   /\ comment_userId c <> user_id u
                   /\ role u <> "ADMIN" /\ role u <> "EDITOR").
Proof.
  unfold deleteComment, admits.
  destruct (app _) as [a|] eqn:Happ; cbn zeta.
  2:{ refused. intros [[a [? _]] _]. discriminate. }
  destruct (allowed _) eqn:Hal; cbn [negb].
  2:{ refused. intros [[a' [_ ?]] _]. discriminate. }
  destruct (comments !! commentId) as [c0|] eqn:Hc.
  2:{ refused. intros [_ [c [? _]]]. discriminate. }
  destruct (String.eqb (comment_postId c0) postId) eqn:Hp; cbn [negb].
  2:{ apply eqb_false_ne in Hp. refused. intros [_ [c [? [? _]]]]. congruence. }
  apply String.eqb_eq in Hp.
  destruct (String.eqb (comment_userId c0) (user_id u)) eqn:Hau; cbn [negb andb].
  { apply String.eqb_eq in Hau. removed commentId.
    intros [_ [c [? [_ [? _]]]]]. congruence. }
  apply eqb_false_ne in Hau.
  destruct (String.eqb (role u) "ADMIN") eqn:Hadm; cbn [orb negb].
  { apply String.eqb_eq in Hadm. removed commentId.
    intros [_ [c [_ [_ [_ [? _]]]]]]. congruence. }
  apply eqb_false_ne in Hadm.
  destruct (String.eqb (role u) "EDITOR") eqn:Hed; cbn [negb].
  { apply String.eqb_eq in Hed. removed commentId.
    intros [_ [c [_ [_ [_ [_ ?]]]]]]. congruence. }
  apply eqb_false_ne in Hed. refused.
Qed.

(** [deleteEssay] removes at most the named essay, under the same
    conditions: admitted caller, essay on the post named in the URL,
    author or administrator or editor. *)
Theorem deleteEssay_guard db essays slug postId essayId u :
  let result := deleteEssay db essays slug postId essayId u in
  (forall id e, essays !! id = Some e -> result.1 !! id = None ->
     id = essayId /\ essay_postId e = postId
     /\ (essay_userId e = user_id u \/ role u = "ADMIN" \/ role u = "EDITOR")
     /\ (exists a, admits db slug (Some u) a)
     /\ result.2 = Done 204 tt)
  /\ (forall id e, result.1 !! id = Some e -> essays !! id = Some e)
  /\ (result.2 = Done 204 tt -> result.1 = delete essayId essays)
  /\ (result.2 = Fail 403 "Forbidden" <->
      (exists a, admits db slug (Some u) a)
      /\ exists e, essays !! essayId = Some e /\ essay_postId e = postId
                   /\ essay_userId e <> user_id u
                   /\ role u <> "ADMIN" /\ role u <> "EDITOR").
Proof.
  unfold deleteEssay, admits.
  destruct (app _) as [a|] eqn:Happ; cbn zeta.
  2:{ refused. intros [[a [? _]] _]. discriminate. }
  destruct (allowed _) eqn:Hal; cbn [negb].
  2:{ refused. intros [[a' [_ ?]] _]. discriminate. }
  destruct (essays !! essayId) as [e0|] eqn:Hc.
  2:{ refused. intros [_ [e [? _]]]. discriminate. }
  destruct (String.eqb (essay_postId e0) postId) eqn:Hp; cbn [negb].
  2:{ apply eqb_false_ne in Hp. refused. intros [_ [e [? [? _]]]]. congruence. }
  apply String.eqb_eq in Hp.
  destruct (String.eqb (essay_userId e0) (user_id u)) eqn:Hau; cbn [negb andb].
  { apply String.eqb_eq in Hau. removed essayId.
    intros [_ [e [? [_ [? _]]]]]. congruence. }
  apply eqb_false_ne in Hau.
  destruct (String.eqb (role u) "ADMIN") eqn:Hadm; cbn [orb negb].
  { apply String.eqb_eq in Hadm. removed essayId.
    intros [_ [e [_ [_ [_ [? _]]]]]]. congruence. }
  apply eqb_false_ne in Hadm.
  destruct (String.eqb (role u) "EDITOR") eqn:Hed; cbn [negb].
  { apply String.eqb_eq in Hed. removed essayId.
    intros [_ [e [_ [_ [_ [_ ?]]]]]]. congruence. }
  apply eqb_false_ne in Hed. refused.
Qed.

(** Neither deletion handler looks at the post: under every slug that
    admits the caller the outcome is the same, so a comment or an essay
    on another tenant's post is deleted through any tenant the caller
    can enter. *)
Theorem delete_under_any_slug db comments essays slug slug' postId rowId u a a' :
  admits db slug (Some u) a ->
  admits db slug' (Some u) a' ->
  deleteComment db comments slug postId rowId u
  = deleteComment db comments slug' postId rowId u
  /\ deleteEssay db essays slug postId rowId u
     = deleteEssay db essays slug' postId rowId u.
Proof.
  intros [Ha Hal]%admits_unfold [Ha' Hal']%admits_unfold.
  unfold deleteComment, deleteEssay. cbn zeta.
  by rewrite Ha, Hal, Ha', Hal'.
Qed.

Lemma delete_under_any_slug_witness :
  admits Sample.db "travel" (Some Sample.alice) Sample.travel
  /\ admits Sample.db "family" (Some Sample.alice) Sample.family
  /\ deleteComment Sample.db Cases.comments "travel" "p2" "c1" Sample.alice
     = deleteComment Sample.db Cases.comments "family" "p2" "c1" Sample.alice.
Proof.
  assert (H1 : admits Sample.db "travel" (Some Sample.alice) Sample.travel)
    by (split; vm_compute; reflexivity).
  assert (H2 : admits Sample.db "family" (Some Sample.alice) Sample.family)
    by (split; vm_compute; reflexivity).
  split; [exact H1|]. split; [exact H2|].
  exact (proj1 (delete_under_any_slug Sample.db Cases.comments Cases.essays
                  "travel" "family" "p2" "c1" Sample.alice _ _ H1 H2)).
Defined.

End Moderation.

(** ** Posts: lookup by tenant, deletion, and the comment round trip *)

Section PostScope.
Import Backend Handlers.

Lemma findPostById_none posts id appId :
  (forall p, p ∈ posts -> post_id p = id -> post_app p <> appId) ->
  findPostById posts id appId = None.
Proof.
  unfold findPostById. induction posts as [|q posts IH]; intros H; [reflexivity|].
  simpl. destruct (String.eqb (post_id q) id) eqn:E1; cbn [andb].
  - destruct (String.eqb (post_app q) appId) eqn:E2.
    + apply String.eqb_eq in E1, E2. exfalso.
      exact (H q (list_elem_of_here _ _) E1 E2).
    + apply IH. intros p Hp. apply H. by apply list_elem_of_further.
  - apply IH. intros p Hp. apply H. by apply list_elem_of_further.
Qed.

Lemma findPostById_some posts id appId p :
  findPostById posts id appId = Some p ->
  p ∈ posts /\ post_id p = id /\ post_app p = appId.
Proof.
  unfold findPostById. intros H. apply find_some in H as [Hin Hb].
  apply andb_true_iff in Hb as [H1 H2]. apply String.eqb_eq in H1, H2.
  split; [by apply list_elem_of_In | auto].
Qed.

Lemma findPostById_found posts id appId p :
  p ∈ posts -> post_id p = id -> post_app p = appId ->
  is_Some (findPostById posts id appId).
Proof.
  intros Hin H1 H2. destruct (findPostById posts id appId) eqn:E; [eauto|].
  exfalso. unfold findPostById in E.
  apply list_elem_of_In in Hin. apply (find_none _ _ E) in Hin.
  rewrite H1, H2, !String.eqb_refl in Hin. discriminate.
Qed.

Lemma insertDesc_perm {A} (key : A -> Z) x l : insertDesc key x l ≡ₚ x :: l.
Proof.
  induction l as [|y l IH]; simpl; [reflexivity|].
  destruct (key y <=? key x); [reflexivity|].
  rewrite IH. apply Permutation_swap.
Qed.

Lemma orderByDesc_perm {A} (key : A -> Z) l : orderByDesc key l ≡ₚ l.
Proof.
  unfold orderByDesc. induction l as [|x l IH]; simpl; [reflexivity|].
  by rewrite insertDesc_perm, IH.
Qed.

(** The post handlers that look a post up do so inside the tenant of the
    slug: for a post id that only other tenants use, reading the post,
    listing its comments, commenting and writing an essay all answer
    404 "Post not found" and leave the tables as they were. *)
Theorem post_lookup_scoped db posts comments essays slug id o a :
  admits db slug o a ->
  (forall p, p ∈ posts -> post_id p = id -> post_app p <> app_id a) ->
  getPost db posts slug id o = Fail 404 "Post not found"
  /\ listComments db posts comments slug id o = Fail 404 "Post not found"
  /\ (forall u content newId now, o = Some u ->
        createComment db posts comments slug id u (Some content) newId now
        = (comments, Fail 404 "Post not found"))
  /\ (forall u body newId now, o = Some u ->
        createEssay db posts essays slug id u (Some body) newId now
        = (essays, Fail 404 "Post not found")).
Proof.
  intros [Ha Hal]%admits_unfold Hother.
  pose proof (findPostById_none _ _ _ Hother) as Hnone.
  unfold getPost, listComments, createComment, createEssay. cbn zeta.
  rewrite Ha, Hal, Hnone. repeat split.
  - intros u content newId now ->. by rewrite Ha, Hal, Hnone.
  - intros u [title content] newId now ->. by rewrite Ha, Hal, Hnone.
Qed.

Lemma post_lookup_scoped_witness :
  admits Sample.db "travel" None Sample.travel
  /\ getPost Sample.db Cases.posts "travel" "p2" None = Fail 404 "Post not found"
  /\ listComments Sample.db Cases.posts Cases.comments "travel" "p2" None
     = Fail 404 "Post not found".
Proof.
  assert (H1 : admits Sample.db "travel" None Sample.travel)
    by (split; vm_compute; reflexivity).
  split; [exact H1|].
  assert (H2 : forall p, p ∈ Cases.posts -> post_id p = "p2" ->
                         post_app p <> app_id Sample.travel).
  { intros p Hp Hid. unfold Cases.posts in Hp.
    repeat (apply elem_of_cons in Hp as [->|Hp]); try discriminate.
    inversion Hp. }
  pose proof (post_lookup_scoped Sample.db Cases.posts Cases.comments Cases.essays
                "travel" "p2" None Sample.travel H1 H2) as (Hg & Hl & _).
  exact (conj Hg Hl).
Defined.

(** [listEssays] does not look the post up: a caller admitted to the
    tenant of the slug is given every essay stored under the post id,
    whichever tenant the post belongs to. *)
Theorem listEssays_any_post db essays slug id o a :
  admits db slug o a ->
  exists rows, listEssays db essays slug id o = Done 200 rows
    /\ rows ≡ₚ filter (fun r => essay_postId r.2 = id) (map_to_list essays)
    /\ forall k e, (k, e) ∈ rows <-> essays !! k = Some e /\ essay_postId e = id.
Proof.
  intros [Ha Hal]%admits_unfold. unfold listEssays. cbn zeta. rewrite Ha, Hal.
  eexists. split; [reflexivity|]. unfold essaysOf. split; [apply orderByDesc_perm|].
  intros k e. rewrite orderByDesc_perm, list_elem_of_filter, elem_of_map_to_list.
  cbn [snd]. tauto.
Qed.

Lemma listEssays_any_post_witness :
  admits Sample.db "travel" None Sample.travel
  /\ exists rows, listEssays Sample.db Cases.essays "travel" "p2" None = Done 200 rows
       /\ ("e1", mkEssay "p2" "u1" None "a day out" 220) ∈ rows.
Proof.
  assert (H1 : admits Sample.db "travel" None Sample.travel)
    by (split; vm_compute; reflexivity).
  split; [exact H1|].
  destruct (listEssays_any_post Sample.db Cases.essays "travel" "p2" None
              Sample.travel H1) as (rows & Heq & _ & Hrows).
  exists rows. split; [exact Heq|].
  apply Hrows. split; vm_compute; reflexivity.
Defined.

(** The short-text routes are the essay routes under another path: the
    three handlers agree on every input. *)
Theorem shortTexts_alias db posts essays slug id o u body newId now essayId :
  listShortTexts db essays slug id o = listEssays db essays slug id o
  /\ createShortText db posts essays slug id u body newId now
     = createEssay db posts essays slug id u body newId now
  /\ deleteShortText db essays slug id essayId u
     = deleteEssay db essays slug id essayId u.
Proof. repeat split. Qed.

Lemma filter_twice {A} (P : A -> Prop) `{!forall x, Decision (P x)} (l : list A) :
  filter P (filter P l) = filter P l.
Proof.
  induction l as [|x l IH]; [reflexivity|].
  rewrite (filter_cons P x l). destruct (decide (P x)) as [Hx|Hx]; [|exact IH].
  rewrite (filter_cons P x (filter P l)). destruct (decide (P x)); [|contradiction].
  by rewrite IH.
Qed.

Lemma elevated_app_allowed db slug u a :
  role u = "ADMIN" \/ role u = "EDITOR" ->
  app (pickAccessibleAppInstance db slug (Some u)) = Some a ->
  admits db slug (Some u) a.
Proof.
  intros Hr Ha. split; [exact Ha|]. revert Ha.
  assert (Hp : isPrivileged (Some u) = true).
  { cbn [isPrivileged]. destruct Hr as [-> | ->]; reflexivity. }
  unfold pickAccessibleAppInstance.
  destruct (appInstance db !! slug) as [a0|]; [|discriminate].
  destruct (negb (String.eqb (app_type a0) "PHOTO_STORY")); [discriminate|].
  rewrite Hp. cbn [negb andb]. rewrite orb_true_r. reflexivity.
Qed.

(** Behind a role guard that passes on only administrators and editors,
    [deletePost] removes exactly the rows with the given id that belong
    to the tenant of the slug, to which the caller is then admitted, and
    keeps the others in their order.  A caller the guard passes gets 204
    whenever the tenant is found, whether or not a row was removed; a
    caller the guard answers gets that answer and the table is left as it
    was; and doing it a second time changes nothing. *)
Theorem deletePost_scoped authorizeRole db posts slug id u :
  (forall v, authorizeRole ["ADMIN"; "EDITOR"] v = None ->
             role v = "ADMIN" \/ role v = "EDITOR") ->
  let result := deletePost authorizeRole db posts slug id u in
  (forall p, p ∈ posts -> p ∉ result.1 ->
     post_id p = id
     /\ (role u = "ADMIN" \/ role u = "EDITOR")
     /\ exists a, admits db slug (Some u) a /\ post_app p = app_id a)
  /\ result.1 `sublist_of` posts
  /\ deletePost authorizeRole db result.1 slug id u = result
  /\ (authorizeRole ["ADMIN"; "EDITOR"] u = None ->
      forall a, app (pickAccessibleAppInstance db slug (Some u)) = Some a ->
        result.2 = Done 204 tt
        /\ forall p, p ∈ result.1 -> ~ (post_id p = id /\ post_app p = app_id a))
  /\ (forall refusal, authorizeRole ["ADMIN"; "EDITOR"] u = Some refusal ->
        result = (posts, refusal)).
Proof.
  intros Hguard. unfold deletePost. cbn zeta.
  destruct (authorizeRole ["ADMIN"; "EDITOR"] u) as [refusal|] eqn:Hg; cbn [fst snd].
  { split; [|split; [|split; [|split]]].
    - intros p Hin Hout. contradiction.
    - reflexivity.
    - reflexivity.
    - discriminate.
    - by intros ? [= <-]. }
  apply Hguard in Hg as Hrole.
  destruct (app _) as [a|] eqn:Ha; cbn [fst snd].
  - split; [|split; [|split; [|split]]].
    + intros p Hin Hout.
      destruct (decide (post_id p = id /\ post_app p = app_id a)) as [[H1 H2]|Hn].
      * split; [exact H1|]. split; [exact Hrole|]. exists a.
        split; [by apply elevated_app_allowed | exact H2].
      * exfalso. apply Hout. apply list_elem_of_filter. by split.
    + apply sublist_filter.
    + by rewrite filter_twice.
    + intros _ a' [= <-]. split; [reflexivity|].
      intros p Hp. by apply list_elem_of_filter in Hp as [Hp _].
    + discriminate.
  - split; [|split; [|split; [|split]]].
    + intros p Hin Hout. contradiction.
    + reflexivity.
    + reflexivity.
    + intros _ a' [=].
    + discriminate.
Qed.

Lemma deletePost_scoped_witness :
  (forall v, Cases.rolesOnly ["ADMIN"; "EDITOR"] v = None ->
             role v = "ADMIN" \/ role v = "EDITOR")
  /\ deletePost Cases.rolesOnly Sample.db Cases.posts "family" "p2" Sample.root
     = ([Cases.beach; Cases.harbour], Done 204 tt)
  /\ deletePost Cases.rolesOnly Sample.db Cases.posts "family" "p2" Sample.bob
     = (Cases.posts, Fail 403 "Forbidden").
Proof.
  assert (Hg : forall v, Cases.rolesOnly ["ADMIN"; "EDITOR"] v = None ->
                         role v = "ADMIN" \/ role v = "EDITOR").
  { intros v. unfold Cases.rolesOnly. cbn [existsb].
    destruct (String.eqb (role v) "ADMIN") eqn:E1; [apply String.eqb_eq in E1; auto|].
    destruct (String.eqb (role v) "EDITOR") eqn:E2; [apply String.eqb_eq in E2; auto|].
    discriminate. }
  split; [exact Hg|]. split; [vm_compute; reflexivity|].
  exact (proj2 (proj2 (proj2 (proj2
           (deletePost_scoped Cases.rolesOnly Sample.db Cases.posts "family" "p2"
              Sample.bob Hg)))) (Fail 403 "Forbidden") eq_refl).
Defined.

(** A comment that has just been created is listed under its post and
    can be deleted by its author, which gives back the table as it was
    before. *)
Theorem comment_round_trip db posts comments slug id u a p content newId now :
  admits db slug (Some u) a ->
  p ∈ posts -> post_id p = id -> post_app p = app_id a ->
  comments !! newId = None ->
  let comment := mkComment id (user_id u) content now in
  let created := createComment db posts comments slug id u (Some content) newId now in
  created = (<[newId := comment]> comments, Done 201 (newId, comment))
  /\ (exists rows, listComments db posts created.1 slug id (Some u) = Done 200 rows
                  /\ (newId, comment) ∈ rows)
  /\ deleteComment db created.1 slug id newId u = (comments, Done 204 tt).
Proof.
  intros Hadm Hin Hid Happ Hfresh comment created.
  pose proof Hadm as [Ha Hal]%admits_unfold.
  destruct (findPostById_found posts id (app_id a) p Hin Hid Happ) as [q Hq].
  assert (Hc : created = (<[newId := comment]> comments, Done 201 (newId, comment))).
  { subst created. unfold createComment. cbn zeta. by rewrite Ha, Hal, Hq. }
  rewrite Hc. cbn [fst]. split; [reflexivity|]. split.
  - unfold listComments. cbn zeta. rewrite Ha, Hal, Hq.
    eexists. split; [reflexivity|]. unfold commentsOf.
    rewrite orderByDesc_perm, list_elem_of_filter, elem_of_map_to_list.
    split; [reflexivity | apply lookup_insert_eq].
  - unfold deleteComment. cbn zeta. rewrite Ha, Hal, lookup_insert_eq.
    subst comment. cbn [comment_postId comment_userId].
    rewrite !String.eqb_refl. cbn [negb andb].
    by rewrite delete_insert_id.
Qed.

Lemma comment_round_trip_witness :
  admits Sample.db "family" (Some Sample.alice) Sample.family
  /\ Cases.comments !! "c9" = None
  /\ deleteComment Sample.db
       (createComment Sample.db Cases.posts Cases.comments "family" "p2" Sample.alice
          (Some "hello") "c9" 500).1
       "family" "p2" "c9" Sample.alice
     = (Cases.comments, Done 204 tt).
Proof.
  assert (H1 : admits Sample.db "family" (Some Sample.alice) Sample.family)
    by (split; vm_compute; reflexivity).
  assert (H2 : Cases.comments !! "c9" = None) by (vm_compute; reflexivity).
  split; [exact H1|]. split; [exact H2|].
  refine (proj2 (proj2 (comment_round_trip Sample.db Cases.posts Cases.comments
                          "family" "p2" Sample.alice Sample.family Cases.picnic
                          "hello" "c9" 500 H1 _ eq_refl eq_refl H2))).
  unfold Cases.posts. apply list_elem_of_further, list_elem_of_here.
Defined.

End PostScope.

(** ** The post list: pages and tenant scope *)

Section PostList.
Import Backend Handlers.

Lemma ceilDiv_bounds n lim :
  1 <= lim -> (ceilDiv n lim - 1) * lim < n <= ceilDiv n lim * lim.
Proof.
  intros Hl. unfold ceilDiv.
  pose proof (Z.div_mod (- n) lim ltac:(lia)) as Hdm.
  pose proof (Z.mod_pos_bound (- n) lim ltac:(lia)) as Hb.
  nia.
Qed.

Lemma chunks_take {A} (l : list A) (size k : nat) :
  concat (map (fun i => take size (drop (i * size) l)) (seq 0 k))
  = take (k * size) l.
Proof.
  induction k as [|k IH]; [reflexivity|].
  rewrite seq_S, map_app, concat_app, IH. cbn [map concat Nat.add].
  rewrite app_nil_r, take_take_drop. f_equal. lia.
Qed.

Lemma listPosts_admitted db posts slug o tag pg a :
  admits db slug o a ->
  listPosts db posts slug o tag (Some pg)
  = Done 200
      (mkPostList
         (take (Z.to_nat (limit pg))
            (drop (Z.to_nat ((page pg - 1) * limit pg))
               (orderByDesc post_createdAt
                  (filter (fun p => matchesWhere (app_id a) (queryTag tag) p = true)
                     posts))))
         (mkMeta
            (Z.of_nat (length (filter
               (fun p => matchesWhere (app_id a) (queryTag tag) p = true) posts)))
            (page pg) (limit pg)
            (ceilDiv (Z.of_nat (length (filter
               (fun p => matchesWhere (app_id a) (queryTag tag) p = true) posts)))
               (limit pg)))).
Proof.
  intros [Ha Hal]%admits_unfold. unfold listPosts. cbn zeta. by rewrite Ha, Hal.
Qed.

Lemma insertDesc_sorted {A} (key : A -> Z) x l :
  StronglySorted (fun a b => key b <= key a) l ->
  StronglySorted (fun a b => key b <= key a) (insertDesc key x l).
Proof.
  induction l as [|y l IH]; intros Hs; simpl.
  - constructor; constructor.
  - apply StronglySorted_inv in Hs as [Hs Hy].
    destruct (key y <=? key x) eqn:E.
    + apply Z.leb_le in E. constructor.
      * by constructor.
      * constructor; [exact E|].
        eapply Forall_impl; [exact Hy|]. cbv beta. intros z Hz. lia.
    + apply Z.leb_gt in E. constructor; [by apply IH|].
      rewrite insertDesc_perm. constructor; [lia | exact Hy].
Qed.

Lemma orderByDesc_sorted {A} (key : A -> Z) l :
  StronglySorted (fun a b => key b <= key a) (orderByDesc key l).
Proof.
  unfold orderByDesc. induction l as [|x l IH]; simpl; [constructor|].
  by apply insertDesc_sorted.
Qed.

Lemma distinct_keys_inj {A} (key : A -> Z) l x y :
  NoDup (map key l) -> x ∈ l -> y ∈ l -> key x = key y -> x = y.
Proof.
  induction l as [|z l IH]; intros Hnd Hx Hy E; [inversion Hx|].
  simpl in Hnd. apply NoDup_cons in Hnd as [Hz Hnd].
  apply elem_of_cons in Hx as [->|Hx]; apply elem_of_cons in Hy as [->|Hy].
  - reflexivity.
  - exfalso. apply Hz. rewrite E. change (map key l) with (key <$> l).
    apply list_elem_of_fmap. eauto.
  - exfalso. apply Hz. rewrite <- E. change (map key l) with (key <$> l).
    apply list_elem_of_fmap. eauto.
  - by apply IH.
Qed.

(** Rows of pairwise distinct times have one newest-first order. *)
Lemma sorted_unique {A} (key : A -> Z) l1 l2 :
  NoDup (map key l1) ->
  l1 ≡ₚ l2 ->
  StronglySorted (fun a b => key b <= key a) l1 ->
  StronglySorted (fun a b => key b <= key a) l2 ->
  l1 = l2.
Proof.
  revert l2. induction l1 as [|x l1 IH]; intros l2 Hnd Hp H1 H2.
  - by apply Permutation_nil in Hp.
  - destruct l2 as [|y l2]; [by apply Permutation_sym, Permutation_nil in Hp|].
    apply StronglySorted_inv in H1 as [H1 Hx], H2 as [H2 Hy].
    assert (Hxin : x ∈ y :: l2) by (rewrite <- Hp; apply list_elem_of_here).
    assert (Hyin : y ∈ x :: l1) by (rewrite Hp; apply list_elem_of_here).
    assert (E : key x = key y).
    { apply Z.le_antisymm.
      - apply elem_of_cons in Hxin as [->|Hin]; [lia|].
        by apply (proj1 (Forall_forall _ _) Hy).
      - apply elem_of_cons in Hyin as [->|Hin]; [lia|].
        by apply (proj1 (Forall_forall _ _) Hx). }
    assert (x = y).
    { apply (distinct_keys_inj key (x :: l1)); auto. apply list_elem_of_here. }
    subst y. f_equal. apply IH; [| |assumption..].
    + simpl in Hnd. by apply NoDup_cons in Hnd as [_ ?].
    + by apply Permutation_cons_inv in Hp.
Qed.

(** For an admitted caller and a positive page size, every reply of the
    post list reports the number of the tenant's matching posts and the
    same page count; every page before the last is full, the last one is
    not empty, every later page is empty.  When the matching posts have
    pairwise distinct creation times, so that their newest-first order is
    forced, the pages 1 to [totalPages], put one after the other, are the
    matching posts in that order, each exactly once. *)
Theorem listPosts_pages_cover db posts slug o tag lim a :
  admits db slug o a ->
  1 <= lim ->
  let reply p := listPosts db posts slug o tag (Some (mkPagination p lim)) in
  let matching := filter (fun p => matchesWhere (app_id a) (queryTag tag) p = true)
                    posts in
  let pages := ceilDiv (Z.of_nat (length matching)) lim in
  (forall p, exists rows,
      reply p
      = Done 200 (mkPostList rows (mkMeta (Z.of_nat (length matching)) p lim pages)))
  /\ (forall p, 1 <= p < pages -> Z.of_nat (length (rowsOf (reply p))) = lim)
  /\ (0 < pages -> rowsOf (reply pages) <> [])
  /\ (forall p, pages < p -> rowsOf (reply p) = [])
  /\ (NoDup (map post_createdAt matching) ->
      forall sorted,
        sorted ≡ₚ matching ->
        newestFirst sorted ->
        concat (map (fun p => rowsOf (reply p)) (seqZ 1 pages)) = sorted).
Proof.
  intros Hadm Hlim reply matching pages.
  set (all := orderByDesc post_createdAt matching).
  assert (Hlen : length matching = length all).
  { subst all. by rewrite orderByDesc_perm. }
  assert (Hreply : forall p, reply p
            = Done 200 (mkPostList
                (take (Z.to_nat lim) (drop (Z.to_nat ((p - 1) * lim)) all))
                (mkMeta (Z.of_nat (length matching)) p lim pages))).
  { intros p. subst reply. cbv beta.
    by rewrite (listPosts_admitted _ _ _ _ _ _ a Hadm). }
  assert (Hrows : forall p, rowsOf (reply p)
                            = take (Z.to_nat lim) (drop (Z.to_nat ((p - 1) * lim)) all)).
  { intros p. by rewrite Hreply. }
  pose proof (ceilDiv_bounds (Z.of_nat (length matching)) lim Hlim) as Hc.
  fold pages in Hc. rewrite Hlen in Hc.
  assert (Hskip : forall p, 1 <= p ->
            Z.to_nat ((p - 1) * lim) = (Z.to_nat (p - 1) * Z.to_nat lim)%nat).
  { intros p Hp. rewrite Z2Nat.inj_mul by lia. reflexivity. }
  split; [|split; [|split; [|split]]].
  - intros p. eexists. apply Hreply.
  - intros p Hp. rewrite Hrows, length_take, length_drop, Hskip by lia. nia.
  - intros Hpos. rewrite Hrows. intros Hnil. apply (f_equal length) in Hnil.
    rewrite length_take, length_drop, Hskip in Hnil by lia. cbn [length] in Hnil. nia.
  - intros p Hp. rewrite Hrows. rewrite drop_ge; [by rewrite take_nil|].
    rewrite Hskip by nia. nia.
  - intros Hnd sorted Hperm Hsorted.
    assert (Hall : concat (map (fun p => rowsOf (reply p)) (seqZ 1 pages)) = all).
    { unfold seqZ. rewrite <- list_fmap_compose.
      rewrite (list_fmap_ext _ (fun i => take (Z.to_nat lim)
                                         (drop (i * Z.to_nat lim) all))).
      2:{ intros i x _. cbn [compose]. rewrite Hrows. do 2 f_equal.
          rewrite Hskip by lia. f_equal. lia. }
      change (concat (map (fun i => take (Z.to_nat lim) (drop (i * Z.to_nat lim) all))
                        (seq 0 (Z.to_nat pages))) = all).
      rewrite chunks_take. apply take_ge. nia. }
    rewrite Hall. symmetry.
    apply (sorted_unique post_createdAt); [| |exact Hsorted|apply orderByDesc_sorted].
    + by rewrite Hperm.
    + subst all. by rewrite orderByDesc_perm.
Qed.

Lemma listPosts_pages_cover_witness :
  admits Sample.db "travel" None Sample.travel
  /\ 1 <= 1
  /\ NoDup (map post_createdAt [Cases.beach; Cases.harbour])
  /\ concat (map (fun p => rowsOf (listPosts Sample.db Cases.posts "travel" None None
                                    (Some (mkPagination p 1))))
               (seqZ 1 2))
     = [Cases.harbour; Cases.beach].
Proof.
  assert (H1 : admits Sample.db "travel" None Sample.travel)
    by (split; vm_compute; reflexivity).
  assert (H2 : 1 <= 1) by lia.
  assert (H3 : NoDup (map post_createdAt [Cases.beach; Cases.harbour])).
  { repeat constructor; [|apply not_elem_of_nil].
    intros [E|E]%elem_of_cons; [discriminate | inversion E]. }
  split; [exact H1|]. split; [exact H2|]. split; [exact H3|].
  refine (proj2 (proj2 (proj2 (proj2
            (listPosts_pages_cover Sample.db Cases.posts "travel" None None
               1 Sample.travel H1 H2)))) H3 [Cases.harbour; Cases.beach] _ _).
  - apply perm_swap.
  - repeat constructor. vm_compute. discriminate.
Defined.

(** Every row of a post list is a stored post of the tenant of the slug,
    to which the caller is admitted, and carries the tag asked for when
    one is given.  A tag parameter that is empty or not a single string
    is the same as none. *)
Theorem listPosts_scoped db posts slug o tag pg :
  (forall row, row ∈ rowsOf (listPosts db posts slug o tag (Some pg)) ->
     row ∈ posts
     /\ (exists a, admits db slug o a /\ post_app row = app_id a)
     /\ (forall t, tag = Some (QString t) -> t <> "" -> t ∈ post_tags row))
  /\ (tag = Some QOther \/ tag = Some (QString "") ->
      listPosts db posts slug o tag (Some pg) = listPosts db posts slug o None (Some pg)).
Proof.
  split.
  - unfold listPosts. cbn zeta.
    destruct (app _) as [a|] eqn:Ha; [|intros row Hrow; inversion Hrow].
    destruct (allowed _) eqn:Hal; cbn [negb]; [|intros row Hrow; inversion Hrow].
    cbn [rowsOf data]. intros row Hrow.
    pose proof (elem_of_sublist _ _ _ Hrow (sublist_take _ _)) as Hin.
    pose proof (elem_of_sublist _ _ _ Hin (sublist_drop _ _)) as Hin'.
    rewrite orderByDesc_perm in Hin'.
    apply list_elem_of_filter in Hin' as [Hm Hp].
    unfold matchesWhere in Hm. apply andb_true_iff in Hm as [Happ Htag].
    apply String.eqb_eq in Happ.
    split; [exact Hp|]. split; [exists a; by repeat split|].
    intros t -> Ht. cbn [queryTag] in Htag.
    rewrite (truthy_token t Ht) in Htag. cbn [default from_option id] in Htag.
    apply existsb_exists in Htag as (t' & Hin'' & ->%String.eqb_eq).
    by apply list_elem_of_In.
  - intros [-> | ->]; reflexivity.
Qed.

End PostList.

(** ** The tag list of a post *)

Section TagList.
Import Backend Handlers.
Variable trim : string -> string.

Lemma insertionOrder_elem seen xs x :
  x ∈ insertionOrder seen xs <-> x ∈ xs /\ x ∉ seen.
Proof.
  revert seen. induction xs as [|y xs IH]; intros seen; simpl.
  - rewrite !elem_of_nil. tauto.
  - destruct (bool_decide (y ∈ seen)) eqn:E.
    + apply bool_decide_eq_true in E. rewrite IH, elem_of_cons.
      split; [tauto|]. intros [[->|?] ?]; [contradiction | tauto].
    + apply bool_decide_eq_false in E. rewrite !elem_of_cons, IH, not_elem_of_cons.
      destruct (decide (x = y)) as [->|Hne]; tauto.
Qed.

Lemma insertionOrder_NoDup seen xs : NoDup (insertionOrder seen xs).
Proof.
  revert seen. induction xs as [|y xs IH]; intros seen; simpl; [constructor|].
  destruct (bool_decide (y ∈ seen)); [apply IH|].
  constructor; [|apply IH].
  rewrite insertionOrder_elem, not_elem_of_cons. tauto.
Qed.

Lemma insertionOrder_sublist seen xs : insertionOrder seen xs `sublist_of` xs.
Proof.
  revert seen. induction xs as [|y xs IH]; intros seen; simpl; [constructor|].
  destruct (bool_decide (y ∈ seen)); [apply sublist_cons | apply sublist_skip]; apply IH.
Qed.

(** Adding a value at the end of the input adds it at the end of the
    result when it has not been seen, and changes nothing otherwise. *)
Lemma insertionOrder_snoc seen xs x :
  insertionOrder seen (xs ++ [x])
  = insertionOrder seen xs ++ (if bool_decide (x ∈ seen \/ x ∈ xs) then [] else [x]).
Proof.
  revert seen. induction xs as [|y xs IH]; intros seen; simpl.
  - destruct (bool_decide (x ∈ seen)) eqn:E.
    + apply bool_decide_eq_true in E. rewrite bool_decide_eq_true_2; [reflexivity|by left].
    + apply bool_decide_eq_false in E. rewrite bool_decide_eq_false_2; [reflexivity|].
      intros [?|Hn]; [contradiction | inversion Hn].
  - destruct (bool_decide (y ∈ seen)) eqn:E.
    + apply bool_decide_eq_true in E. rewrite IH. f_equal.
      rewrite (bool_decide_ext (x ∈ seen \/ x ∈ xs) (x ∈ seen \/ x ∈ y :: xs));
        [reflexivity|].
      rewrite elem_of_cons. split; [tauto|]. intros [?|[->|?]]; tauto.
    + rewrite IH. rewrite <- app_comm_cons. f_equal. f_equal.
      rewrite (bool_decide_ext (x ∈ y :: seen \/ x ∈ xs) (x ∈ seen \/ x ∈ y :: xs));
        [reflexivity|].
      rewrite !elem_of_cons. tauto.
Qed.

Lemma insertionOrder_fixed seen xs :
  NoDup xs -> (forall x, x ∈ xs -> x ∉ seen) -> insertionOrder seen xs = xs.
Proof.
  revert seen. induction xs as [|y xs IH]; intros seen Hnd Hdis; [reflexivity|].
  apply NoDup_cons in Hnd as [Hy Hnd]. simpl.
  rewrite bool_decide_eq_false_2 by (apply Hdis, list_elem_of_here).
  f_equal. apply IH; [exact Hnd|].
  intros x Hx. rewrite not_elem_of_cons. split.
  - intros ->. contradiction.
  - apply Hdis. by apply list_elem_of_further.
Qed.

Lemma cleanTags_elem tags x :
  x ∈ cleanTags trim tags <-> x <> "" /\ exists t, t ∈ tags /\ trim t = x.
Proof.
  unfold cleanTags, arrayFromSet.
  rewrite insertionOrder_elem, list_elem_of_filter, truthy_Some.
  change (map trim tags) with (trim <$> tags). rewrite list_elem_of_fmap.
  split.
  - intros [[Hne (t & -> & Ht)] _]. eauto.
  - intros [Hne (t & Ht & <-)]. split; [eauto|]. apply not_elem_of_nil.
Qed.

Lemma cleanTags_NoDup tags : NoDup (cleanTags trim tags).
Proof. apply insertionOrder_NoDup. Qed.

(** The tag list that is stored has no empty name and no name twice; it
    holds exactly the non-empty trimmed names of the request, in the
    order of their first occurrence, so it is never longer than the list
    sent.  An absent list creates no tag, and leaves the tags of an
    updated post alone, while an empty list clears them. *)
Theorem cleanTags_normal tags :
  NoDup (cleanTags trim tags)
  /\ (forall x, x ∈ cleanTags trim tags <-> x <> "" /\ exists t, t ∈ tags /\ trim t = x)
  /\ cleanTags trim tags `sublist_of` map trim tags
  /\ (length (cleanTags trim tags) <= length tags)%nat
  /\ createTags trim None = []
  /\ updateTags trim None = None
  /\ updateTags trim (Some []) = Some []
  /\ cleanTags trim [] = []
  /\ (forall t, trim t = "" \/ trim t ∈ cleanTags trim tags ->
                cleanTags trim (tags ++ [t]) = cleanTags trim tags)
  /\ (forall t, trim t <> "" -> trim t ∉ cleanTags trim tags ->
                cleanTags trim (tags ++ [t]) = cleanTags trim tags ++ [trim t]).
Proof.
  assert (Hsub : cleanTags trim tags `sublist_of` map trim tags).
  { unfold cleanTags, arrayFromSet.
    etrans; [apply insertionOrder_sublist | apply sublist_filter]. }
  assert (Hsnoc : forall t,
            cleanTags trim (tags ++ [t])
            = cleanTags trim tags
              ++ (if bool_decide (trim t = "" \/ trim t ∈ cleanTags trim tags)
                  then [] else [trim t])).
  { intros t. unfold cleanTags at 1, arrayFromSet.
    rewrite map_app, filter_app. cbn [map]. rewrite filter_cons, filter_nil.
    destruct (decide (Js.truthy (Some (trim t)) = true)) as [Ht|Ht].
    - apply truthy_Some in Ht. rewrite insertionOrder_snoc.
      unfold cleanTags, arrayFromSet. f_equal.
      rewrite (bool_decide_ext _ (trim t = "" \/
                 trim t ∈ insertionOrder []
                   (filter (fun t0 => Js.truthy (Some t0) = true) (map trim tags))));
        [reflexivity|].
      rewrite insertionOrder_elem. split.
      + intros [Hn | Hin]; [by apply not_elem_of_nil in Hn|].
        right. split; [exact Hin | apply not_elem_of_nil].
      + intros [He | [Hin _]]; [contradiction | by right].
    - rewrite app_nil_r. rewrite bool_decide_eq_true_2; [by rewrite app_nil_r|].
      left. destruct (decide (trim t = "")) as [E|E]; [exact E|].
      exfalso. by apply Ht, truthy_Some. }
  split; [apply cleanTags_NoDup|]. split; [apply cleanTags_elem|].
  split; [exact Hsub|]. split.
  { apply sublist_length in Hsub. by rewrite length_map in Hsub. }
  repeat split.
  - intros t Ht. rewrite Hsnoc, bool_decide_eq_true_2 by exact Ht. apply app_nil_r.
  - intros t Hne Hnin. rewrite Hsnoc, bool_decide_eq_false_2; [reflexivity|].
    intros [?|?]; contradiction.
Qed.

(** Cleaning a tag list a second time changes nothing, when trimming a
    trimmed name gives the same name. *)
Theorem cleanTags_idempotent tags :
  (forall t, t ∈ tags -> trim (trim t) = trim t) ->
  cleanTags trim (cleanTags trim tags) = cleanTags trim tags.
Proof.
  intros Hidem.
  pose proof (cleanTags_NoDup tags) as Hnd.
  assert (Hfix : forall x, x ∈ cleanTags trim tags -> trim x = x /\ x <> "").
  { intros x [Hne (t & Ht & <-)]%cleanTags_elem. split; [by apply Hidem | exact Hne]. }
  revert Hnd Hfix. generalize (cleanTags trim tags) as l. intros l Hnd Hfix.
  unfold cleanTags, arrayFromSet.
  assert (Hmap : map trim l = l).
  { clear Hnd. induction l as [|x l IH]; [reflexivity|]. simpl. f_equal.
    - apply Hfix, list_elem_of_here.
    - apply IH. intros y Hy. apply Hfix. by apply list_elem_of_further. }
  rewrite Hmap.
  assert (Hfil : filter (fun t => Js.truthy (Some t) = true) l = l).
  { clear Hnd Hmap. induction l as [|x l IH]; [reflexivity|].
    rewrite filter_cons. destruct (decide _) as [_|Hx].
    - f_equal. apply IH. intros y Hy. apply Hfix. by apply list_elem_of_further.
    - exfalso. apply Hx, truthy_Some, Hfix, list_elem_of_here. }
  rewrite Hfil. apply insertionOrder_fixed; [exact Hnd|].
  intros x _. apply not_elem_of_nil.
Qed.

End TagList.

Section TagListCases.
Import Backend Handlers.

Lemma cleanTags_idempotent_witness :
  (forall t, t ∈ [" sea"; "sea "; "  "; "summer"] ->
             Cases.trimSpaces (Cases.trimSpaces t) = Cases.trimSpaces t)
  /\ cleanTags Cases.trimSpaces [" sea"; "sea "; "  "; "summer"] = ["sea"; "summer"]
  /\ cleanTags Cases.trimSpaces (cleanTags Cases.trimSpaces [" sea"; "sea "; "  "; "summer"])
     = cleanTags Cases.trimSpaces [" sea"; "sea "; "  "; "summer"].
Proof.
  assert (H : forall t, t ∈ [" sea"; "sea "; "  "; "summer"] ->
                        Cases.trimSpaces (Cases.trimSpaces t) = Cases.trimSpaces t).
  { intros t Ht. repeat (apply elem_of_cons in Ht as [->|Ht]); try reflexivity.
    inversion Ht. }
  split; [exact H|]. split; [vm_compute; reflexivity|].
  exact (cleanTags_idempotent Cases.trimSpaces _ H).
Defined.

End TagListCases.

(** ** The pager of the post list *)

Section Pager.
Import Backend Handlers Client.

Lemma click_positive meta page b : 1 <= page -> 1 <= click meta page b.
Proof.
  intros Hp. unfold click. destruct meta as [m|]; [|exact Hp].
  destruct (pagerShown (Some m)) eqn:Hs; cbn [andb]; [|exact Hp].
  destruct (negb _); [|exact Hp].
  cbn [pagerShown] in Hs. apply Z.ltb_lt in Hs.
  destruct b; cbn [onClick]; lia.
Qed.

Lemma foldl_click_positive steps page :
  1 <= page ->
  1 <= foldl (fun page step => click step.1 page step.2) page steps.
Proof.
  revert page. induction steps as [|step steps IH]; intros page Hp; [exact Hp|].
  simpl. apply IH, click_positive, Hp.
Qed.

(** Whatever is clicked, and whatever totals the server reported in
    between, the page number of the client stays at least 1, so the
    query of every request for posts passes the server's pagination
    schema.  A click moves the page by at most one, and while the page is
    within the reported page count it stays within it. *)
Theorem pager_requests_valid steps :
  1 <= session steps
  /\ fetchPostsQuery (session steps) = Some (mkPagination (session steps) 20)
  /\ (forall meta page b, 1 <= page ->
        page - 1 <= click meta page b <= page + 1
        /\ (forall m, meta = Some m -> page <= totalPages m ->
              click meta page b <= totalPages m)).
Proof.
  assert (H : 1 <= session steps) by (apply foldl_click_positive; lia).
  split; [exact H|]. split.
  - unfold fetchPostsQuery, PaginationSchema, pageSize. cbn [default from_option id].
    rewrite (proj2 (Z.leb_le 1 _) H). reflexivity.
  - intros meta page b Hp. unfold click. destruct meta as [m|]; [|split; [lia|discriminate]].
    destruct (pagerShown (Some m)) eqn:Hs; cbn [andb].
    2:{ split; [lia|]. intros m' [= <-] ?. lia. }
    cbn [pagerShown] in Hs. apply Z.ltb_lt in Hs.
    destruct (disabled page m b) eqn:Hd; cbn [negb].
    { split; [lia|]. intros m' [= <-] ?. lia. }
    destruct b; cbn [onClick disabled] in *.
    + apply Z.leb_gt in Hd. split; [lia|]. intros m' [= <-] ?. lia.
    + apply Z.leb_gt in Hd. split; [lia|]. intros m' [= <-] ?. lia.
Qed.

(** When the posts of a tenant have come to fit on one page, a client
    that still shows a later page is given an empty list; the pager is
    then not rendered, so no click leads away from the empty page. *)
Theorem pager_hidden_after_shrink db posts slug o tag p a :
  admits db slug o a ->
  1 < p ->
  (length (filter (fun row => matchesWhere (app_id a) (queryTag tag) row = true) posts)
   <= 20)%nat ->
  exists m, listPosts db posts slug o tag (fetchPostsQuery p) = Done 200 (mkPostList [] m)
    /\ pagerShown (Some m) = false
    /\ forall b, click (Some m) p b = p.
Proof.
  intros Hadm Hp Hlen.
  assert (Hq : fetchPostsQuery p = Some (mkPagination p 20)).
  { unfold fetchPostsQuery, PaginationSchema, pageSize. cbn [default from_option id].
    rewrite (proj2 (Z.leb_le 1 p)) by lia. reflexivity. }
  rewrite Hq, (listPosts_admitted _ _ _ _ _ _ a Hadm). cbn [page limit].
  eexists. split; [f_equal; f_equal|].
  - rewrite drop_ge; [apply take_nil|]. rewrite orderByDesc_perm. lia.
  - assert (Hs : pagerShown (Some (mkMeta
        (Z.of_nat (length (filter
           (fun row => matchesWhere (app_id a) (queryTag tag) row = true) posts)))
        p 20
        (ceilDiv (Z.of_nat (length (filter
           (fun row => matchesWhere (app_id a) (queryTag tag) row = true) posts)))
           20))) = false).
    { cbn [pagerShown totalPages]. apply Z.ltb_ge.
      pose proof (ceilDiv_bounds (Z.of_nat (length (filter
         (fun row => matchesWhere (app_id a) (queryTag tag) row = true) posts))) 20
         ltac:(lia)). lia. }
    split; [exact Hs|]. intros b. unfold click. by rewrite Hs.
Qed.

Lemma pager_hidden_after_shrink_witness :
  admits Sample.db "travel" None Sample.travel
  /\ 1 < 2
  /\ exists m, listPosts Sample.db Cases.posts "travel" None None (fetchPostsQuery 2)
               = Done 200 (mkPostList [] m)
       /\ pagerShown (Some m) = false.
Proof.
  assert (H1 : admits Sample.db "travel" None Sample.travel)
    by (split; vm_compute; reflexivity).
  assert (H2 : 1 < 2) by lia.
  split; [exact H1|]. split; [exact H2|].
  destruct (pager_hidden_after_shrink Sample.db Cases.posts "travel" None None 2
              Sample.travel H1 H2) as (m & Hm & Hs & _).
  - vm_compute. lia.
  - exists m. by split.
Defined.

End Pager.

(** ** Reports *)

Section Reports.
Import Backend Handlers.

Lemma upsertReport_twice reports key r1 r2 id1 id2 :
  let first := upsertReport reports key r1 id1 in
  let second := upsertReport first.1 key r2 id2 in
  report_id second.2 = report_id first.2
  /\ report_reason second.2
     = match r2 with Some r => Some r | None => report_reason first.2 end
  /\ second.1 !! key = Some second.2
  /\ first.1 !! key = Some first.2
  /\ (forall k, k <> key -> second.1 !! k = reports !! k)
  /\ (reports !! key = None -> report_id first.2 = id1 /\ report_reason first.2 = r1).
Proof.
  unfold upsertReport.
  destruct (reports !! key) as [old|] eqn:Hold; cbn [fst snd];
    rewrite lookup_insert_eq; cbn [fst snd];
    rewrite !lookup_insert_eq;
    (repeat split;
     [ by destruct r2
     | by destruct r2
     | intros k Hk; by rewrite !lookup_insert_ne by congruence
     | try discriminate; try reflexivity.. ]).
Qed.

(** A user has one report per comment.  Reporting a second time answers
    201 with the id of the first report and adds no row; the stored
    reason is replaced when the second report gives one and kept when it
    gives none.  Reports on other comments or by other users are left as
    they were. *)
Theorem reportComment_once db comments reports slug postId commentId u a c r1 r2 id1 id2 :
  admits db slug (Some u) a ->
  comments !! commentId = Some c ->
  comment_postId c = postId ->
  let first := reportComment db comments reports slug postId commentId u (Some r1) id1 in
  let second := reportComment db comments first.1 slug postId commentId u (Some r2) id2 in
  exists row1 row2,
    first.2 = Done 201 (report_id row1)
    /\ second.2 = first.2
    /\ first.1 !! (commentId, user_id u) = Some row1
    /\ second.1 !! (commentId, user_id u) = Some row2
    /\ report_id row2 = report_id row1
    /\ report_reason row2
       = match r2 with Some r => Some r | None => report_reason row1 end
    /\ (forall k, k <> (commentId, user_id u) -> second.1 !! k = reports !! k)
    /\ (reports !! (commentId, user_id u) = None ->
        report_id row1 = id1 /\ report_reason row1 = r1).
Proof.
  intros [Ha Hal]%admits_unfold Hc Hp first second. subst second first.
  unfold reportComment, findCommentOnPost. cbn zeta. rewrite Ha, Hal, Hc.
  rewrite (proj2 (String.eqb_eq _ _) Hp).
  pose proof (upsertReport_twice reports (commentId, user_id u) r1 r2 id1 id2) as H.
  cbv zeta in H.
  destruct (upsertReport reports (commentId, user_id u) r1 id1) as [reports1 row1].
  cbn [fst snd] in *.
  destruct (upsertReport reports1 (commentId, user_id u) r2 id2) as [reports2 row2].
  cbn [fst snd] in *.
  destruct H as (H1 & H2 & H3 & H4 & H5 & H6).
  exists row1, row2. rewrite H1. repeat split; auto; apply H6; assumption.
Qed.

Lemma reportComment_once_witness :
  admits Sample.db "travel" (Some Sample.alice) Sample.travel
  /\ Cases.comments !! "c2" = Some (mkComment "p1" "u2" "nice" 110)
  /\ (reportComment Sample.db Cases.comments
        (reportComment Sample.db Cases.comments ∅ "travel" "p1" "c2" Sample.alice
           (Some (Some "spam")) "r1").1
        "travel" "p1" "c2" Sample.alice (Some None) "r2").2
     = Done 201 "r1".
Proof.
  assert (H1 : admits Sample.db "travel" (Some Sample.alice) Sample.travel)
    by (split; vm_compute; reflexivity).
  assert (H2 : Cases.comments !! "c2" = Some (mkComment "p1" "u2" "nice" 110))
    by (vm_compute; reflexivity).
  split; [exact H1|]. split; [exact H2|].
  destruct (reportComment_once Sample.db Cases.comments ∅ "travel" "p1" "c2"
              Sample.alice Sample.travel _ (Some "spam") None "r1" "r2" H1 H2 eq_refl)
    as (row1 & row2 & Hf & Hs & _ & _ & _ & _ & _ & Hnew).
  rewrite Hs, Hf. f_equal. apply Hnew. vm_compute. reflexivity.
Defined.

(** The same holds for reports on short texts: one report per user and
    short text, the first id kept, the reason replaced only by a reason
    that is given. *)
Theorem reportShortText_once db essays reports slug postId essayId u a e r1 r2 id1 id2 :
  admits db slug (Some u) a ->
  essays !! essayId = Some e ->
  essay_postId e = postId ->
  let first := reportShortText db essays reports slug postId essayId u (Some r1) id1 in
  let second := reportShortText db essays first.1 slug postId essayId u (Some r2) id2 in
  exists row1 row2,
    first.2 = Done 201 (report_id row1)
    /\ second.2 = first.2
    /\ first.1 !! (essayId, user_id u) = Some row1
    /\ second.1 !! (essayId, user_id u) = Some row2
    /\ report_id row2 = report_id row1
    /\ report_reason row2
       = match r2 with Some r => Some r | None => report_reason row1 end
    /\ (forall k, k <> (essayId, user_id u) -> second.1 !! k = reports !! k)
    /\ (reports !! (essayId, user_id u) = None ->
        report_id row1 = id1 /\ report_reason row1 = r1).
Proof.
  intros [Ha Hal]%admits_unfold Hc Hp first second. subst second first.
  unfold reportShortText, findEssayOnPost. cbn zeta. rewrite Ha, Hal, Hc.
  rewrite (proj2 (String.eqb_eq _ _) Hp).
  pose proof (upsertReport_twice reports (essayId, user_id u) r1 r2 id1 id2) as H.
  cbv zeta in H.
  destruct (upsertReport reports (essayId, user_id u) r1 id1) as [reports1 row1].
  cbn [fst snd] in *.
  destruct (upsertReport reports1 (essayId, user_id u) r2 id2) as [reports2 row2].
  cbn [fst snd] in *.
  destruct H as (H1 & H2 & H3 & H4 & H5 & H6).
  exists row1, row2. rewrite H1. repeat split; auto; apply H6; assumption.
Qed.

Lemma reportShortText_once_witness :
  admits Sample.db "family" (Some Sample.alice) Sample.family
  /\ Cases.essays !! "e1" = Some (mkEssay "p2" "u1" None "a day out" 220)
  /\ (reportShortText Sample.db Cases.essays
        (reportShortText Sample.db Cases.essays ∅ "family" "p2" "e1" Sample.alice
           (Some None) "r1").1
        "family" "p2" "e1" Sample.alice (Some (Some "mine")) "r2").1
       !! ("e1", "u1")
     = Some (mkReport "r1" (Some "mine")).
Proof.
  assert (H1 : admits Sample.db "family" (Some Sample.alice) Sample.family)
    by (split; vm_compute; reflexivity).
  assert (H2 : Cases.essays !! "e1" = Some (mkEssay "p2" "u1" None "a day out" 220))
    by (vm_compute; reflexivity).
  split; [exact H1|]. split; [exact H2|].
  destruct (reportShortText_once Sample.db Cases.essays ∅ "family" "p2" "e1"
              Sample.alice Sample.family _ None (Some "mine") "r1" "r2" H1 H2 eq_refl)
    as (row1 & row2 & _ & _ & _ & Hrow & Hid & Hre & _ & Hnew).
  change (user_id Sample.alice) with "u1" in Hrow. rewrite Hrow. f_equal.
  destruct row2 as [i r]. cbn [report_id report_reason] in *.
  destruct Hnew as [Hi _]; [vm_compute; reflexivity|].
  congruence.
Defined.

End Reports.
